(** * org-kubectl: ancestry resolution, project listing and the ancestor cache

    A shallow embedding of [main.go]: [listProjects], [findChildProjects],
    [openCache] and [saveCache], with the properties of the design document
    stated over it, and [main] with [clients], [getClusterCredentials] and
    [runKubectlCmd], with what the code itself shows of them.

    Go values are modelled as follows.
    - A Go [string] is a sequence of bytes: [string] (8-bit characters).
    - [[]string] is [list string]; a nil slice and an empty one are the same
      sequence ([range], [append] and [len] do not tell them apart).
    - [map[string][]string] is [gmap string (list string)].  The map handed
      to [findChildProjects] is an allocated one, as [openCache] makes it
      with [map[string][]string{}]; a nil map reads as the empty mapping
      (a cache file that holds the JSON value [null] leaves a nil map, and
      what a later write to it does is not followed here).
    - A pair [(value, error)] returned by the program is a pair, with
      [None] for a nil error and [[]] for a nil slice; what the services
      outside the program answer is either a response or an error.
    - [error] is a small tree of messages. *)

From stdpp Require Import base option list gmap strings sorting.
From Stdlib Require Import Ascii NArith Lia.

(** ** Errors and results *)

Inductive error : Type :=
| Failure (msg : string)
| Wrapped (cause : error) (msg : string).

(** [errors.Wrap] and [errors.Wrapf]: nil stays nil. *)
Definition Wrap (err : option error) (msg : string) : option error :=
  match err with
  | Some e => Some (Wrapped e msg)
  | None => None
  end.

Inductive result (A : Type) : Type :=
| Ok (a : A)
| Err (e : error).
Arguments Ok {A} a.
Arguments Err {A} e.

Definition is_Err {A} (r : result A) : bool :=
  match r with Ok _ => false | Err _ => true end.

(** ** The resource manager service

    [crm.Projects.List] answers one page per page token, [crm.Projects.GetAncestry]
    answers the ids of [resp.Ancestor] in the response's order.  Within one
    run the service answers the same request the same way; a call may in
    addition fail because the context of the error group is cancelled (see
    [step_task]). *)

Record ListProjectsResponse : Type := {
  Projects : list string;
  NextPageToken : string;
}.

Record Service : Type := {
  ProjectsList : string -> result ListProjectsResponse;
  GetAncestry : string -> result (list string);
}.

(** Number of occurrences of [x] in [l]. *)
Fixpoint count (x : string) (l : list string) : nat :=
  match l with
  | [] => 0
  | y :: l' => (if decide (y = x) then 1 else 0) + count x l'
  end.

(** ** Bytes *)

Definition code (c : ascii) : N := N_of_ascii c.
Definition chr (n : N) : ascii := ascii_of_N n.

Definition between (lo hi : N) (c : ascii) : bool :=
  ((lo <=? code c) && (code c <=? hi))%N.

Definition dquote : ascii := "034"%char.
Definition backslash : ascii := "\"%char.

(** ** UTF-8, as package [unicode/utf8] reads it *)

Definition is_cont (c : ascii) : bool := between 128 191 c.

(** Width of the encoding at the head of [s] ([utf8.DecodeRuneInString]);
    [0] where Go answers [RuneError] with width 1, or on the empty string. *)
Definition rune_width (s : string) : nat :=
  match s with
  | EmptyString => 0
  | String c0 rest =>
    if (code c0 <? 128)%N then 1
    else if between 194 223 c0 then
      match rest with
      | String c1 _ => if is_cont c1 then 2 else 0
      | _ => 0
      end
    else if between 224 239 c0 then
      match rest with
      | String c1 (String c2 _) =>
        let lo := if (code c0 =? 224)%N then 160%N else 128%N in
        let hi := if (code c0 =? 237)%N then 159%N else 191%N in
        if between lo hi c1 && is_cont c2 then 3 else 0
      | _ => 0
      end
    else if between 240 244 c0 then
      match rest with
      | String c1 (String c2 (String c3 _)) =>
        let lo := if (code c0 =? 240)%N then 144%N else 128%N in
        let hi := if (code c0 =? 244)%N then 143%N else 191%N in
        if between lo hi c1 && is_cont c2 && is_cont c3 then 4 else 0
      | _ => 0
      end
    else 0
  end.

(** [utf8.ValidString]; [k] bytes of the current encoding are still to come. *)
Fixpoint valid_from (k : nat) (s : string) : bool :=
  match s with
  | EmptyString => true
  | String c rest =>
    match k with
    | S k' => valid_from k' rest
    | O =>
      match rune_width s with
      | O => false
      | S n => valid_from n rest
      end
    end
  end.

Definition ValidString (s : string) : bool := valid_from 0 s.

(** U+FFFD in UTF-8. *)
Definition replacement : string :=
  String (chr 239) (String (chr 191) (String (chr 189) EmptyString)).

(** [utf8.AppendRune]. *)
Definition EncodeRune (r : N) : string :=
  if (r <? 128)%N then String (chr r) EmptyString
  else if (r <? 2048)%N then
    String (chr (192 + r / 64)) (String (chr (128 + r mod 64)) EmptyString)
  else if ((55296 <=? r) && (r <? 57344) || (1114111 <? r))%N then replacement
  else if (r <? 65536)%N then
    String (chr (224 + r / 4096))
      (String (chr (128 + (r / 64) mod 64))
         (String (chr (128 + r mod 64)) EmptyString))
  else
    String (chr (240 + r / 262144))
      (String (chr (128 + (r / 4096) mod 64))
         (String (chr (128 + (r / 64) mod 64))
            (String (chr (128 + r mod 64)) EmptyString))).

(** A string with every byte that is not part of a valid encoding replaced
    by U+FFFD: what a string becomes when it is written as a JSON string
    and read back. *)
Fixpoint coerce_from (k : nat) (s : string) : string :=
  match s with
  | EmptyString => EmptyString
  | String c rest =>
    match k with
    | S k' => String c (coerce_from k' rest)
    | O =>
      match rune_width s with
      | O => replacement +:+ coerce_from 0 rest
      | S n => String c (coerce_from n rest)
      end
    end
  end.

Definition ToValidUTF8 (s : string) : string := coerce_from 0 s.

(** ** Writing JSON ([encoding/json], encode.go) *)

Definition hex (n : N) : ascii := chr (if (n <? 10)%N then 48 + n else 87 + n).

(** One byte below 0x80, with [escapeHTML] on as [json.NewEncoder] has it. *)
Definition escape_byte (c : ascii) : string :=
  if Ascii.eqb c dquote || Ascii.eqb c backslash then String backslash (String c EmptyString)
  else if (code c =? 8)%N then "\b"
  else if (code c =? 12)%N then "\f"
  else if (code c =? 10)%N then "\n"
  else if (code c =? 13)%N then "\r"
  else if (code c =? 9)%N then "\t"
  else if (code c <? 32)%N || Ascii.eqb c "<" || Ascii.eqb c ">" || Ascii.eqb c "&" then
    "\u00" +:+ String (hex (code c / 16)) (String (hex (code c mod 16)) EmptyString)
  else String c EmptyString.

(** What is written for a byte that is not part of a valid encoding. *)
Definition escaped_replacement : string := "\ufffd".

(** [appendString]; [k] bytes of a valid multi-byte encoding are still to
    be copied. *)
Fixpoint appendString (k : nat) (s : string) : string :=
  match s with
  | EmptyString => EmptyString
  | String c rest =>
    match k with
    | S k' => String c (appendString k' rest)
    | O =>
      if (code c <? 128)%N then escape_byte c +:+ appendString 0 rest
      else
        match rune_width s with
        | O => escaped_replacement +:+ appendString 0 rest
        | S n =>
          match rest with
          | String c1 (String c2 rest2) =>
            if ((code c =? 226) && (code c1 =? 128)
                && ((code c2 =? 168) || (code c2 =? 169)))%N
            then "\u202" +:+ String (hex (code c2 mod 16)) (appendString 0 rest2)
            else String c (appendString n rest)
          | _ => String c (appendString n rest)
          end
        end
    end
  end.

Definition quote (s : string) : string :=
  String dquote (appendString 0 s +:+ String dquote EmptyString).

Fixpoint join (sep : string) (l : list string) : string :=
  match l with
  | [] => EmptyString
  | [x] => x
  | x :: l' => x +:+ sep +:+ join sep l'
  end.

(** A slice is written as an array (a nil slice, which is not told apart
    here, as [null]; both are read back as the empty chain). *)
Definition encode_slice (v : list string) : string :=
  "[" +:+ join "," (quote <$> v) +:+ "]".

Definition encode_entry (kv : string * list string) : string :=
  quote kv.1 +:+ ":" +:+ encode_slice kv.2.

(** Map keys are written in byte order. *)
Definition key_le (x y : string * list string) : Prop :=
  String.leb x.1 y.1 = true.

Global Instance key_le_dec : RelDecision key_le.
Proof. intros x y. unfold key_le. apply _. Defined.

Definition Marshal (m : gmap string (list string)) : string :=
  "{" +:+ join "," (encode_entry <$> merge_sort key_le (map_to_list m)) +:+ "}".

Definition newline : string := String (chr 10) EmptyString.

(** [Encoder.Encode]: the value, then a newline. *)
Definition Encode (m : gmap string (list string)) : string :=
  Marshal m +:+ newline.

(** ** Reading JSON ([encoding/json], scanner.go and decode.go) *)

#[warnings="-register-all"] Inductive json : Type :=
| JNull
| JTrue
| JFalse
| JNumber
| JString (s : string)
| JArray (elems : list json)
| JObject (members : list (string * json)).

Definition is_space (c : ascii) : bool :=
  ((code c =? 32) || (code c =? 9) || (code c =? 13) || (code c =? 10))%N.

Fixpoint skip_space (s : string) : string :=
  match s with
  | String c rest => if is_space c then skip_space rest else s
  | EmptyString => s
  end.

Definition is_digit (c : ascii) : bool := between 48 57 c.

Fixpoint skip_digits (s : string) : string :=
  match s with
  | String c rest => if is_digit c then skip_digits rest else s
  | EmptyString => s
  end.

Fixpoint strip_prefix (p s : string) : option string :=
  match p, s with
  | EmptyString, _ => Some s
  | String a p', String b s' => if Ascii.eqb a b then strip_prefix p' s' else None
  | _, _ => None
  end.

(** The number grammar of the scanner; the text after the number. *)
Definition scan_int (s : string) : option string :=
  match s with
  | String c rest =>
    if Ascii.eqb c "0" then Some rest
    else if between 49 57 c then Some (skip_digits rest)
    else None
  | EmptyString => None
  end.

Definition scan_frac (s : string) : option string :=
  match s with
  | String c rest =>
    if Ascii.eqb c "." then
      match rest with
      | String d rest' => if is_digit d then Some (skip_digits rest') else None
      | EmptyString => None
      end
    else Some s
  | EmptyString => Some s
  end.

Definition scan_exp (s : string) : option string :=
  match s with
  | String c rest =>
    if Ascii.eqb c "e" || Ascii.eqb c "E" then
      let rest1 :=
        match rest with
        | String g r => if Ascii.eqb g "+" || Ascii.eqb g "-" then r else rest
        | EmptyString => rest
        end in
      match rest1 with
      | String d rest' => if is_digit d then Some (skip_digits rest') else None
      | EmptyString => None
      end
    else Some s
  | EmptyString => Some s
  end.

Definition scan_number (s : string) : option string :=
  let s1 := match s with
            | String c rest => if Ascii.eqb c "-" then rest else s
            | EmptyString => s
            end in
  match scan_int s1 with
  | Some s2 =>
    match scan_frac s2 with
    | Some s3 => scan_exp s3
    | None => None
    end
  | None => None
  end.

Definition hexval (c : ascii) : option N :=
  if between 48 57 c then Some (code c - 48)%N
  else if between 97 102 c then Some (code c - 87)%N
  else if between 65 70 c then Some (code c - 55)%N
  else None.

(** [getu4]: the four hex digits of a [\u] escape. *)
Definition getu4 (h1 h2 h3 h4 : ascii) : option N :=
  match hexval h1, hexval h2, hexval h3, hexval h4 with
  | Some a, Some b, Some c, Some d => Some (((a * 16 + b) * 16 + c) * 16 + d)%N
  | _, _, _, _ => None
  end.

Definition is_surrogate (r : N) : bool := ((55296 <=? r) && (r <? 57344))%N.

(** [utf16.DecodeRune]; [None] where Go answers U+FFFD. *)
Definition utf16_pair (r1 r2 : N) : option N :=
  if ((55296 <=? r1) && (r1 <? 56320) && (56320 <=? r2) && (r2 <? 57344))%N
  then Some ((r1 - 55296) * 1024 + (r2 - 56320) + 65536)%N
  else None.

Definition simple_escape (e : ascii) : option ascii :=
  if Ascii.eqb e dquote || Ascii.eqb e backslash || Ascii.eqb e "/" then Some e
  else if Ascii.eqb e "b" then Some (chr 8)
  else if Ascii.eqb e "f" then Some (chr 12)
  else if Ascii.eqb e "n" then Some (chr 10)
  else if Ascii.eqb e "r" then Some (chr 13)
  else if Ascii.eqb e "t" then Some (chr 9)
  else None.

Definition push (c : ascii) (r : option (string * string)) : option (string * string) :=
  match r with
  | Some (v, rest) => Some (String c v, rest)
  | None => None
  end.

Definition pushs (p : string) (r : option (string * string)) : option (string * string) :=
  match r with
  | Some (v, rest) => Some (p +:+ v, rest)
  | None => None
  end.

(** A string literal after its opening quote: the string it denotes
    ([unquote]) and the text after the closing quote; [None] where the
    scanner reports a syntax error.  [k] bytes of a valid multi-byte
    encoding are still to be copied (decoding a valid encoding and encoding
    the rune again gives the same bytes). *)
Fixpoint unquote (k : nat) (s : string) : option (string * string) :=
  match s with
  | EmptyString => None
  | String c rest =>
    match k with
    | S k' => push c (unquote k' rest)
    | O =>
      if Ascii.eqb c dquote then Some (EmptyString, rest)
      else if Ascii.eqb c backslash then
        match rest with
        | EmptyString => None
        | String e rest1 =>
          if Ascii.eqb e "u" then
            match rest1 with
            | String h1 (String h2 (String h3 (String h4 rest2))) =>
              match getu4 h1 h2 h3 h4 with
              | None => None
              | Some r =>
                if is_surrogate r then
                  match rest2 with
                  | String b (String u (String l1 (String l2 (String l3 (String l4 rest3))))) =>
                    match (if Ascii.eqb b backslash && Ascii.eqb u "u"
                           then
                             match getu4 l1 l2 l3 l4 with
                             | Some r2 => utf16_pair r r2
                             | None => None
                             end
                           else None) with
                    | Some r' => pushs (EncodeRune r') (unquote 0 rest3)
                    | None => pushs replacement (unquote 0 rest2)
                    end
                  | _ => pushs replacement (unquote 0 rest2)
                  end
                else pushs (EncodeRune r) (unquote 0 rest2)
              end
            | _ => None
            end
          else
            match simple_escape e with
            | Some x => push x (unquote 0 rest1)
            | None => None
            end
        end
      else if (code c <? 32)%N then None
      else if (code c <? 128)%N then push c (unquote 0 rest)
      else
        match rune_width s with
        | O => pushs replacement (unquote 0 rest)
        | S n => push c (unquote n rest)
        end
    end
  end.

(** The scanner refuses containers nested deeper than this. *)
Definition maxNestingDepth : N := 10000.

(** The first JSON value of [s] and the text after it; [depth] containers
    are open around it. *)
Fixpoint parse_value (fuel : nat) (depth : N) (s : string) : option (json * string) :=
  match fuel with
  | O => None
  | S fuel' =>
    match skip_space s with
    | EmptyString => None
    | String c rest =>
      if Ascii.eqb c dquote then
        match unquote 0 rest with
        | Some (v, rest') => Some (JString v, rest')
        | None => None
        end
      else if Ascii.eqb c "[" then
        if (maxNestingDepth <=? depth)%N then None else
        match skip_space rest with
        | String c' rest' =>
          if Ascii.eqb c' "]" then Some (JArray [], rest')
          else
            match parse_elems fuel' (depth + 1) rest with
            | Some (l, rest'') => Some (JArray l, rest'')
            | None => None
            end
        | EmptyString => None
        end
      else if Ascii.eqb c "{" then
        if (maxNestingDepth <=? depth)%N then None else
        match skip_space rest with
        | String c' rest' =>
          if Ascii.eqb c' "}" then Some (JObject [], rest')
          else
            match parse_members fuel' (depth + 1) rest with
            | Some (l, rest'') => Some (JObject l, rest'')
            | None => None
            end
        | EmptyString => None
        end
      else if Ascii.eqb c "t" then (λ r, (JTrue, r)) <$> strip_prefix "rue" rest
      else if Ascii.eqb c "f" then (λ r, (JFalse, r)) <$> strip_prefix "alse" rest
      else if Ascii.eqb c "n" then (λ r, (JNull, r)) <$> strip_prefix "ull" rest
      else (λ r, (JNumber, r)) <$> scan_number (String c rest)
    end
  end

(** The elements of an array up to its closing bracket. *)
with parse_elems (fuel : nat) (depth : N) (s : string) : option (list json * string) :=
  match fuel with
  | O => None
  | S fuel' =>
    match parse_value fuel' depth s with
    | None => None
    | Some (v, rest) =>
      match skip_space rest with
      | String c rest' =>
        if Ascii.eqb c "," then
          match parse_elems fuel' depth rest' with
          | Some (l, rest'') => Some (v :: l, rest'')
          | None => None
          end
        else if Ascii.eqb c "]" then Some ([v], rest')
        else None
      | EmptyString => None
      end
    end
  end

(** The members of an object up to its closing brace. *)
with parse_members (fuel : nat) (depth : N) (s : string)
  : option (list (string * json) * string) :=
  match fuel with
  | O => None
  | S fuel' =>
    match skip_space s with
    | String q rest0 =>
      if Ascii.eqb q dquote then
        match unquote 0 rest0 with
        | None => None
        | Some (k, rest1) =>
          match skip_space rest1 with
          | String c rest2 =>
            if Ascii.eqb c ":" then
              match parse_value fuel' depth rest2 with
              | None => None
              | Some (v, rest3) =>
                match skip_space rest3 with
                | String c' rest4 =>
                  if Ascii.eqb c' "," then
                    match parse_members fuel' depth rest4 with
                    | Some (l, rest5) => Some ((k, v) :: l, rest5)
                    | None => None
                    end
                  else if Ascii.eqb c' "}" then Some ([(k, v)], rest4)
                  else None
                | EmptyString => None
                end
              end
            else None
          | EmptyString => None
          end
        end
      else None
    | EmptyString => None
    end
  end.

(** Storing into a [string]: a string literal is stored, [null] leaves the
    zero value, anything else is a type error that leaves the zero value. *)
Definition store_string (j : json) : string * bool :=
  match j with
  | JString s => (s, true)
  | JNull => (EmptyString, true)
  | _ => (EmptyString, false)
  end.

(** Storing into a [[]string]. *)
Definition store_slice (j : json) : list string * bool :=
  match j with
  | JArray l => (fst ∘ store_string <$> l, forallb (snd ∘ store_string) l)
  | JNull => ([], true)
  | _ => ([], false)
  end.

(** Storing the members of an object into the map, in the order of the
    text; a member whose value does not fit is stored with what could be
    decoded of it, and decoding goes on. *)
Fixpoint store_members (ms : list (string * json)) (c : gmap string (list string))
  : gmap string (list string) * bool :=
  match ms with
  | [] => (c, true)
  | (k, v) :: ms' =>
    let (c', ok') := store_members ms' (<[k := (store_slice v).1]> c) in
    (c', (store_slice v).2 && ok')
  end.

Definition type_error : error :=
  Failure "json: cannot unmarshal value into Go value".

(** Storing a JSON value into the map behind [&c]: the members of an
    object are added to what the map holds; [null] empties the map; any
    other value is a type error and leaves the map as it is. *)
Definition unmarshal (j : json) (c : gmap string (list string))
  : gmap string (list string) * option error :=
  match j with
  | JObject ms =>
    let (c', ok) := store_members ms c in
    (c', if ok then None else Some type_error)
  | JNull => (∅, None)
  | _ => (c, Some type_error)
  end.

(** [json.NewDecoder(f).Decode(&c)] on a file that holds [data]: the first
    value of the text is checked for its syntax as a whole and then stored;
    on a syntax error, or when there is no value, the map is not touched. *)
Definition Decode (data : string) (c : gmap string (list string))
  : gmap string (list string) * option error :=
  match skip_space data with
  | EmptyString => (c, Some (Failure "EOF"))
  | _ =>
    match parse_value (2 * String.length data + 1) 0 data with
    | None => (c, Some (Failure "json: syntax error"))
    | Some (j, _) => unmarshal j c
    end
  end.

(** *** What reading back gives, for the statements below *)

(** The value read for a slice written by [encode_slice]. *)
Definition read_back (v : list string) : list json := JString ∘ ToValidUTF8 <$> v.

Definition read_back_entry (kv : string * list string) : string * json :=
  (ToValidUTF8 kv.1, JArray (read_back kv.2)).

(** [parse_members] after a member has been read. *)
Definition members_tail (f : nat) (depth : N) (kv : string * json) (rest : string)
  : option (list (string * json) * string) :=
  match skip_space rest with
  | String c rest' =>
    if Ascii.eqb c "," then
      match parse_members f depth rest' with
      | Some (l, rest'') => Some (kv :: l, rest'')
      | None => None
      end
    else if Ascii.eqb c "}" then Some ([kv], rest')
    else None
  | EmptyString => None
  end.

Definition coerce_entry (kv : string * list string) : string * list string :=
  (ToValidUTF8 kv.1, ToValidUTF8 <$> kv.2).

Definition store_entry (c : gmap string (list string)) (kv : string * list string)
  : gmap string (list string) :=
  <[kv.1 := kv.2]> c.

(** A cache all of whose project ids and ancestor ids are valid UTF-8, as
    are all ids that come out of a JSON document. *)
Definition valid_cache (m : gmap string (list string)) : bool :=
  forallb (λ kv, ValidString kv.1 && forallb ValidString kv.2) (map_to_list m).

(** A JSON value all of whose strings and member names are valid UTF-8. *)
Fixpoint valid_json (j : json) : bool :=
  match j with
  | JString s => ValidString s
  | JArray l => forallb valid_json l
  | JObject ms => forallb (λ kv, ValidString kv.1 && valid_json kv.2) ms
  | _ => true
  end.

(** ** The cache file

    The file system as [openCache] and [saveCache] see it: the regular files
    by path, the paths that the system refuses to open or create (a missing
    directory, a directory in the way, missing rights), and the room left
    on the device. *)

Record disk : Type := Disk {
  files : gmap string string;
  refused : string → bool;
  room : option nat;      (* bytes that can still be written; [None]: no limit *)
}.

(** [os.Open]: the contents to read from. *)
Definition os_Open (d : disk) (path : string) : result string :=
  if refused d path then Err (Failure "open: permission denied")
  else
    match files d !! path with
    | Some data => Ok data
    | None => Err (Failure "open: no such file or directory")
    end.

(** [os.Create]: the file exists and is empty afterwards. *)
Definition os_Create (d : disk) (path : string) : result disk :=
  if refused d path then Err (Failure "open: permission denied")
  else Ok (Disk (<[path := EmptyString]> (files d)) (refused d) (room d)).

(** [f.Write(b)] at the start of the file: [b], or as much of it as there
    is room for and an error, over what the file holds. *)
Definition overwrite (written cur : string) : string :=
  written +:+ String.substring (String.length written)
                (String.length cur - String.length written) cur.

Definition Write (d : disk) (path : string) (b : string) : disk * option error :=
  let cur := default EmptyString (files d !! path) in
  match room d with
  | Some n =>
    if decide (n < String.length b) then
      (Disk (<[path := overwrite (String.substring 0 n b) cur]> (files d))
            (refused d) (Some 0),
       Some (Failure "write: no space left on device"))
    else
      (Disk (<[path := overwrite b cur]> (files d)) (refused d)
            (Some (n - String.length b)), None)
  | None => (Disk (<[path := overwrite b cur]> (files d)) (refused d) None, None)
  end.

Definition openCache (d : disk) (path : string)
  : gmap string (list string) * option error :=
  let c : gmap string (list string) := ∅ in
  match os_Open d path with
  | Err err => (c, Wrap (Some err) "could not open cache file")
  | Ok f =>
    let (c', err) := Decode f c in
    (c', Wrap err "could not decode cache")
  end.

Definition saveCache (d : disk) (path : string) (cache : gmap string (list string))
  : disk * option error :=
  match os_Create d path with
  | Err err => (d, Wrap (Some err) "could not create cache file")
  | Ok d1 =>
    let (d2, err) := Write d1 path (Encode cache) in
    (d2, Wrap err "could not encode cache")
  end.

(** [main], up to the call of [findChildProjects]: the error of [openCache]
    is dropped ([ancestorCache, _ := openCache(cachePath)]). *)
Definition main_cache (d : disk) (cachePath : string) : gmap string (list string) :=
  (openCache d cachePath).1.

(** ** The goroutines of findChildProjects *)

(** A goroutine of the error group (the closure at [grp.Go]). *)
Inductive task : Type :=
| TQuery (p : string)
    (* about to call GetAncestry(p) *)
| TWalk (p : string) (ancestors rest : list string)
    (* in the loop over resp.Ancestor: [ancestors] collected, [rest] to go *)
| TReturned (p : string) (err : option error).

(** The main goroutine. *)
Inductive mainpc : Type :=
| MStart
| MRange (ps : list string)
    (* at the head of the loop, [ps] still to visit *)
| MInner (p : string) (ancestors : list string) (ps : list string)
    (* cache hit: in the loop over the cached chain *)
| MWait
| MReturn (r : list string * option error).

Record state : Type := State {
  pc : mainpc;
  goroutines : list task;
  ancestorCache : gmap string (list string);
  filteredProjects : list string;
  grpErr : option error;      (* the group's first error; set = ctx cancelled *)
  queries : list (string * result (list string));  (* ancestry calls made *)
}.

Definition set_pc (s : state) (m : mainpc) : state :=
  State m (goroutines s) (ancestorCache s) (filteredProjects s) (grpErr s) (queries s).

Definition task_returned (t : task) : bool :=
  match t with TReturned _ _ => true | _ => false end.

Definition task_project (t : task) : string :=
  match t with TQuery p | TWalk p _ _ | TReturned p _ => p end.

(** The scheduler's decisions. *)
Inductive choice : Type :=
| RunMain
| RunTask (i : nat) (cancelled : bool).

(** ** Sample data for the statements at concrete inputs *)

(** Three projects on two pages; [org1] above [a] and [c]. *)
Definition demo_crm : Service := {|
  ProjectsList tok :=
    if decide (tok = EmptyString) then Ok {| Projects := ["a"; "b"]; NextPageToken := "2" |}
    else if decide (tok = "2") then Ok {| Projects := ["c"]; NextPageToken := EmptyString |}
    else Err (Failure "invalid page token");
  GetAncestry p :=
    if decide (p = "a") then Ok ["org1"; "folder2"]
    else if decide (p = "b") then Ok ["org2"]
    else if decide (p = "c") then Ok ["folder2"; "org1"]
    else Err (Failure "project not found");
|}.

(** The same, with the ancestry of [c] failing. *)
Definition flaky_crm : Service := {|
  ProjectsList := ProjectsList demo_crm;
  GetAncestry p :=
    if decide (p = "c") then Err (Failure "service unavailable")
    else GetAncestry demo_crm p;
|}.

(** The same inventory, with the request for the second page failing. *)
Definition short_crm : Service := {|
  ProjectsList tok :=
    if decide (tok = EmptyString) then Ok {| Projects := ["a"; "b"]; NextPageToken := "2" |}
    else Err (Failure "backend error");
  GetAncestry := GetAncestry demo_crm;
|}.

Definition demo_cache : gmap string (list string) := {["b" := ["org1"]]}.

(** A chain that names the target twice. *)
Definition twice_cache : gmap string (list string) := {["b" := ["org1"; "org1"]]}.

Definition blank_disk : disk := Disk ∅ (λ _, false) None.

(** No room for the whole cache file. *)
Definition full_disk : disk :=
  Disk {["cache.json" := Encode demo_cache]} (λ _, false) (Some 4).

(** A cache file that is well-formed JSON with a chain that is a number. *)
Definition corrupt_text : string :=
  "{" +:+ quote "a" +:+ ":[" +:+ quote "org1" +:+ "]," +:+ quote "b" +:+ ":5}".

Definition corrupt_disk : disk :=
  Disk {["cache.json" := corrupt_text]} (λ _, false) None.

(** An ancestor id that is the single byte 0xE9, which is not UTF-8. *)
Definition latin1_cache : gmap string (list string) :=
  {["p" := [String (chr 233) EmptyString]]}.

(** Room for the object of the sample cache, and not for the newline after
    it. *)
Definition tight_disk : disk :=
  Disk ∅ (λ _, false) (Some (String.length (Marshal demo_cache))).

Section Resolver.

Variable crm : Service.

(** ** listProjects *)

(** The generated client's [Pages]: fetch, hand the page to the callback,
    stop on an empty next-page token.  The callback of [listProjects] never
    fails; it appends the page's project ids to [projects].  The result is
    the value of [projects] and the error of [Pages]; [None] when [fuel]
    pages were not enough. *)
Fixpoint Pages (fuel : nat) (pageToken : string) (projects : list string)
  : option (list string * option error) :=
  match fuel with
  | O => None
  | S fuel' =>
    match ProjectsList crm pageToken with
    | Err e => Some (projects, Some e)
    | Ok r =>
      let projects' := projects ++ Projects r in
      if decide (NextPageToken r = EmptyString) then Some (projects', None)
      else Pages fuel' (NextPageToken r) projects'
    end
  end.

Definition listProjects (fuel : nat) : option (list string * option error) :=
  match Pages fuel EmptyString [] with
  | None => None
  | Some (projects, err) =>
    match err with
    | Some _ => Some ([], Wrap err "could not list projects")
    | None => Some (projects, None)
    end
  end.

(** The inventory as the design document describes it: the pages that
    follow one another from a page token up to the page that names no next
    page ([listing]), or up to a page request that fails ([listing_fails]). *)
Inductive listing : string → list string → Prop :=
| listing_last tok r :
    ProjectsList crm tok = Ok r → NextPageToken r = EmptyString →
    listing tok (Projects r)
| listing_more tok r ps :
    ProjectsList crm tok = Ok r → NextPageToken r ≠ EmptyString →
    listing (NextPageToken r) ps →
    listing tok (Projects r ++ ps).

Inductive listing_fails : string → Prop :=
| listing_fails_here tok e :
    ProjectsList crm tok = Err e → listing_fails tok
| listing_fails_later tok r :
    ProjectsList crm tok = Ok r → NextPageToken r ≠ EmptyString →
    listing_fails (NextPageToken r) →
    listing_fails tok.

(** ** findChildProjects

    The main goroutine and the goroutines started by [grp.Go] interleave at
    the granularity of the critical sections of [mu]. *)

Variable parentResourceID : string.
Variable fuel : nat.

(** [filteredProjects = append(filteredProjects, p)] when the ancestor is
    the one looked for. *)
Definition collect (ancestor p : string) (filtered : list string) : list string :=
  if decide (ancestor = parentResourceID) then filtered ++ [p] else filtered.

Definition step_main (s : state) : option state :=
  match pc s with
  | MStart =>
    match listProjects fuel with
    | None => None
    | Some (_, Some err) => Some (set_pc s (MReturn ([], Some err)))
    | Some (projects, None) => Some (set_pc s (MRange projects))
    end
  | MRange [] => Some (set_pc s MWait)
  | MRange (p :: ps) =>
    match ancestorCache s !! p with
    | Some ancestors => Some (set_pc s (MInner p ancestors ps))
    | None =>
      Some (State (MRange ps) (goroutines s ++ [TQuery p]) (ancestorCache s)
                  (filteredProjects s) (grpErr s) (queries s))
    end
  | MInner p [] ps => Some (set_pc s (MRange ps))
  | MInner p (ancestor :: rest) ps =>
    Some (State (MInner p rest ps) (goroutines s) (ancestorCache s)
                (collect ancestor p (filteredProjects s)) (grpErr s) (queries s))
  | MWait =>
    if forallb task_returned (goroutines s) then
      match grpErr s with
      | Some _ =>
        Some (set_pc s (MReturn ([], Wrap (grpErr s) "could not get project ancestors")))
      | None => Some (set_pc s (MReturn (filteredProjects s, None)))
      end
    else None
  | MReturn _ => None
  end.

(** One step of goroutine [i].  [cancelled] says that the call observed the
    cancellation of the group's context, which it can only do once the
    group has an error. *)
Definition step_task (i : nat) (cancelled : bool) (s : state) : option state :=
  match goroutines s !! i with
  | Some (TQuery p) =>
    if cancelled && negb (bool_decide (is_Some (grpErr s))) then None else
    let resp := if cancelled then Err (Failure "context canceled")
                else GetAncestry crm p in
    match resp with
    | Err e =>
      let err := Wrapped e ("could not get ancestry for " +:+ p) in
      Some (State (pc s) (<[i := TReturned p (Some err)]> (goroutines s))
                  (ancestorCache s) (filteredProjects s)
                  (match grpErr s with Some e0 => Some e0 | None => Some err end)
                  (queries s ++ [(p, resp)]))
    | Ok ancestry =>
      Some (State (pc s) (<[i := TWalk p [] ancestry]> (goroutines s))
                  (ancestorCache s) (filteredProjects s) (grpErr s)
                  (queries s ++ [(p, resp)]))
    end
  | Some (TWalk p ancestors (ancestor :: rest)) =>
    Some (State (pc s) (<[i := TWalk p (ancestors ++ [ancestor]) rest]> (goroutines s))
                (ancestorCache s) (collect ancestor p (filteredProjects s))
                (grpErr s) (queries s))
  | Some (TWalk p ancestors []) =>
    Some (State (pc s) (<[i := TReturned p None]> (goroutines s))
                (<[p := ancestors]> (ancestorCache s)) (filteredProjects s)
                (grpErr s) (queries s))
  | Some (TReturned _ _) | None => None
  end.

Definition step (c : choice) (s : state) : option state :=
  match c with
  | RunMain => step_main s
  | RunTask i cancelled => step_task i cancelled s
  end.

Fixpoint run (sched : list choice) (s : state) : option state :=
  match sched with
  | [] => Some s
  | c :: sched' =>
    match step c s with
    | Some s' => run sched' s'
    | None => None
    end
  end.

Variable cache0 : gmap string (list string).

Definition init : state := State MStart [] cache0 [] None [].

(** What [findChildProjects] returned, once it has. *)
Definition returned (s : state) : option (list string * option error) :=
  match pc s with MReturn r => Some r | _ => None end.

(** [findChildProjects] under a schedule of its goroutines: what it
    returns and the cache it leaves, when the schedule takes it to its
    return. *)
Definition findChildProjects (sched : list choice)
  : option ((list string * option error) * gmap string (list string)) :=
  match run sched init with
  | Some s =>
    match returned s with
    | Some r => Some (r, ancestorCache s)
    | None => None
    end
  | None => None
  end.

(** *** Reference points of the invariants *)

(** The projects the listing gives (none when it fails). *)
Definition projects0 : list string :=
  match listProjects fuel with Some (ps, None) => ps | _ => [] end.

(** The chain a project is judged by: the one cached at the start, else the
    one the service answers. *)
Definition chain (p : string) : option (list string) :=
  match cache0 !! p with
  | Some c => Some c
  | None => match GetAncestry crm p with Ok a => Some a | Err _ => None end
  end.

Definition hits (p : string) : nat := count parentResourceID (default [] (chain p)).

(** Appends of [p] that a goroutine or the main loop still has to make. *)
Definition pend_task (p : string) (t : task) : nat :=
  match t with
  | TQuery q => if decide (q = p) then hits p else 0
  | TWalk q _ rest => if decide (q = p) then count parentResourceID rest else 0
  | TReturned _ _ => 0
  end.

Definition pend_main (p : string) (m : mainpc) : nat :=
  match m with
  | MStart => count p projects0 * hits p
  | MRange ps => count p ps * hits p
  | MInner q rest ps =>
    (if decide (q = p) then count parentResourceID rest else 0) + count p ps * hits p
  | MWait | MReturn _ => 0
  end.

Definition to_visit (m : mainpc) : list string :=
  match m with
  | MRange ps | MInner _ _ ps => ps
  | _ => []
  end.

Definition task_ok (s : state) (t : task) : Prop :=
  (cache0 !! task_project t = None ∧ task_project t ∈ projects0) ∧
  match t with
  | TQuery _ => True
  | TWalk p a r => GetAncestry crm p = Ok (a ++ r)
  | TReturned p None => is_Some (ancestorCache s !! p)
  | TReturned p (Some _) => is_Some (grpErr s)
  end.

Definition query_ok (s : state) (q : string * result (list string)) : Prop :=
  (cache0 !! q.1 = None ∧ q.1 ∈ projects0) ∧
  match q.2 with
  | Ok a => GetAncestry crm q.1 = Ok a
  | Err _ => is_Some (grpErr s)
  end.

(** The call a goroutine has made is in the log. *)
Definition asked (qs : list (string * result (list string))) (t : task) : Prop :=
  match t with
  | TQuery _ => True
  | TWalk p a r => (p, Ok (a ++ r)) ∈ qs
  | TReturned p None => ∃ a, (p, Ok a) ∈ qs
  | TReturned p (Some _) => ∃ e, (p, Err e) ∈ qs
  end.

Definition pc_ok (s : state) : Prop :=
  match pc s with
  | MStart =>
    goroutines s = [] ∧ ancestorCache s = cache0 ∧ filteredProjects s = [] ∧
    grpErr s = None ∧ queries s = []
  | MReturn r =>
    forallb task_returned (goroutines s) = true ∧
    match r.2 with
    | None => r.1 = filteredProjects s ∧ grpErr s = None ∧
              listProjects fuel = Some (projects0, None)
    | Some _ => r.1 = [] ∧
                (is_Some (grpErr s) ∨ ∃ ps e, listProjects fuel = Some (ps, Some e))
    end
  | _ => listProjects fuel = Some (projects0, None)
  end.

Record inv (s : state) : Prop := Inv {
  inv_old : ∀ p c, cache0 !! p = Some c → ancestorCache s !! p = Some c;
  inv_chain : ∀ p a, ancestorCache s !! p = Some a → chain p = Some a;
  inv_tasks : Forall (task_ok s) (goroutines s);
  inv_queries : Forall (query_ok s) (queries s);
  inv_walk : ∀ p a, (p, Ok a) ∈ queries s →
    is_Some (ancestorCache s !! p) ∨ ∃ a1 a2, TWalk p a1 a2 ∈ goroutines s;
  inv_asked : Forall (asked (queries s)) (goroutines s);
  inv_cover : pc s ≠ MStart → ∀ p, p ∈ projects0 →
    p ∈ to_visit (pc s) ∨ is_Some (ancestorCache s !! p) ∨
    ∃ t, t ∈ goroutines s ∧ task_project t = p;
  inv_pc : pc_ok s;
  inv_count : grpErr s = None → ∀ p,
    count p (filteredProjects s) + pend_main p (pc s)
      + sum_list_with (pend_task p) (goroutines s)
    = count p projects0 * hits p;
  inv_visit : ∀ p, p ∈ to_visit (pc s) → p ∈ projects0;
  inv_written : ∀ p, cache0 !! p = None → is_Some (ancestorCache s !! p) →
    ∃ a, (p, Ok a) ∈ queries s;
}.

(** The list that is returned when no goroutine is started: the listed
    projects in the order of the listing, each as often as its chain names
    the target. *)
Definition in_order (ps : list string) : list string :=
  flat_map (λ p, replicate (hits p) p) ps.

(** What the main loop still has to append of it. *)
Definition still_due (m : mainpc) : list string :=
  match m with
  | MStart => in_order projects0
  | MRange ps => in_order ps
  | MInner p rest ps => replicate (count parentResourceID rest) p ++ in_order ps
  | MWait | MReturn _ => []
  end.

(** The run while no goroutine has been started. *)
Definition alone (s : state) : Prop :=
  goroutines s = [] ∧ queries s = [] ∧ ancestorCache s = cache0 ∧
  grpErr s = None ∧
  match pc s with
  | MReturn r => r = (in_order projects0, None)
  | m => filteredProjects s ++ still_due m = in_order projects0
  end.

(** Calls for [p]: made, and about to be made by a goroutine. *)
Definition calls (p : string) (qs : list (string * result (list string))) : nat :=
  length (filter (λ q, q.1 = p) qs).

Definition about_to_call (p : string) (t : task) : nat :=
  match t with
  | TQuery q => if decide (q = p) then 1 else 0
  | _ => 0
  end.

(** The first failed call of the log, as the error group keeps it. *)
Fixpoint first_error (qs : list (string * result (list string))) : option error :=
  match qs with
  | [] => None
  | (p, Err e) :: _ => Some (Wrapped e ("could not get ancestry for " +:+ p))
  | (_, Ok _) :: qs' => first_error qs'
  end.

(** The error of the group is the first failed call of the log, which is
    an answer of the service and not a cancellation; the error returned is
    the error of the listing or wraps the error of the group. *)
Definition reported (s : state) : Prop :=
  grpErr s = first_error (queries s) ∧
  (∀ g, first_error (queries s) = Some g →
     ∃ p e, g = Wrapped e ("could not get ancestry for " +:+ p) ∧
            GetAncestry crm p = Err e ∧ (p, Err e) ∈ queries s) ∧
  (∀ l err, pc s = MReturn (l, Some err) →
     (∃ ps, listProjects fuel = Some (ps, Some err)) ∨
     (∃ g, grpErr s = Some g ∧ err = Wrapped g "could not get project ancestors")).

(** Work left, for termination. *)
Definition cost (p : string) : nat := 3 + length (default [] (chain p)).

Definition task_size (t : task) : nat :=
  match t with
  | TQuery p => 2 + length (default [] (chain p))
  | TWalk _ _ rest => 1 + length rest
  | TReturned _ _ => 0
  end.

Definition main_size (m : mainpc) : nat :=
  match m with
  | MStart => 3 + sum_list_with cost projects0
  | MRange ps => 2 + sum_list_with cost ps
  | MInner _ rest ps => 3 + length rest + sum_list_with cost ps
  | MWait => 1
  | MReturn _ => 0
  end.

Definition size (s : state) : nat :=
  main_size (pc s) + sum_list_with task_size (goroutines s).

(** A scheduler that lets the main goroutine reach [grp.Wait] and then
    runs the goroutines to their end, first started first. *)
Fixpoint first_running (ts : list task) : option nat :=
  match ts with
  | [] => None
  | t :: ts' => if task_returned t then S <$> first_running ts' else Some 0
  end.

Definition pick (s : state) : choice :=
  match pc s, first_running (goroutines s) with
  | MWait, Some i => RunTask i false
  | _, _ => RunMain
  end.

Fixpoint drive (n : nat) (s : state) : list choice :=
  match n with
  | O => []
  | S n' =>
    match returned s, step (pick s) s with
    | None, Some s' => pick s :: drive n' s'
    | _, _ => []
    end
  end.

(** The run under that scheduler, and the state it ends in. *)
Definition to_the_end : list choice := drive (size init) init.

Definition final : state := default init (run to_the_end init).

End Resolver.

(** ** The path of the cache file ([path.Join], [path.Clean]) *)

(** [r+1 == n || path[r+1] == '/'], for the text [s] from [path[r+1]] on. *)
Definition at_end (s : string) : bool :=
  match s with
  | EmptyString => true
  | String c _ => Ascii.eqb c "/"
  end.

(** The bytes up to the next slash, and the text from that slash on. *)
Fixpoint element (s : string) : string * string :=
  match s with
  | EmptyString => (EmptyString, EmptyString)
  | String c rest =>
    if Ascii.eqb c "/" then (EmptyString, s)
    else let (e, rest') := element rest in (String c e, rest')
  end.

(** Backing up over the last element written: [w] goes down to [dotdot] or
    to the slash before the element. *)
Fixpoint back_up (n : nat) (out : string) (w dotdot : nat) : nat :=
  match n with
  | O => w
  | S n' =>
    if decide (dotdot < w) then
      match String.get w out with
      | Some c => if Ascii.eqb c "/" then w else back_up n' out (w - 1) dotdot
      | None => w
      end
    else w
  end.

(** The loop of [Clean]: [rest] is the text from [path[r]] on, [out] the
    [out.w] bytes written. *)
Fixpoint clean_from (n : nat) (rooted : bool) (rest out : string) (dotdot : nat)
  : string :=
  match n, rest with
  | S n', String c rest1 =>
    if Ascii.eqb c "/" then clean_from n' rooted rest1 out dotdot
    else if Ascii.eqb c "." && at_end rest1 then clean_from n' rooted rest1 out dotdot
    else if Ascii.eqb c "." &&
            match rest1 with
            | String c1 rest2 => Ascii.eqb c1 "." && at_end rest2
            | EmptyString => false
            end
    then
      let rest2 := match rest1 with String _ r => r | EmptyString => EmptyString end in
      let w := String.length out in
      if decide (dotdot < w) then
        clean_from n' rooted rest2
          (String.substring 0 (back_up w out (w - 1) dotdot) out) dotdot
      else if negb rooted then
        let out' := (if decide (0 < w) then out +:+ "/" else out) +:+ ".." in
        clean_from n' rooted rest2 out' (String.length out')
      else clean_from n' rooted rest2 out dotdot
    else
      let w := String.length out in
      let out' :=
        if rooted && negb (w =? 1) || negb rooted && negb (w =? 0)
        then out +:+ "/" else out in
      let (e, rest') := element rest in
      clean_from n' rooted rest' (out' +:+ e) dotdot
  | _, _ => out
  end.

Definition Clean (path : string) : string :=
  match path with
  | EmptyString => "."
  | String c rest =>
    let n := String.length path in
    let out :=
      if Ascii.eqb c "/" then clean_from n true rest "/" 1
      else clean_from n false path EmptyString 0 in
    match out with
    | EmptyString => "."
    | _ => out
    end
  end.

(** [path.Join]: the elements from the first one that is not empty, with
    slashes between them, cleaned. *)
Fixpoint path_Join (elem : list string) : string :=
  match elem with
  | [] => EmptyString
  | e :: elem' =>
    if decide (e = EmptyString) then path_Join elem' else Clean (join "/" elem)
  end.

(** An element of a path that [Clean] leaves as it is: not empty, without
    a slash, and neither [.] nor [..]. *)
Fixpoint no_slash (s : string) : bool :=
  match s with
  | EmptyString => true
  | String c rest => negb (Ascii.eqb c "/") && no_slash rest
  end.

Definition plain (e : string) : bool :=
  no_slash e && negb (String.eqb e EmptyString) && negb (String.eqb e ".")
  && negb (String.eqb e "..").

(** ** The command dispatch of main *)

(** [err.Error()], which is what [%v] prints for an error: the messages
    from the outermost to the cause. *)
Fixpoint Error (e : error) : string :=
  match e with
  | Failure msg => msg
  | Wrapped cause msg => msg +:+ ": " +:+ Error cause
  end.

(** A cluster of a response of the container service (the elements of
    [resp.Clusters] point to clusters; none of them is nil). *)
Record Cluster : Type := {
  Name : string;
  Zone : string;
}.

(** What [main] does that can be seen from outside, in order.  Messages of
    severity Info are left out. *)
Inductive event : Type :=
| Stderr (line : string)          (* fmt.Fprintln(os.Stderr, line) *)
| Errorf (msg : string)           (* glog.Errorf, the formatted message *)
| ListClusters (project : string) (* gke.Projects.Zones.Clusters.List(p, "-") *)
| Start (argv : list string).     (* cmd.Run() of the command argv *)

(** The container service.  Its answer may depend on what the program has
    done before. *)
Record Container : Type := {
  Clusters_List : list event → string → result (list Cluster);
}.

(** What the process is started with and what is around it. *)
Record OS : Type := {
  Args : list string;                       (* os.Args *)
  HOME : string;                            (* os.Getenv("HOME") *)
  fs : disk;
  DefaultClient : option error;             (* the error of google.DefaultClient *)
  cloudresourcemanager_New : result Service;
  container_New : result Container;
  Cmd_Run : list event → list string → option error;   (* the error of cmd.Run() *)
}.

Definition clients (os : OS) : result (Service * Container) :=
  match DefaultClient os with
  | Some err => Err (Wrapped err "could not authenticate to google")
  | None =>
    match cloudresourcemanager_New os with
    | Err err => Err (Wrapped err "could not create cloudresourcemanger client")
    | Ok crm =>
      match container_New os with
      | Err err => Err (Wrapped err "could not create gke client")
      | Ok gke => Ok (crm, gke)
      end
    end
  end.

(** A piece of [main]: from the events so far to the events after it, with
    its value, or [None] where it has ended the process with [os.Exit(1)]. *)
Definition Proc (A : Type) : Type := list event → list event * option A.

Global Instance Proc_ret : MRet Proc := λ A a tr, (tr, Some a).
Global Instance Proc_bind : MBind Proc := λ A B f m tr,
  match m tr with
  | (tr', Some a) => f a tr'
  | (tr', None) => (tr', None)
  end.

Definition emit (e : event) : Proc unit := λ tr, (tr ++ [e], Some ()).
Definition os_Exit {A} : Proc A := λ tr, (tr, None).

Fixpoint range {A} (l : list A) (body : A → Proc unit) : Proc unit :=
  match l with
  | [] => mret ()
  | x :: l' => body x ;; range l' body
  end.

Section Dispatch.

Variable os : OS.

(** [cmd.Run()] for [exec.CommandContext(ctx, name, arg...)]. *)
Definition Run (argv : list string) : Proc (option error) :=
  λ tr, (tr ++ [Start argv], Some (Cmd_Run os tr argv)).

Definition runKubectlCmd (context : string) (additionalArgs : list string)
  : Proc (option error) :=
  let args := ["--context"; context] ++ additionalArgs in
  err ← Run ("kubectl" :: args);
  mret (Wrap err "could not run kubectl").

Definition getClusterCredentials (project : string) (cluster : Cluster)
  : Proc (option error) :=
  err ← Run ["gcloud"; "--project"; project; "container"; "clusters";
             "get-credentials"; Name cluster; "--zone"; Zone cluster];
  mret (Wrap err "could not get cluster credentials").

Variable gke : Container.

(** [gke.Projects.Zones.Clusters.List(p, "-").Context(ctx).Do()]: the
    clusters of the response, or the error. *)
Definition Do_List (p : string) : Proc (result (list Cluster)) :=
  λ tr, (tr ++ [ListClusters p], Some (Clusters_List gke tr p)).

Variable additionalArgs : list string.      (* os.Args[2:len(os.Args)] *)

(** The body of the loop over [resp.Clusters]. *)
Definition dispatch_cluster (p : string) (c : Cluster) : Proc unit :=
  err ← getClusterCredentials p c;
  match err with
  | Some err =>
    emit (Errorf ("could not get cluster credentials for " +:+ Name c +:+ " in "
                  +:+ p +:+ ": " +:+ Error err)) ;;
    os_Exit
  | None =>
    let context := "gke_" +:+ p +:+ "_" +:+ Zone c +:+ "_" +:+ Name c in
    err ← runKubectlCmd context additionalArgs;
    match err with
    | Some err =>
      emit (Errorf ("could not run kubectl for " +:+ Name c +:+ " in "
                    +:+ p +:+ ": " +:+ Error err)) ;;
      os_Exit
    | None => mret ()
    end
  end.

(** The body of the loop over [projects]. *)
Definition dispatch_project (p : string) : Proc unit :=
  resp ← Do_List p;
  match resp with
  | Err err =>
    emit (Errorf ("could not list gke clusters in " +:+ p +:+ ": " +:+ Error err)) ;;
    os_Exit
  | Ok clusters => range clusters (dispatch_cluster p)
  end.

End Dispatch.

(** [path.Join(os.Getenv("HOME"), ".kube", "cache", "org-kubectl.json")]. *)
Definition cachePath (os : OS) : string :=
  path_Join [HOME os; ".kube"; "cache"; "org-kubectl.json"].

(** Whether [Decode] leaves a nil map behind [&c]: the text holds the JSON
    value null. *)
Definition nil_cache (d : disk) (path : string) : bool :=
  match os_Open d path with
  | Ok data =>
    match parse_value (2 * String.length data + 1) 0 data with
    | Some (JNull, _) => true
    | _ => false
    end
  | Err _ => false
  end.

(** [saveCache] of a nil map: the text is the JSON value null. *)
Definition saveCache_nil (d : disk) (path : string) : disk * option error :=
  match os_Create d path with
  | Err err => (d, Wrap (Some err) "could not create cache file")
  | Ok d1 =>
    let (d2, err) := Write d1 path ("null" +:+ newline) in
    (d2, Wrap err "could not encode cache")
  end.

(** How the process ends. *)
Record outcome : Type := Outcome {
  status : nat;             (* the exit status *)
  events : list event;
  saved : disk;             (* the files as the writes of [main] itself leave them *)
}.

(** [main], with the goroutines of [findChildProjects] scheduled by
    [sched]; [None] when the schedule does not take [findChildProjects] to
    its return.  Here a nil map is told apart from an empty one: a
    goroutine that stores a chain into a nil map panics, and the process
    ends with status 2 (the report of the panic is left out); a nil map
    that is still nil is saved as null.  The error of [saveCache] is
    dropped. *)
Definition main (os : OS) (fuel : nat) (sched : list choice) : option outcome :=
  match Args os with
  | [] | [_] => Some (Outcome 1 [Stderr "org-kubectl FOLDER [kubectl args]"] (fs os))
  | _ :: parentResourceID :: additionalArgs =>
    match clients os with
    | Err err =>
      Some (Outcome 1 [Errorf ("could not authenticate to google: " +:+ Error err)]
                    (fs os))
    | Ok (crm, gke) =>
      let ancestorCache := main_cache (fs os) (cachePath os) in
      match findChildProjects crm parentResourceID fuel ancestorCache sched with
      | None => None
      | Some ((projects, err), ancestorCache') =>
        if nil_cache (fs os) (cachePath os) && negb (bool_decide (ancestorCache' = ∅))
        then Some (Outcome 2 [] (fs os))
        else
          match err with
          | Some err =>
            Some (Outcome 1 [Errorf ("could not find projects: " +:+ Error err)] (fs os))
          | None =>
            let d :=
              (if nil_cache (fs os) (cachePath os)
               then saveCache_nil (fs os) (cachePath os)
               else saveCache (fs os) (cachePath os) ancestorCache').1 in
            match range projects (dispatch_project os gke additionalArgs) [] with
            | (tr, Some _) => Some (Outcome 0 tr d)
            | (tr, None) => Some (Outcome 1 tr d)
            end
          end
      end
    end
  end.

(** The project of a call to the container service. *)
Definition listed (e : event) : option string :=
  match e with
  | ListClusters p => Some p
  | _ => None
  end.

(** Whether [e] is a call that succeeded, made after the events [tr], and
    whether it is one that failed. *)
Definition succeeded (os : OS) (gke : Container) (tr : list event) (e : event) : bool :=
  match e with
  | Start argv => match Cmd_Run os tr argv with None => true | Some _ => false end
  | ListClusters p => negb (is_Err (Clusters_List gke tr p))
  | Stderr _ | Errorf _ => false
  end.

Definition failed (os : OS) (gke : Container) (tr : list event) (e : event) : bool :=
  match e with
  | Start argv => match Cmd_Run os tr argv with None => false | Some _ => true end
  | ListClusters p => is_Err (Clusters_List gke tr p)
  | Stderr _ | Errorf _ => false
  end.

(** Calls only, each of which succeeded. *)
Definition all_well (os : OS) (gke : Container) (tr : list event) : Prop :=
  ∀ i e, tr !! i = Some e → succeeded os gke (take i tr) e = true.

(** Every start of kubectl comes right after a start of gcloud that
    succeeded in getting the credentials of the cluster the context names,
    and has the arguments [args] after the context. *)
Definition after_credentials (os : OS) (args : list string) (tr : list event) : Prop :=
  ∀ i argv, tr !! i = Some (Start ("kubectl" :: argv)) →
    ∃ p c j,
      i = S j ∧
      argv = "--context" :: ("gke_" +:+ p +:+ "_" +:+ Zone c +:+ "_" +:+ Name c) :: args ∧
      tr !! j = Some (Start ["gcloud"; "--project"; p; "container"; "clusters";
                             "get-credentials"; Name c; "--zone"; Zone c]) ∧
      Cmd_Run os (take j tr)
        ["gcloud"; "--project"; p; "container"; "clusters";
         "get-credentials"; Name c; "--zone"; Zone c] = None.

(** The commands for the clusters [cs] of project [p], in the order of
    the clusters: for each, gcloud for its credentials and then kubectl. *)
Definition commands (args : list string) (p : string) (cs : list Cluster) : list event :=
  flat_map (λ c,
    [Start ["gcloud"; "--project"; p; "container"; "clusters"; "get-credentials";
            Name c; "--zone"; Zone c];
     Start ("kubectl" :: "--context"
            :: ("gke_" +:+ p +:+ "_" +:+ Zone c +:+ "_" +:+ Name c) :: args)]) cs.

(** The events after each listing are the commands for the clusters that
    were listed. *)
Definition served (gke : Container) (args : list string) (tr : list event) : Prop :=
  ∀ i p cs, tr !! i = Some (ListClusters p) →
    Clusters_List gke (take i tr) p = Ok cs →
    take (2 * length cs) (drop (S i) tr) = commands args p cs.

(** *** Sample data for the statements at concrete inputs *)

(** Two clusters in [a], one in [c]. *)
Definition demo_gke : Container := {|
  Clusters_List tr p :=
    if decide (p = "a") then Ok [{| Name := "prod"; Zone := "europe-west1-b" |};
                               {| Name := "dev"; Zone := "us-east1-c" |}]
    else if decide (p = "c") then Ok [{| Name := "batch"; Zone := "us-east1-c" |}]
    else Ok [];
|}.

Definition demo_os : OS := {|
  Args := ["org-kubectl"; "org1"; "get"; "pods"];
  HOME := "/home/u";
  fs := blank_disk;
  DefaultClient := None;
  cloudresourcemanager_New := Ok demo_crm;
  container_New := Ok demo_gke;
  Cmd_Run tr argv := None;
|}.

(** The schedule of the first run: the main goroutine up to its wait, then
    the goroutines in the order they were started. *)
Definition demo_sched : list choice :=
  to_the_end demo_crm "org1" 5 ∅.

(** The same process where the ancestry of [c] fails, where kubectl fails
    on the second cluster of [a], where no credentials are found, and where
    the cache file holds the JSON value null. *)
Definition flaky_os : OS := {|
  Args := Args demo_os; HOME := HOME demo_os; fs := fs demo_os;
  DefaultClient := None;
  cloudresourcemanager_New := Ok flaky_crm;
  container_New := Ok demo_gke;
  Cmd_Run tr argv := None;
|}.

Definition failing_os : OS := {|
  Args := Args demo_os; HOME := HOME demo_os; fs := fs demo_os;
  DefaultClient := None;
  cloudresourcemanager_New := Ok demo_crm;
  container_New := Ok demo_gke;
  Cmd_Run tr argv :=
    if decide (argv !! 2 = Some "gke_a_us-east1-c_dev") then Some (Failure "exit status 1")
    else None;
|}.

Definition anonymous_os : OS := {|
  Args := Args demo_os; HOME := HOME demo_os; fs := fs demo_os;
  DefaultClient := Some (Failure "could not find default credentials");
  cloudresourcemanager_New := Ok demo_crm;
  container_New := Ok demo_gke;
  Cmd_Run tr argv := None;
|}.

Definition null_os : OS := {|
  Args := Args demo_os; HOME := HOME demo_os;
  fs := Disk {["/home/u/.kube/cache/org-kubectl.json" := "null"]} (λ _, false) None;
  DefaultClient := None;
  cloudresourcemanager_New := Ok demo_crm;
  container_New := Ok demo_gke;
  Cmd_Run tr argv := None;
|}.

(** How [main] ends, for the statements at concrete inputs. *)
Definition ended (os : OS) (fuel : nat) (sched : list choice) : outcome :=
  default (Outcome 0 [] (fs os)) (main os fuel sched).

(** A schedule in which the goroutine of [c] overtakes the one of [a]. *)
Definition other_sched : list choice :=
  [RunMain; RunMain; RunTask 0 false; RunMain; RunMain; RunMain; RunMain;
   RunTask 1 false; RunTask 1 false; RunTask 1 false; RunTask 1 false;
   RunTask 0 false; RunTask 0 false; RunTask 0 false; RunMain; RunMain].

(** A cache that covers the sample inventory. *)
Definition full_cache : gmap string (list string) :=
  {["a" := ["org1"; "folder2"]; "b" := ["org2"]; "c" := ["folder2"; "org1"]]}.

(** ** Lemmas *)

(** *** The resolver

    The service, the target id, the page budget and the cache at the start
    are fixed; the definitions of the resolver are read at them. *)

Section ResolverFacts.

Variable crm : Service.
Variable parentResourceID : string.
Variable fuel : nat.
Variable cache0 : gmap string (list string).

Local Abbreviation Pages := (Pages crm).
Local Abbreviation listProjects := (listProjects crm).
Local Abbreviation listing := (listing crm).
Local Abbreviation listing_fails := (listing_fails crm).
Local Abbreviation collect := (collect parentResourceID).
Local Abbreviation step_main := (step_main crm parentResourceID fuel).
Local Abbreviation step_task := (step_task crm parentResourceID).
Local Abbreviation step := (step crm parentResourceID fuel).
Local Abbreviation run := (run crm parentResourceID fuel).
Local Abbreviation init := (init cache0).
Local Abbreviation findChildProjects := (findChildProjects crm parentResourceID fuel cache0).
Local Abbreviation projects0 := (projects0 crm fuel).
Local Abbreviation chain := (chain crm cache0).
Local Abbreviation hits := (hits crm parentResourceID cache0).
Local Abbreviation pend_task := (pend_task crm parentResourceID cache0).
Local Abbreviation pend_main := (pend_main crm parentResourceID fuel cache0).
Local Abbreviation task_ok := (task_ok crm fuel cache0).
Local Abbreviation query_ok := (query_ok crm fuel cache0).
Local Abbreviation pc_ok := (pc_ok crm fuel cache0).
Local Abbreviation inv := (inv crm parentResourceID fuel cache0).
Local Abbreviation cost := (cost crm cache0).
Local Abbreviation task_size := (task_size crm cache0).
Local Abbreviation main_size := (main_size crm fuel cache0).
Local Abbreviation size := (size crm fuel cache0).
Local Abbreviation drive := (drive crm parentResourceID fuel).
Local Abbreviation to_the_end := (to_the_end crm parentResourceID fuel cache0).
Local Abbreviation final := (final crm parentResourceID fuel cache0).
Local Abbreviation inv_old := (inv_old crm parentResourceID fuel cache0).
Local Abbreviation inv_chain := (inv_chain crm parentResourceID fuel cache0).
Local Abbreviation inv_tasks := (inv_tasks crm parentResourceID fuel cache0).
Local Abbreviation inv_queries := (inv_queries crm parentResourceID fuel cache0).
Local Abbreviation inv_walk := (inv_walk crm parentResourceID fuel cache0).
Local Abbreviation inv_asked := (inv_asked crm parentResourceID fuel cache0).
Local Abbreviation inv_cover := (inv_cover crm parentResourceID fuel cache0).
Local Abbreviation inv_pc := (inv_pc crm parentResourceID fuel cache0).
Local Abbreviation inv_count := (inv_count crm parentResourceID fuel cache0).
Local Abbreviation inv_visit := (inv_visit crm parentResourceID fuel cache0).
Local Abbreviation inv_written := (inv_written crm parentResourceID fuel cache0).

Lemma count_app x l1 l2 : count x (l1 ++ l2) = count x l1 + count x l2.
Proof. induction l1 as [|y l1 IH]; simpl; [done | rewrite IH; lia]. Qed.

Lemma count_pos x l : 0 < count x l ↔ x ∈ l.
Proof.
  induction l as [|y l IH]; simpl.
  - split; [lia | by intros ?%elem_of_nil].
  - rewrite elem_of_cons. destruct (decide (y = x)) as [->|Hne].
    + split; [by left | lia].
    + simpl. rewrite IH. split; [by right | intros [?|?]; congruence].
Qed.

Lemma count_zero x l : count x l = 0 ↔ x ∉ l.
Proof. rewrite <- count_pos. lia. Qed.

Lemma sum_list_with_replace {A} (f : A → nat) (l : list A) i x y :
  l !! i = Some x →
  sum_list_with f (<[i := y]> l) + f x = sum_list_with f l + f y.
Proof.
  revert i. induction l as [|z l IH]; intros [|i] Hi; simplify_eq/=.
  - lia.
  - specialize (IH _ Hi). lia.
Qed.

Lemma elem_of_replace {A} (l : list A) i x y z :
  l !! i = Some x → z ∈ l → z ∈ <[i := y]> l ∨ z = x.
Proof.
  intros Hi [j Hj]%list_elem_of_lookup.
  destruct (decide (i = j)) as [->|Hne].
  - right. congruence.
  - left. apply list_elem_of_lookup. exists j. by rewrite list_lookup_insert_ne.
Qed.

Lemma elem_of_replaced {A} (l : list A) i x y z :
  l !! i = Some x → z ∈ <[i := y]> l → z ∈ l ∨ z = y.
Proof.
  intros Hi [j Hj]%list_elem_of_lookup.
  destruct (decide (i = j)) as [->|Hne].
  - right. rewrite list_lookup_insert_eq in Hj; [congruence|].
    by eapply lookup_lt_Some.
  - left. rewrite list_lookup_insert_ne in Hj by done.
    apply list_elem_of_lookup. eauto.
Qed.

Lemma elem_of_replace_new {A} (l : list A) i x y :
  l !! i = Some x → y ∈ <[i := y]> l.
Proof.
  intros Hi. apply list_elem_of_lookup. exists i.
  apply list_lookup_insert_eq. by eapply lookup_lt_Some.
Qed.

(** *** listProjects *)

Lemma Pages_more n : ∀ m tok acc r,
  n ≤ m → Pages n tok acc = Some r → Pages m tok acc = Some r.
Proof.
  induction n as [|n IH]; intros m tok acc r Hle Hp; simpl in Hp; [done|].
  destruct m as [|m]; [lia|]. simpl.
  destruct (ProjectsList crm tok) as [pg|e]; [|done].
  destruct (decide (NextPageToken pg = EmptyString)); [done|].
  apply IH; [lia|done].
Qed.

Lemma Pages_listing tok ps :
  listing tok ps → ∃ n, ∀ acc, Pages n tok acc = Some (acc ++ ps, None).
Proof.
  induction 1 as [tok r Hr Hlast|tok r ps Hr Hnext _ [n IH]].
  - exists 1. intros acc. simpl. rewrite Hr. by rewrite decide_True.
  - exists (S n). intros acc. simpl. rewrite Hr, decide_False by done.
    by rewrite IH, app_assoc.
Qed.

Lemma Pages_listing_fails tok :
  listing_fails tok → ∃ n, ∀ acc, ∃ acc' e, Pages n tok acc = Some (acc', Some e).
Proof.
  induction 1 as [tok e Hr|tok r Hr Hnext _ [n IH]].
  - exists 1. intros acc. simpl. rewrite Hr. eauto.
  - exists (S n). intros acc. simpl. rewrite Hr, decide_False by done. apply IH.
Qed.

Lemma Pages_sound n : ∀ tok acc acc' err,
  Pages n tok acc = Some (acc', err) →
  match err with
  | None => ∃ ps, listing tok ps ∧ acc' = acc ++ ps
  | Some _ => listing_fails tok
  end.
Proof.
  induction n as [|n IH]; intros tok acc acc' err Hp; simpl in Hp; [done|].
  destruct (ProjectsList crm tok) as [pg|e] eqn:Hr.
  - destruct (decide (NextPageToken pg = EmptyString)) as [Hlast|Hnext].
    + simplify_eq. exists (Projects pg). split; [by apply listing_last|done].
    + specialize (IH _ _ _ _ Hp). destruct err as [e|].
      * by eapply listing_fails_later.
      * destruct IH as (ps & Hps & ->). exists (Projects pg ++ ps).
        split; [by eapply listing_more|by rewrite app_assoc].
  - simplify_eq. by eapply listing_fails_here.
Qed.

(** C7. [listProjects] follows the pages to the one without a next-page
    token and returns the project ids of all of them, in order; when a page
    request fails it returns an error and none of the ids collected so far.
    Either answer is the same however many more pages it would be allowed
    to fetch. *)
Theorem listProjects_all_or_nothing :
  (∀ ps, listing EmptyString ps ↔ ∃ n, listProjects n = Some (ps, None)) ∧
  (listing_fails EmptyString ↔ ∃ n e, listProjects n = Some ([], Some e)) ∧
  (∀ n ps e, listProjects n = Some (ps, Some e) → ps = []) ∧
  (∀ n m r, n ≤ m → listProjects n = Some r → listProjects m = Some r).
Proof.
  split; [|split; [|split]].
  - intros ps. split.
    + intros [n Hn]%Pages_listing. exists n. unfold listProjects. by rewrite Hn.
    + intros [n Hn]. unfold listProjects in Hn.
      destruct (Pages n EmptyString []) as [[acc [e|]]|] eqn:Hp; simplify_eq/=.
      apply Pages_sound in Hp as (ps' & Hps & ->). done.
  - split.
    + intros [n Hn]%Pages_listing_fails. destruct (Hn []) as (acc & e & Hp).
      exists n. unfold listProjects. rewrite Hp. simpl. eauto.
    + intros (n & e & Hn). unfold listProjects in Hn.
      destruct (Pages n EmptyString []) as [[acc [e'|]]|] eqn:Hp; simplify_eq/=.
      by apply Pages_sound in Hp.
  - intros n ps e Hn. unfold listProjects in Hn.
    by destruct (Pages n EmptyString []) as [[acc [e'|]]|]; simplify_eq/=.
  - intros n m r Hle Hn. unfold listProjects in *.
    destruct (Pages n EmptyString []) as [res|] eqn:Hp; [|done].
    by rewrite (Pages_more _ _ _ _ _ Hle Hp).
Qed.

(** *** The invariant of [findChildProjects] *)

Lemma inv_init : inv init.
Proof.
  split; simpl; try done.
  - intros p a Hp. unfold chain. by rewrite Hp.
  - intros p a Hin. by apply elem_of_nil in Hin.
  - intros p Hin. by apply elem_of_nil in Hin.
  - intros p Hp [a Ha]. congruence.
Qed.

Lemma task_ok_mono s s' t :
  (∀ p, is_Some (ancestorCache s !! p) → is_Some (ancestorCache s' !! p)) →
  (is_Some (grpErr s) → is_Some (grpErr s')) →
  task_ok s t → task_ok s' t.
Proof.
  intros Hc He [H1 H2]. split; [done|].
  destruct t as [| |p [e|]]; auto.
Qed.

Lemma asked_mono (qs qs' : list (string * result (list string))) t :
  (∀ q, q ∈ qs → q ∈ qs') → asked qs t → asked qs' t.
Proof.
  intros Hsub. destruct t as [| |p [e|]]; simpl; auto.
  - intros [e' ?]. eauto.
  - intros [a ?]. eauto.
Qed.

Lemma query_ok_mono s s' q :
  (is_Some (grpErr s) → is_Some (grpErr s')) →
  query_ok s q → query_ok s' q.
Proof.
  intros He [H1 H2]. split; [done|]. destruct (q.2); auto.
Qed.

Lemma chain_fresh p : cache0 !! p = None →
  chain p = match GetAncestry crm p with Ok a => Some a | Err _ => None end.
Proof. intros H. unfold chain. by rewrite H. Qed.

Lemma count_collect p a q l :
  count p (collect a q l)
  = count p l + (if decide (q = p) then count parentResourceID [a] else 0).
Proof.
  unfold collect. simpl.
  destruct (decide (a = parentResourceID)); simpl.
  - rewrite count_app. simpl. destruct (decide (q = p)); lia.
  - destruct (decide (q = p)); lia.
Qed.

Ltac keep_tasks :=
  match goal with
  | H : Forall (task_ok _) ?l |- Forall (task_ok _) ?l =>
    eapply Forall_impl; [exact H | intros ?; apply task_ok_mono; simpl; auto]
  | H : Forall (query_ok _) ?l |- Forall (query_ok _) ?l =>
    eapply Forall_impl; [exact H | intros ?; apply query_ok_mono; simpl; auto]
  | H : Forall (asked _) ?l |- Forall (asked _) ?l =>
    eapply Forall_impl; [exact H | intros ?; apply asked_mono; simpl; auto]
  end.

Lemma projects0_eq ps : listProjects fuel = Some (ps, None) → projects0 = ps.
Proof. unfold projects0. by intros ->. Qed.

Lemma projects0_err ps e : listProjects fuel = Some (ps, Some e) → projects0 = [].
Proof. unfold projects0. by intros ->. Qed.

Lemma inv_step_main s s' : inv s → step_main s = Some s' → inv s'.
Proof.
  intros [Hold Hch Ht Hq Hw Ha Hcov Hpc Hcnt Hvis Hwr] Hstep.
  unfold step_main in Hstep. unfold pc_ok in Hpc.
  destruct s as [m ts c f e qs]; simpl in *.
  destruct m as [|[|p ps]|p [|a rest] ps| |r]; simplify_eq/=.
  - (* MStart *)
    destruct Hpc as (-> & -> & -> & -> & ->).
    destruct (listProjects fuel) as [[ps [err|]]|] eqn:Hl; simplify_eq/=.
    + pose proof (projects0_err _ _ Hl) as Hp0.
      split; simpl; [done|done|keep_tasks|keep_tasks|done|done| | | | |done].
      * intros _ p Hp. rewrite Hp0 in Hp. by apply elem_of_nil in Hp.
      * unfold pc_ok; simpl. split; [done|]. split; [done|]. right. eauto.
      * intros _ p. rewrite Hp0. simpl. lia.
      * intros p Hp. by apply elem_of_nil in Hp.
    + pose proof (projects0_eq _ Hl) as Hp0.
      split; simpl; [done|done|keep_tasks|keep_tasks|done|done| | | | |done].
      * intros _ p Hp. left. by rewrite <- Hp0.
      * unfold pc_ok; simpl. by rewrite Hp0.
      * intros _ p. rewrite Hp0. lia.
      * intros p. by rewrite Hp0.
  - (* MRange [] *)
    split; simpl; [done|done|keep_tasks|keep_tasks|done|done| |done| |done|done].
    + intros _ p Hp. destruct (Hcov ltac:(done) p Hp) as [Hin|?]; [|by right].
      by apply elem_of_nil in Hin.
    + intros He p. specialize (Hcnt He p). lia.
  - (* MRange (p :: ps) *)
    assert (∀ q, q ∈ ps → q ∈ projects0) as Hvis'.
    { intros q Hin. apply Hvis. by right. }
    destruct (c !! p) as [anc|] eqn:Hc; simplify_eq/=.
    + split; simpl; [done|done|keep_tasks|keep_tasks|done|done| |done| |done|done].
      * intros _ q Hq0. destruct (Hcov ltac:(done) q Hq0) as [Hin|?]; [|by right].
        apply elem_of_cons in Hin as [->|Hin]; [|by left].
        right; left. by rewrite Hc.
      * intros He q. specialize (Hcnt He q).
        assert (count parentResourceID anc = hits p) as Hh.
        { unfold hits. by rewrite (Hch _ _ Hc). }
        destruct (decide (p = q)) as [->|Hne]; simpl in *; lia.
    + split; simpl; [done|done| |keep_tasks| | | |done| |done|done].
      * apply Forall_app. split; [keep_tasks|].
        apply Forall_singleton. split; [|done]. simpl. split; [|apply Hvis; by left].
        destruct (cache0 !! p) as [c0|] eqn:Hc0; [|done].
        apply Hold in Hc0. congruence.
      * intros q a Hin. destruct (Hw q a Hin) as [?|(a1 & a2 & Hin')]; [by left|].
        right. exists a1, a2. apply elem_of_app. by left.
      * apply Forall_app. split; [done|]. by apply Forall_singleton.
      * intros _ q Hq0. destruct (Hcov ltac:(done) q Hq0) as [Hin|[?|(t & Hin & Ht')]].
        -- apply elem_of_cons in Hin as [->|Hin]; [|by left].
           right; right. exists (TQuery p). split; [|done].
           apply elem_of_app. right. by apply list_elem_of_singleton.
        -- by right; left.
        -- right; right. exists t. split; [|done]. apply elem_of_app. by left.
      * intros He q. specialize (Hcnt He q).
        rewrite sum_list_with_app. simpl.
        destruct (decide (p = q)) as [->|Hne]; simpl in *; lia.
  - (* MInner p [] ps *)
    split; simpl; [done|done|keep_tasks|keep_tasks|done|done| |done| |done|done].
    + intros _ q Hq0. by apply (Hcov ltac:(done)).
    + intros He q. specialize (Hcnt He q). destruct (decide (p = q)); simpl in *; lia.
  - (* MInner p (a :: rest) ps *)
    split; simpl; [done|done|keep_tasks|keep_tasks|done|done| |done| |done|done].
    + intros _ q Hq0. by apply (Hcov ltac:(done)).
    + intros He q. specialize (Hcnt He q). rewrite count_collect. simpl in *.
      destruct (decide (p = q)); simpl in *; lia.
  - (* MWait *)
    destruct (forallb task_returned ts) eqn:Hall; [|done].
    destruct e as [e|]; simplify_eq/=.
    + split; simpl; [done|done|keep_tasks|keep_tasks|done|done| | |done|done|done].
      * intros _ q Hq0. by apply (Hcov ltac:(done)).
      * unfold pc_ok; simpl. split; [done|]. split; [done|]. left. by eexists.
    + split; simpl; [done|done|keep_tasks|keep_tasks|done|done| | | |done|done].
      * intros _ q Hq0. by apply (Hcov ltac:(done)).
      * unfold pc_ok; simpl. done.
      * intros He q. specialize (Hcnt He q). lia.
Qed.

Lemma forallb_task_returned ts i t :
  forallb task_returned ts = true → ts !! i = Some t → task_returned t = true.
Proof.
  intros Hall Hi. rewrite forallb_forall in Hall.
  apply Hall. apply list_elem_of_In. by eapply list_elem_of_lookup_2.
Qed.

(** While a goroutine can still move, the main goroutine has neither
    returned nor is it before the loop. *)
Lemma pc_ok_running s s' i t :
  pc_ok s → goroutines s !! i = Some t → task_returned t = false →
  pc s' = pc s → pc_ok s'.
Proof.
  unfold pc_ok. intros Hpc Hi Ht ->.
  destruct (pc s); try done.
  - destruct Hpc as (Hnil & _). by rewrite Hnil in Hi.
  - destruct Hpc as (Hall & _).
    pose proof (forallb_task_returned _ _ _ Hall Hi). congruence.
Qed.

Lemma cover_replace (ts : list task) i t t' q :
  ts !! i = Some t → task_project t' = task_project t →
  (∃ u, u ∈ ts ∧ task_project u = q) →
  ∃ u, u ∈ <[i := t']> ts ∧ task_project u = q.
Proof.
  intros Hi Hp (u & Hin & Hu).
  destruct (elem_of_replace ts i t t' u Hi Hin) as [?| ->]; [eauto|].
  exists t'. split; [by eapply elem_of_replace_new | congruence].
Qed.

Lemma walk_replace (ts : list task) i t t' q :
  ts !! i = Some t →
  (∃ a1 a2, TWalk q a1 a2 ∈ ts) →
  (∃ a1 a2, TWalk q a1 a2 ∈ <[i := t']> ts) ∨ (∃ a1 a2, t = TWalk q a1 a2).
Proof.
  intros Hi (a1 & a2 & Hin).
  destruct (elem_of_replace ts i t t' _ Hi Hin) as [?| <-]; eauto.
Qed.

Lemma inv_step_task i cancelled s s' :
  inv s → step_task i cancelled s = Some s' → inv s'.
Proof.
  intros [Hold Hch Ht Hq Hw Ha Hcov Hpc Hcnt Hvis Hwr] Hstep.
  unfold step_task in Hstep.
  destruct s as [m ts c f e qs]; simpl in *.
  assert (∀ q r, q ∈ qs → q ∈ qs ++ [r]) as Hsub.
  { intros q r Hin. apply elem_of_app. by left. }
  assert (∀ r, r ∈ qs ++ [r]) as Hlast.
  { intros r. apply elem_of_app. right. by apply list_elem_of_singleton. }
  destruct (ts !! i) as [[p|p a [|x r]|p err]|] eqn:Hi; simplify_eq/=.
  - (* TQuery *)
    pose proof (Forall_lookup_1 _ _ _ _ Ht Hi) as [[Hp0 Hpl] _]. simpl in Hp0, Hpl.
    destruct (cancelled && negb (bool_decide (is_Some e))) eqn:Hcan; [done|].
    destruct (if cancelled then Err (Failure "context canceled") else GetAncestry crm p)
      as [anc|err] eqn:Hresp; simplify_eq/=.
    + (* answered *)
      assert (GetAncestry crm p = Ok anc) as Hanc by (by destruct cancelled).
      split; simpl.
      * done.
      * done.
      * apply Forall_insert; [keep_tasks|]. by split.
      * apply Forall_app. split; [keep_tasks|]. apply Forall_singleton. by split.
      * intros q a [Hin|Hin]%elem_of_app.
        -- destruct (Hw q a Hin) as [?|Hex]; [by left|]. right.
           by destruct (walk_replace ts i _ (TWalk p [] anc) q Hi Hex) as [?|(? & ? & ?)].
        -- apply list_elem_of_singleton in Hin. simplify_eq. right.
           exists [], anc. by eapply elem_of_replace_new.
      * apply Forall_insert; [keep_tasks|]. simpl. apply Hlast.
      * intros Hm q Hq0. destruct (Hcov Hm q Hq0) as [?|[?|Hex]];
          [by left|by right; left|]. right; right.
        by eapply cover_replace.
      * by eapply pc_ok_running.
      * intros He q. specialize (Hcnt He q).
        pose proof (sum_list_with_replace (pend_task q) ts i _ (TWalk p [] anc) Hi) as Hs.
        assert (hits p = count parentResourceID anc) as Hh.
        { unfold hits. by rewrite (chain_fresh _ Hp0), Hanc. }
        simpl in Hs. destruct (decide (p = q)) as [->|Hne]; simpl in *; lia.
      * done.
      * intros q Hq0 Hs. destruct (Hwr q Hq0 Hs) as [a ?]. eauto.
    + (* failed *)
      assert (is_Some (match e with Some e0 => Some e0
                       | None => Some (Wrapped err ("could not get ancestry for " +:+ p))
                       end)) as Hsome by (destruct e; eauto).
      split; simpl.
      * done.
      * done.
      * apply Forall_insert; [keep_tasks; intros [? ->]; eauto|]. by split.
      * apply Forall_app. split; [keep_tasks; intros [? ->]; eauto|].
        apply Forall_singleton. by split.
      * intros q a [Hin|Hin]%elem_of_app.
        -- destruct (Hw q a Hin) as [?|Hex]; [by left|]. right.
           by edestruct (walk_replace ts i) as [?|(? & ? & ?)]; [exact Hi|exact Hex| |].
        -- apply list_elem_of_singleton in Hin. simplify_eq.
      * apply Forall_insert; [keep_tasks|]. simpl. eauto.
      * intros Hm q Hq0. destruct (Hcov Hm q Hq0) as [?|[?|Hex]];
          [by left|by right; left|]. right; right.
        by eapply cover_replace.
      * by eapply pc_ok_running.
      * intros He. by destruct e.
      * done.
      * intros q Hq0 Hs. destruct (Hwr q Hq0 Hs) as [a ?]. eauto.
  - (* TWalk, end of the loop *)
    pose proof (Forall_lookup_1 _ _ _ _ Ht Hi) as [[Hp0 Hpl] Hanc].
    simpl in Hp0, Hpl, Hanc.
    pose proof (Forall_lookup_1 _ _ _ _ Ha Hi) as Hasked. simpl in Hasked.
    rewrite app_nil_r in Hanc, Hasked.
    assert (∀ q, is_Some (c !! q) → is_Some (<[p:=a]> c !! q)) as Hmono.
    { intros q Hq'. destruct (decide (p = q)) as [->|Hne].
      - rewrite lookup_insert_eq. eauto.
      - by rewrite lookup_insert_ne. }
    split; simpl.
    * intros q c0 Hc0. rewrite lookup_insert_ne; [by apply Hold|]. congruence.
    * intros q a0 Hl. destruct (decide (p = q)) as [->|Hne].
      -- rewrite lookup_insert_eq in Hl. simplify_eq.
         by rewrite (chain_fresh _ Hp0), Hanc.
      -- rewrite lookup_insert_ne in Hl by done. by apply Hch.
    * apply Forall_insert; [keep_tasks|]. split; [done|]. simpl.
      rewrite lookup_insert_eq. eauto.
    * keep_tasks.
    * intros q a0 Hin. destruct (Hw q a0 Hin) as [?|Hex]; [left; auto|].
      edestruct (walk_replace ts i) as [?|(? & ? & ?)]; [exact Hi|exact Hex|right; eauto|].
      simplify_eq. left. rewrite lookup_insert_eq. eauto.
    * apply Forall_insert; [done|]. simpl. eauto.
    * intros Hm q Hq0. destruct (Hcov Hm q Hq0) as [?|[?|Hex]];
        [by left|right; left; auto|]. right; right.
      by eapply cover_replace.
    * by eapply pc_ok_running.
    * intros He q. specialize (Hcnt He q).
      pose proof (sum_list_with_replace (pend_task q) ts i _ (TReturned p None) Hi) as Hs.
      simpl in Hs. destruct (decide (p = q)); simpl in *; lia.
    * done.
    * intros q Hq0 Hs. destruct (decide (p = q)) as [->|Hne]; [eauto|].
      rewrite lookup_insert_ne in Hs by done. auto.
  - (* TWalk, one ancestor *)
    pose proof (Forall_lookup_1 _ _ _ _ Ht Hi) as [[Hp0 Hpl] Hanc].
    simpl in Hp0, Hpl, Hanc.
    pose proof (Forall_lookup_1 _ _ _ _ Ha Hi) as Hasked. simpl in Hasked.
    split; simpl.
    * done.
    * done.
    * apply Forall_insert; [keep_tasks|]. split; [done|]. simpl.
      by rewrite <- app_assoc.
    * keep_tasks.
    * intros q a0 Hin. destruct (Hw q a0 Hin) as [?|Hex]; [left; auto|].
      right.
      edestruct (walk_replace ts i) as [?|(? & ? & ?)]; [exact Hi|exact Hex|eauto|].
      simplify_eq. eexists _, _. by eapply elem_of_replace_new.
    * apply Forall_insert; [done|]. simpl. by rewrite <- app_assoc.
    * intros Hm q Hq0. destruct (Hcov Hm q Hq0) as [?|[?|Hex]];
        [by left|right; left; auto|]. right; right.
      by eapply cover_replace.
    * by eapply pc_ok_running.
    * intros He q. specialize (Hcnt He q). rewrite count_collect.
      pose proof (sum_list_with_replace (pend_task q) ts i _
                    (TWalk p (a ++ [x]) r) Hi) as Hs.
      simpl in Hs. simpl. destruct (decide (p = q)); simpl in *; lia.
    * done.
    * done.
Qed.

Lemma inv_step c s s' : inv s → step c s = Some s' → inv s'.
Proof.
  destruct c; simpl; [apply inv_step_main | apply inv_step_task].
Qed.

Lemma inv_run_from sched : ∀ s s', inv s → run sched s = Some s' → inv s'.
Proof.
  induction sched as [|c sched IH]; intros s s' Hinv Hrun; simpl in Hrun.
  - by simplify_eq.
  - destruct (step c s) as [s1|] eqn:Hstep; [|done].
    eapply IH; [|exact Hrun]. by eapply inv_step.
Qed.

Lemma inv_run sched s : run sched init = Some s → inv s.
Proof. apply inv_run_from, inv_init. Qed.

Lemma findChildProjects_run sched r c :
  findChildProjects sched = Some (r, c) ↔
  ∃ s, run sched init = Some s ∧ returned s = Some r ∧ ancestorCache s = c.
Proof.
  unfold findChildProjects. split.
  - destruct (run sched init) as [s|]; [|done].
    destruct (returned s) as [r'|] eqn:Hr; [|done]. intros [= <- <-]. eauto.
  - intros (s & -> & -> & <-). done.
Qed.


(** Goroutines that have returned owe nothing. *)
Lemma pend_returned p ts :
  forallb task_returned ts = true → sum_list_with (pend_task p) ts = 0.
Proof.
  induction ts as [|t ts IH]; simpl; [done|].
  intros [Ht Hts]%andb_prop. rewrite IH by done. by destruct t.
Qed.

(** The list returned on success holds [p] once per occurrence of the
    target in [p]'s chain, for each time [p] is listed. *)
Lemma returned_count s l p :
  inv s → returned s = Some (l, None) →
  l = filteredProjects s ∧ grpErr s = None ∧
  count p l = count p projects0 * hits p.
Proof.
  intros Hinv Hret. unfold returned in Hret.
  destruct (pc s) as [| | | |r] eqn:Hpc; simplify_eq.
  pose proof (inv_pc _ Hinv) as Hok. unfold pc_ok in Hok. rewrite Hpc in Hok.
  simpl in Hok. destruct Hok as (Hall & -> & He & _). split; [done|]. split; [done|].
  pose proof (inv_count _ Hinv He p) as Hc. rewrite Hpc in Hc. simpl in Hc.
  rewrite (pend_returned _ _ Hall) in Hc. lia.
Qed.


Lemma returned_all_done s r :
  inv s → returned s = Some r → forallb task_returned (goroutines s) = true.
Proof.
  intros Hinv Hret. unfold returned in Hret.
  destruct (pc s) eqn:Hpc; simplify_eq.
  pose proof (inv_pc _ Hinv) as Hok. unfold pc_ok in Hok. rewrite Hpc in Hok.
  by destruct Hok.
Qed.


(** *** Termination *)









(** *** Facts about the cache and the call log along a run *)

(** A chain in the cache stays as it is: the only write, at the end of a
    goroutine, stores the service's answer for a project that had no entry
    at the start, and any entry written before it holds the same answer. *)
Lemma cache_step c s s' p a :
  inv s → step c s = Some s' →
  ancestorCache s !! p = Some a → ancestorCache s' !! p = Some a.
Proof.
  intros Hinv Hstep Hp. destruct s as [m ts ca f e qs].
  destruct c as [|i cancelled]; simpl in *.
  - unfold step_main in Hstep; simpl in Hstep.
    repeat (case_match; simplify_eq/=); done.
  - unfold step_task in Hstep; simpl in Hstep.
    destruct (ts !! i) as [[q|q a' [|x r]|q err]|] eqn:Hi; simplify_eq/=.
    + repeat (case_match; simplify_eq/=); done.
    + destruct (decide (q = p)) as [->|Hne]; [|by rewrite lookup_insert_ne].
      rewrite lookup_insert_eq. f_equal.
      pose proof (Forall_lookup_1 _ _ _ _ (inv_tasks _ Hinv) Hi) as [[Hp0 _] Hanc].
      simpl in Hp0, Hanc. rewrite app_nil_r in Hanc.
      pose proof (inv_chain _ Hinv p a Hp) as Hch.
      rewrite (chain_fresh _ Hp0), Hanc in Hch. congruence.
    + done.
Qed.

Lemma cache_run sched : ∀ s s' p a,
  inv s → run sched s = Some s' →
  ancestorCache s !! p = Some a → ancestorCache s' !! p = Some a.
Proof.
  induction sched as [|c sched IH]; intros s s' p a Hinv Hrun Hp; simpl in *.
  - by simplify_eq.
  - destruct (step c s) as [s1|] eqn:Hstep; [|done].
    eapply IH; [by eapply inv_step|exact Hrun|by eapply cache_step].
Qed.



(** No call is made for a project that had a chain at the start. *)
Lemma cached_not_queried s p c r :
  inv s → cache0 !! p = Some c → (p, r) ∉ queries s.
Proof.
  intros Hinv Hc Hin.
  pose proof (inv_queries _ Hinv) as Hq. rewrite Forall_forall in Hq.
  destruct (Hq _ Hin) as [[H0 _] _]. simpl in H0. congruence.
Qed.

(** At the return, each listed project without a chain at the start has
    been asked for; the call either failed or its answer is in the cache. *)
Lemma returned_fetched s r p :
  inv s → returned s = Some r → p ∈ projects0 → cache0 !! p = None →
  (∃ e, (p, Err e) ∈ queries s ∧ is_Some (grpErr s)) ∨
  (∃ a, (p, Ok a) ∈ queries s ∧ GetAncestry crm p = Ok a ∧
        ancestorCache s !! p = Some a).
Proof.
  intros Hinv Hret Hp Hp0.
  assert (∀ a, (p, Ok a) ∈ queries s → is_Some (ancestorCache s !! p) →
            GetAncestry crm p = Ok a ∧ ancestorCache s !! p = Some a) as Hok.
  { intros a Hin [a' Ha'].
    pose proof (inv_queries _ Hinv) as Hq. rewrite Forall_forall in Hq.
    destruct (Hq _ Hin) as [_ Hanc]. simpl in Hanc. split; [done|].
    pose proof (inv_chain _ Hinv p a' Ha') as Hch.
    rewrite (chain_fresh _ Hp0), Hanc in Hch. congruence. }
  pose proof (returned_all_done _ _ Hinv Hret) as Hall.
  unfold returned in Hret. destruct (pc s) eqn:Hpc; simplify_eq.
  destruct (inv_cover _ Hinv ltac:(by rewrite Hpc) p Hp) as [Hin|[Hs|(t & Hin & Ht)]].
  - rewrite Hpc in Hin. by apply elem_of_nil in Hin.
  - right. destruct (inv_written _ Hinv p Hp0 Hs) as [a Ha]. exists a.
    split; [done|]. by apply Hok.
  - pose proof (inv_tasks _ Hinv) as Hts. rewrite Forall_forall in Hts.
    pose proof (inv_asked _ Hinv) as Has. rewrite Forall_forall in Has.
    specialize (Hts _ Hin). specialize (Has _ Hin).
    rewrite forallb_forall in Hall. apply list_elem_of_In in Hin.
    specialize (Hall _ Hin).
    destruct t as [| |q [e|]]; simplify_eq/=.
    + left. destruct Has as [e' ?]. destruct Hts as [_ ?]. eauto.
    + right. destruct Has as [a Ha]. destruct Hts as [_ Hs]. exists a.
      split; [done|]. by apply Hok.
Qed.

Lemma returned_no_walk s r p a1 a2 :
  inv s → returned s = Some r → TWalk p a1 a2 ∉ goroutines s.
Proof.
  intros Hinv Hret Hin. pose proof (returned_all_done _ _ Hinv Hret) as Hall.
  rewrite forallb_forall in Hall. apply list_elem_of_In in Hin.
  by specialize (Hall _ Hin).
Qed.

Lemma chain_cached p c : cache0 !! p = Some c → hits p = count parentResourceID c.
Proof. intros Hc. unfold hits, chain. by rewrite Hc. Qed.

Lemma chain_fetched p a :
  cache0 !! p = None → GetAncestry crm p = Ok a → hits p = count parentResourceID a.
Proof. intros H0 Ha. unfold hits. by rewrite (chain_fresh _ H0), Ha. Qed.

Lemma member_by_count p l c :
  p ∈ projects0 → count p l = count p projects0 * count parentResourceID c →
  p ∈ l ↔ parentResourceID ∈ c.
Proof.
  intros Hp Hc. rewrite <- !count_pos, Hc. apply count_pos in Hp. nia.
Qed.

(** *** The properties of the resolver *)


(** C2. For a project without a chain in the cache whose ancestry call
    succeeds with answer [a]: when [findChildProjects] has returned, the
    cache maps the project to exactly [a] (empty or not, match or not), and
    the project is in the returned list exactly when the target id is an
    element of [a].  On a run that returns a list, every listed project
    without a chain has had such a call, with the service's answer. *)
Theorem fetched_chain_is_cached sched s p :
  run sched init = Some s → is_Some (returned s) → cache0 !! p = None →
  (∀ a, (p, Ok a) ∈ queries s →
     ancestorCache s !! p = Some a ∧
     (∀ l, returned s = Some (l, None) → p ∈ l ↔ parentResourceID ∈ a)) ∧
  (∀ l, returned s = Some (l, None) → p ∈ projects0 →
     ∃ a, GetAncestry crm p = Ok a ∧ (p, Ok a) ∈ queries s).
Proof.
  intros Hrun [r Hret] Hp0. pose proof (inv_run _ _ Hrun) as Hinv. split.
  - intros a Hin.
    pose proof (inv_queries _ Hinv) as Hq. rewrite Forall_forall in Hq.
    destruct (Hq _ Hin) as [[_ Hp] Hanc]. simpl in Hp, Hanc.
    split.
    + destruct (inv_walk _ Hinv p a Hin) as [[a' Ha']|(a1 & a2 & Hw)].
      * pose proof (inv_chain _ Hinv p a' Ha') as Hch.
        rewrite (chain_fresh _ Hp0), Hanc in Hch. congruence.
      * by apply (returned_no_walk _ _ _ _ _ Hinv Hret) in Hw.
    + intros l Hl. destruct (returned_count _ _ p Hinv Hl) as (_ & _ & Hcnt).
      rewrite (chain_fetched _ _ Hp0 Hanc) in Hcnt. by apply member_by_count.
  - intros l Hl Hp.
    destruct (returned_count _ _ p Hinv Hl) as (_ & He & _).
    destruct (returned_fetched _ _ p Hinv Hl Hp Hp0)
      as [(e & _ & [e' He'])|(a & Hin & Hanc & _)]; [congruence|eauto].
Qed.



(** C6. A chain that is in the cache when [findChildProjects] starts is
    still there, unchanged, at every later point of the run, and no call is
    made for its project; more generally a chain that is in the cache at
    some point of a run is neither overwritten by another chain nor removed
    later in that run. *)
Theorem cached_chain_is_immutable sched s p c :
  run sched init = Some s → cache0 !! p = Some c →
  ancestorCache s !! p = Some c ∧
  (∀ r, (p, r) ∉ queries s) ∧
  (∀ q a sched' s', ancestorCache s !! q = Some a → run sched' s = Some s' →
     ancestorCache s' !! q = Some a).
Proof.
  intros Hrun Hc. pose proof (inv_run _ _ Hrun) as Hinv. split; [|split].
  - by apply (inv_old _ Hinv).
  - intros r. by eapply cached_not_queried.
  - intros q a sched' s' Hq Hrun'. by eapply cache_run.
Qed.

(** C9. On a run that returns a list, a project is in the list once for
    each occurrence of the target id in its chain (cached, or answered by
    the service), for each time it is listed; so a project listed once
    whose chain holds the target [k > 1] times is in the list [k] times, and
    the list has duplicates. *)
Theorem project_appended_per_occurrence sched s l p c :
  run sched init = Some s → returned s = Some (l, None) → chain p = Some c →
  count p l = count p projects0 * count parentResourceID c ∧
  (p ∈ projects0 → 1 < count parentResourceID c → ¬ NoDup l).
Proof.
  intros Hrun Hret Hc. pose proof (inv_run _ _ Hrun) as Hinv.
  destruct (returned_count _ _ p Hinv Hret) as (_ & _ & Hcnt).
  unfold hits in Hcnt. rewrite Hc in Hcnt. simpl in Hcnt. split; [done|].
  intros Hp%count_pos Hk Hnd.
  assert (1 < count p l) as Hl by nia.
  clear -Hl Hnd. induction Hnd as [|x l Hx Hnd IH]; simpl in *; [lia|].
  destruct (decide (x = p)) as [->|Hne]; simpl in *; [|by apply IH].
  apply count_zero in Hx. lia.
Qed.

(** *** More on the resolver *)

Lemma no_step_after_return c s r :
  returned s = Some r → forallb task_returned (goroutines s) = true →
  step c s = None.
Proof.
  intros Hret Hall. unfold returned in Hret.
  destruct s as [m ts ca f e qs]; simpl in *. destruct m; simplify_eq.
  destruct c as [|i cancelled]; simpl; [done|].
  unfold step_task; simpl. destruct (ts !! i) as [t|] eqn:Hi; [|done].
  rewrite forallb_forall in Hall.
  assert (task_returned t = true) as Ht.
  { apply Hall. apply list_elem_of_In. by eapply list_elem_of_lookup_2. }
  by destruct t.
Qed.

(** X7. When the listing of the projects fails, [findChildProjects] returns
    the error of [listProjects] as it is, with a nil list, after its first
    step; no goroutine is started, no ancestry call is made and the cache is
    not touched. *)
Theorem listing_failure_ends_resolution sched s ps e :
  listProjects fuel = Some (ps, Some e) → run sched init = Some s →
  goroutines s = [] ∧ queries s = [] ∧ ancestorCache s = cache0 ∧
  (∃ cause, e = Wrapped cause "could not list projects") ∧
  (sched = [] ∨ sched = [RunMain] ∧ returned s = Some ([], Some e)).
Proof.
  intros Hl Hrun.
  assert (∃ cause, e = Wrapped cause "could not list projects") as Hcause.
  { unfold listProjects in Hl.
    destruct (Pages fuel EmptyString []) as [[ps' [e'|]]|]; simplify_eq/=; eauto. }
  destruct sched as [|c sched]; simpl in Hrun.
  { simplify_eq. by repeat split; auto. }
  destruct c as [|i cancelled]; simpl in Hrun; [|done].
  unfold step_main in Hrun; simpl in Hrun. rewrite Hl in Hrun.
  destruct sched as [|c sched]; simpl in Hrun.
  { simplify_eq. simpl. repeat split; auto. }
  rewrite no_step_after_return with (r := ([], Some e)) in Hrun; done.
Qed.

(** *** A cache that covers the listing *)

Lemma collect_due a p rest l tail :
  collect a p l ++ replicate (count parentResourceID rest) p ++ tail
  = l ++ replicate (count parentResourceID (a :: rest)) p ++ tail.
Proof.
  unfold collect. simpl. destruct (decide (a = parentResourceID)); simpl; [|done].
  by rewrite <- app_assoc.
Qed.

Lemma alone_step c s s' ps :
  listProjects fuel = Some (ps, None) →
  (∀ p, p ∈ ps → is_Some (cache0 !! p)) →
  inv s → alone crm parentResourceID fuel cache0 s → step c s = Some s' →
  alone crm parentResourceID fuel cache0 s'.
Proof.
  intros Hl Hall Hinv (Hts & Hqs & Hca & He & Hdue) Hstep.
  rewrite <- (projects0_eq _ Hl) in Hall.
  destruct s as [m ts ca f e qs]; simpl in *. subst ts qs ca e.
  destruct c as [|i cancelled]; simpl in Hstep; [|done].
  unfold step_main in Hstep; simpl in Hstep. unfold alone.
  destruct m as [|[|p ps']|p [|a rest] ps'| |r]; simplify_eq/=.
  - rewrite Hl in Hstep. simplify_eq/=. by rewrite (projects0_eq _ Hl) in *.
  - done.
  - assert (p ∈ projects0) as Hp by (apply (inv_visit _ Hinv); simpl; left).
    destruct (Hall p Hp) as [c Hc]. rewrite Hc in Hstep. simplify_eq/=.
    repeat split. rewrite <- Hdue. unfold in_order at 2. simpl.
    by rewrite (chain_cached _ _ Hc).
  - done.
  - repeat split. by rewrite collect_due.
  - repeat split. rewrite app_nil_r in Hdue. by rewrite Hdue.
Qed.

Lemma alone_run ps :
  listProjects fuel = Some (ps, None) →
  (∀ p, p ∈ ps → is_Some (cache0 !! p)) →
  ∀ sched s, run sched init = Some s → alone crm parentResourceID fuel cache0 s.
Proof.
  intros Hl Hall sched s Hrun.
  assert (∀ s0, inv s0 → alone crm parentResourceID fuel cache0 s0 →
            run sched s0 = Some s → alone crm parentResourceID fuel cache0 s) as Hgen.
  { clear Hrun. induction sched as [|c sched IH]; intros s0 Hinv Hal Hrun; simpl in *.
    - by simplify_eq.
    - destruct (step c s0) as [s1|] eqn:Hstep; [|done].
      eapply IH; [by eapply inv_step|by eapply alone_step|done]. }
  apply (Hgen init); [apply inv_init| |done].
  by repeat split.
Qed.


(** *** What the cache holds *)

(** The cache when a list is returned. *)
Lemma returned_cache s l p :
  inv s → returned s = Some (l, None) →
  ancestorCache s !! p = if decide (p ∈ projects0) then chain p else cache0 !! p.
Proof.
  intros Hinv Hret.
  destruct (cache0 !! p) as [c|] eqn:H0.
  { rewrite (inv_old _ Hinv p c H0). unfold chain. rewrite H0. by case_decide. }
  case_decide as Hp.
  - destruct (returned_count _ _ p Hinv Hret) as (_ & He & _).
    destruct (returned_fetched _ _ p Hinv Hret Hp H0)
      as [(e & _ & [e' He'])|(a & _ & Hanc & Hs)]; [congruence|].
    by rewrite Hs, (chain_fresh _ H0), Hanc.
  - destruct (ancestorCache s !! p) as [a|] eqn:Hs; [|done].
    destruct (inv_written _ Hinv p H0 ltac:(eauto)) as [a' Ha'].
    pose proof (inv_queries _ Hinv) as Hq. rewrite Forall_forall in Hq.
    by destruct (Hq _ Ha') as [[_ Hin] _].
Qed.

(** X2. At every point of every run, one that ends in an error included, an
    entry of the cache is the entry that was there at the start or, for a
    project that had none, the answer of the ancestry service for a listed
    project, whose call is in the log; when a list is returned, the cache is
    the cache of the start with the answer for each listed project that had no
    entry, and nothing else. *)
Theorem cache_holds_only_answers sched s :
  run sched init = Some s →
  (∀ p a, ancestorCache s !! p = Some a →
     cache0 !! p = Some a ∨
     cache0 !! p = None ∧ p ∈ projects0 ∧ GetAncestry crm p = Ok a ∧
     (p, Ok a) ∈ queries s) ∧
  (∀ l, returned s = Some (l, None) →
     ∀ p, ancestorCache s !! p
          = if decide (p ∈ projects0) then chain p else cache0 !! p).
Proof.
  intros Hrun. pose proof (inv_run _ _ Hrun) as Hinv.
  assert (∀ p a, ancestorCache s !! p = Some a →
     cache0 !! p = Some a ∨
     cache0 !! p = None ∧ p ∈ projects0 ∧ GetAncestry crm p = Ok a ∧
     (p, Ok a) ∈ queries s) as Hentry.
  { intros p a Hp. pose proof (inv_chain _ Hinv p a Hp) as Hch.
    destruct (cache0 !! p) as [c|] eqn:H0.
    - left. unfold chain in Hch. by rewrite H0 in Hch.
    - right. split; [done|].
      destruct (inv_written _ Hinv p H0 ltac:(eauto)) as [a' Ha'].
      pose proof (inv_queries _ Hinv) as Hq. rewrite Forall_forall in Hq.
      destruct (Hq _ Ha') as [[_ Hin] Hanc]. simpl in Hin, Hanc.
      rewrite (chain_fresh _ H0), Hanc in Hch. by simplify_eq. }
  split; [done|].
  intros l Hret p. by eapply returned_cache.
Qed.

(** *** The error that is returned *)

Lemma first_error_app qs q :
  first_error (qs ++ [q])
  = match first_error qs with Some e => Some e | None => first_error [q] end.
Proof.
  induction qs as [|[p [a|e]] qs IH]; simpl; [by destruct (first_error [q])|done|done].
Qed.

Ltac same_report :=
  split; [done|split; [assumption|intros ? ? ?; simplify_eq]].

Lemma reported_step c s s' :
  inv s → reported crm fuel s → step c s = Some s' → reported crm fuel s'.
Proof.
  intros Hinv (Herr & Hfirst & Hret) Hstep.
  destruct (returned s) as [r|] eqn:Hr.
  { by rewrite (no_step_after_return c s r Hr (returned_all_done _ _ Hinv Hr)) in Hstep. }
  assert (∀ q g, first_error (queries s) = Some g →
     ∃ p e, g = Wrapped e ("could not get ancestry for " +:+ p) ∧
            GetAncestry crm p = Err e ∧ (p, Err e) ∈ queries s ++ [q]) as Hfirst'.
  { intros q g Hg. destruct (Hfirst g Hg) as (p & e & ? & ? & ?).
    exists p, e. split; [done|]. split; [done|]. apply elem_of_app. by left. }
  destruct s as [m ts ca f e qs]; simpl in *. subst e.
  destruct c as [|i cancelled]; simpl in Hstep.
  - unfold step_main in Hstep; simpl in Hstep. unfold reported.
    destruct m as [|[|p ps']|p [|a rest] ps'| |r]; simplify_eq/=;
      try (same_report).
    + destruct (listProjects fuel) as [[ps [err|]]|] eqn:Hl; simplify_eq/=.
      * split; [done|split; [exact Hfirst|]]. intros l err' [= <- <-]. eauto.
      * same_report.
    + destruct (ca !! p); simplify_eq/=; (same_report).
    + destruct (forallb task_returned ts); [|done].
      destruct (first_error qs) as [g|] eqn:Hg; simplify_eq/=; rewrite Hg.
      * split; [done|split; [exact Hfirst|]]. intros l err' [= <- <-]. eauto.
      * same_report.
  - unfold step_task in Hstep; simpl in Hstep. unfold reported.
    assert (∀ x, m = MReturn x → False) as Hm by (by intros x ->).
    destruct (ts !! i) as [[p|p a [|x r]|p err]|] eqn:Hi; simplify_eq/=.
    + destruct cancelled; simpl in Hstep.
      * destruct (first_error qs) as [g|] eqn:Hg; simpl in Hstep; [|done].
        simplify_eq/=. split; [|split].
        -- by rewrite first_error_app, Hg.
        -- intros g'. rewrite first_error_app, Hg. intros [= <-]. by apply Hfirst'.
        -- intros l err ->. by destruct (Hm (l, Some err)).
      * destruct (GetAncestry crm p) as [anc|err] eqn:Hanc; simplify_eq/=.
        -- split; [|split].
           ++ rewrite first_error_app. by destruct (first_error qs).
           ++ intros g. rewrite first_error_app. simpl.
              destruct (first_error qs) as [g0|] eqn:Hg; [|done]. intros [= <-].
              by apply Hfirst'.
           ++ intros l err ->. by destruct (Hm (l, Some err)).
        -- split; [|split].
           ++ rewrite first_error_app. by destruct (first_error qs).
           ++ intros g. rewrite first_error_app. simpl.
              destruct (first_error qs) as [g0|] eqn:Hg.
              ** intros [= <-]. by apply Hfirst'.
              ** intros [= <-]. exists p, err. split; [done|]. split; [done|].
                 apply elem_of_app. right. by left.
           ++ intros l err' ->. by destruct (Hm (l, Some err')).
    + split; [done|split; [exact Hfirst|]]. intros l err ->. by destruct (Hm (l, Some err)).
    + split; [done|split; [exact Hfirst|]]. intros l err ->. by destruct (Hm (l, Some err)).
Qed.

Lemma reported_run sched s : run sched init = Some s → reported crm fuel s.
Proof.
  intros Hrun.
  assert (∀ s0, inv s0 → reported crm fuel s0 → run sched s0 = Some s →
            reported crm fuel s) as Hgen.
  { clear Hrun. induction sched as [|c sched IH]; intros s0 Hinv Hal Hrun; simpl in *.
    - by simplify_eq.
    - destruct (step c s0) as [s1|] eqn:Hstep; [|done].
      eapply IH; [by eapply inv_step|by eapply reported_step|done]. }
  apply (Hgen init); [apply inv_init| |done].
  split; [done|split; [done|done]].
Qed.


(** *** Termination, and the number of calls *)


Lemma calls_app p qs q r :
  calls p (qs ++ [(q, r)]) = calls p qs + (if decide (q = p) then 1 else 0).
Proof.
  unfold calls. rewrite filter_app, length_app. f_equal.
  rewrite filter_cons. simpl. by case_decide.
Qed.

Lemma about_to_call_replace p (ts : list task) i q t :
  ts !! i = Some (TQuery q) → about_to_call p t = 0 →
  sum_list_with (about_to_call p) (<[i := t]> ts) + (if decide (q = p) then 1 else 0)
  = sum_list_with (about_to_call p) ts.
Proof.
  intros Hi Ht. pose proof (sum_list_with_replace (about_to_call p) ts i _ t Hi) as Hs.
  simpl in Hs. lia.
Qed.

Lemma about_to_call_keep p (ts : list task) i t t' :
  ts !! i = Some t → about_to_call p t = 0 → about_to_call p t' = 0 →
  sum_list_with (about_to_call p) (<[i := t']> ts)
  = sum_list_with (about_to_call p) ts.
Proof.
  intros Hi Ht Ht'. pose proof (sum_list_with_replace (about_to_call p) ts i _ t' Hi) as Hs.
  lia.
Qed.

Lemma calls_step c s s' p :
  inv s → step c s = Some s' →
  calls p (queries s) + sum_list_with (about_to_call p) (goroutines s)
    + match pc s with MStart => count p projects0 | m => count p (to_visit m) end
  ≤ count p projects0 →
  calls p (queries s') + sum_list_with (about_to_call p) (goroutines s')
    + match pc s' with MStart => count p projects0 | m => count p (to_visit m) end
  ≤ count p projects0.
Proof.
  intros Hinv Hstep Hle. destruct s as [m ts ca f e qs]; simpl in *.
  destruct c as [|i cancelled]; simpl in Hstep.
  - unfold step_main in Hstep; simpl in Hstep.
    destruct m as [|[|q ps']|q [|a rest] ps'| |r]; simplify_eq/=; try lia.
    + destruct (listProjects fuel) as [[ps [err|]]|] eqn:Hl; simplify_eq/=; [lia|].
      rewrite (projects0_eq _ Hl) in *. lia.
    + destruct (ca !! q); simplify_eq/=; [lia|].
      rewrite sum_list_with_app. simpl. lia.
    + destruct (forallb task_returned ts); [|done].
      destruct e; simplify_eq/=; lia.
  - unfold step_task in Hstep; simpl in Hstep.
    destruct (ts !! i) as [[q|q a [|x r]|q err]|] eqn:Hi; simplify_eq/=.
    + destruct (cancelled && negb (bool_decide (is_Some e))); [done|].
      destruct (if cancelled then Err (Failure "context canceled")
                else GetAncestry crm q) as [anc|err] eqn:Hresp; simplify_eq/=;
        rewrite calls_app.
      * pose proof (about_to_call_replace p ts i q (TWalk q [] anc) Hi eq_refl). lia.
      * pose proof (about_to_call_replace p ts i q
                      (TReturned q (Some (Wrapped err ("could not get ancestry for " +:+ q))))
                      Hi eq_refl). lia.
    + by rewrite (about_to_call_keep p ts i _ (TReturned q None) Hi).
    + by rewrite (about_to_call_keep p ts i _ (TWalk q (a ++ [x]) r) Hi).
Qed.

(** X6. The ancestry service is called for a project at most as often as the
    project is listed: never for a project that is not listed, at most once
    for a project that is listed once. *)
Theorem one_call_per_listing sched s p :
  run sched init = Some s → calls p (queries s) ≤ count p projects0.
Proof.
  intros Hrun.
  assert (∀ s0, inv s0 →
    calls p (queries s0) + sum_list_with (about_to_call p) (goroutines s0)
      + match pc s0 with MStart => count p projects0 | m => count p (to_visit m) end
    ≤ count p projects0 →
    run sched s0 = Some s →
    calls p (queries s) + sum_list_with (about_to_call p) (goroutines s)
      + match pc s with MStart => count p projects0 | m => count p (to_visit m) end
    ≤ count p projects0) as Hgen.
  { clear Hrun. induction sched as [|c sched IH]; intros s0 Hinv Hle Hrun; simpl in *.
    - by simplify_eq.
    - destruct (step c s0) as [s1|] eqn:Hstep; [|done].
      eapply IH; [by eapply inv_step|by eapply calls_step|done]. }
  specialize (Hgen init inv_init). simpl in Hgen.
  specialize (Hgen ltac:(unfold calls; simpl; lia) Hrun). lia.
Qed.

(** *** What does not depend on the schedule *)

Lemma count_Permutation x l1 l2 : l1 ≡ₚ l2 → count x l1 = count x l2.
Proof.
  induction 1 as [|y l1 l2 _ IH|y z l|l1 l2 l3 _ IH1 _ IH2]; simpl; [done|lia|lia|lia].
Qed.

Lemma Permutation_count l1 : ∀ l2, (∀ x, count x l1 = count x l2) → l1 ≡ₚ l2.
Proof.
  induction l1 as [|x l1 IH]; intros l2 Hc.
  - destruct l2 as [|y l2]; [done|]. specialize (Hc y). simpl in Hc.
    rewrite decide_True in Hc by done. lia.
  - assert (x ∈ l2) as Hx.
    { apply count_pos. rewrite <- Hc. simpl. rewrite decide_True by done. lia. }
    apply elem_of_Permutation in Hx as [l2' Hl2]. rewrite Hl2. constructor.
    apply IH. intros y. specialize (Hc y).
    rewrite (count_Permutation y _ _ Hl2) in Hc. simpl in Hc. lia.
Qed.

(** X4. Whether [findChildProjects] returns a list or an error does not depend
    on the schedule of its goroutines, and when it returns a list, neither do
    the cache it leaves nor the list up to the order of its elements. *)
Theorem schedules_agree sched1 s1 l1 sched2 s2 r2 :
  run sched1 init = Some s1 → returned s1 = Some (l1, None) →
  run sched2 init = Some s2 → returned s2 = Some r2 →
  ∃ l2, r2 = (l2, None) ∧ l1 ≡ₚ l2 ∧ ancestorCache s1 = ancestorCache s2.
Proof.
  intros Hrun1 Hret1 Hrun2 Hret2.
  pose proof (inv_run _ _ Hrun1) as Hinv1. pose proof (inv_run _ _ Hrun2) as Hinv2.
  destruct (returned_count _ _ EmptyString Hinv1 Hret1) as (_ & He1 & _).
  assert (listProjects fuel = Some (projects0, None)) as Hl.
  { pose proof (inv_pc _ Hinv1) as Hpc. unfold pc_ok, returned in *.
    destruct (pc s1); simplify_eq. simpl in Hpc. by destruct Hpc as (_ & _ & _ & ?). }
  assert (∀ p, p ∈ projects0 → cache0 !! p = None → is_Err (GetAncestry crm p) = false)
    as Hok.
  { intros p Hp H0.
    destruct (returned_fetched _ _ p Hinv1 Hret1 Hp H0)
      as [(e & _ & [e' He'])|(a & _ & Hanc & _)]; [congruence|]. by rewrite Hanc. }
  destruct r2 as [l2 [err|]].
  { exfalso. destruct (reported_run _ _ Hrun2) as (Herr & Hfirst & Hpc).
    unfold returned in Hret2. destruct (pc s2) as [| | | |r] eqn:Hr; simplify_eq.
    destruct (Hpc l2 err eq_refl) as [[ps Hl']|(g & Hg & _)]; [congruence|].
    rewrite Herr in Hg. destruct (Hfirst g Hg) as (p & e & _ & Hanc & Hin).
    pose proof (inv_queries _ Hinv2) as Hq. rewrite Forall_forall in Hq.
    destruct (Hq _ Hin) as [[H0 Hp] _]. simpl in H0, Hp.
    specialize (Hok p Hp H0). by rewrite Hanc in Hok. }
  exists l2. split; [done|]. split.
  - apply Permutation_count. intros p.
    destruct (returned_count _ _ p Hinv1 Hret1) as (_ & _ & ->).
    by destruct (returned_count _ _ p Hinv2 Hret2) as (_ & _ & ->).
  - apply map_eq. intros p.
    by rewrite (returned_cache _ _ p Hinv1 Hret1), (returned_cache _ _ p Hinv2 Hret2).
Qed.

End ResolverFacts.

(** ** The JSON codec and the cache file *)

Lemma append_cons x (a b : string) : String x a +:+ b = String x (a +:+ b).
Proof. reflexivity. Qed.

Lemma append_assoc (a b c : string) : (a +:+ b) +:+ c = a +:+ (b +:+ c).
Proof.
  induction a as [|x a IH]; [done|]. rewrite !append_cons. by f_equal.
Qed.

Lemma append_length (a b : string) :
  String.length (a +:+ b) = String.length a + String.length b.
Proof.
  induction a as [|x a IH]; [done|]. rewrite append_cons. simpl. by f_equal.
Qed.

(** Reading back one escaped byte. *)
Lemma unquote_escape_byte c tail :
  (code c <? 128)%N = true →
  unquote 0 (escape_byte c +:+ tail) = push c (unquote 0 tail).
Proof.
  destruct c as [[] [] [] [] [] [] [] []]; intros Hc; try discriminate Hc; reflexivity.
Qed.

Lemma unquote_high c tail :
  (code c <? 128)%N = false →
  unquote 0 (String c tail)
  = match rune_width (String c tail) with
    | O => pushs replacement (unquote 0 tail)
    | S n => push c (unquote n tail)
    end.
Proof.
  destruct c as [[] [] [] [] [] [] [] []]; intros Hc; try discriminate Hc; reflexivity.
Qed.

Lemma unquote_ufffd tail :
  unquote 0 (escaped_replacement +:+ tail) = pushs replacement (unquote 0 tail).
Proof. reflexivity. Qed.

Lemma code_inj c1 c2 : code c1 = code c2 → c1 = c2.
Proof.
  unfold code. intros H. rewrite <- (ascii_N_embedding c1), <- (ascii_N_embedding c2).
  by rewrite H.
Qed.

Lemma code_is c n : (code c =? n)%N = true → c = chr n.
Proof.
  intros H%N.eqb_eq. unfold chr. rewrite <- H. unfold code.
  by rewrite ascii_N_embedding.
Qed.

Lemma rune_width_bound c rest n :
  rune_width (String c rest) = S n → n ≤ String.length rest.
Proof.
  unfold rune_width. intros H.
  repeat (case_match; simplify_eq/=); lia.
Qed.

(** The width of an encoding depends on its own bytes only. *)
Lemma rune_width_copy c rest n tail :
  (code c <? 128)%N = false →
  rune_width (String c rest) = S n →
  rune_width (String c (appendString n rest +:+ tail)) = S n.
Proof.
  unfold rune_width. intros Hc H. rewrite Hc in *.
  repeat (case_match; simplify_eq/=; try done).
Qed.

Lemma unquote_u2028 c2 tail :
  ((code c2 =? 168) || (code c2 =? 169))%N = true →
  unquote 0 ("\u202" +:+ String (hex (code c2 mod 16)) tail)
  = pushs (String (chr 226) (String (chr 128) (String c2 EmptyString))) (unquote 0 tail).
Proof.
  intros [H|H]%orb_prop; apply code_is in H; subst; reflexivity.
Qed.

(** Writing a string and reading it back gives the string coerced to
    valid UTF-8. *)
Lemma unquote_appendString n : ∀ s k tail,
  String.length s ≤ n → k ≤ String.length s →
  unquote k (appendString k s +:+ String dquote tail)
  = Some (coerce_from k s, tail).
Proof.
  induction n as [|n IH]; intros s k tail Hn Hk.
  { destruct s; simpl in *; [|lia]. by replace k with 0 by lia. }
  destruct s as [|c rest]; simpl in Hn, Hk.
  { by replace k with 0 by lia. }
  destruct k as [|k].
  - destruct (code c <? 128)%N eqn:Hc.
    + replace (appendString 0 (String c rest))
        with (escape_byte c +:+ appendString 0 rest) by (simpl; by rewrite Hc).
      rewrite append_assoc, unquote_escape_byte by done.
      rewrite IH by lia. simpl.
      unfold rune_width. by rewrite Hc.
    + destruct (rune_width (String c rest)) as [|m] eqn:Hw.
      * replace (appendString 0 (String c rest))
          with (escaped_replacement +:+ appendString 0 rest)
          by (cbn [appendString]; by rewrite Hc, Hw).
        rewrite append_assoc, unquote_ufffd.
        rewrite IH by lia. cbn [coerce_from]. by rewrite Hw.
      * pose proof (rune_width_bound _ _ _ Hw) as Hm.
        destruct (match rest with
                  | String c1 (String c2 _) =>
                    ((code c =? 226) && (code c1 =? 128)
                     && ((code c2 =? 168) || (code c2 =? 169)))%N
                  | _ => false
                  end) eqn:Hsep.
        -- destruct rest as [|c1 [|c2 rest2]]; try discriminate Hsep.
           apply andb_prop in Hsep as [[Hc0 Hc1]%andb_prop Hc2].
           replace (appendString 0 (String c (String c1 (String c2 rest2))))
             with ("\u202" +:+ String (hex (code c2 mod 16)) (appendString 0 rest2)).
           2:{ cbn [appendString]. rewrite Hc, Hw, Hc0, Hc1, Hc2. done. }
           rewrite append_assoc, (append_cons (hex _)), unquote_u2028 by done.
           simpl in Hn. rewrite IH by lia.
           apply code_is in Hc0, Hc1. subst c c1.
           cbn [coerce_from]. rewrite Hw. simpl in Hw. 
           assert (m = 2) as ->.
           { apply orb_prop in Hc2 as [H|H]; apply code_is in H; subst c2;
               vm_compute in Hw; congruence. }
           reflexivity.
        -- replace (appendString 0 (String c rest)) with (String c (appendString m rest)).
           2:{ cbn [appendString]. rewrite Hc, Hw.
               destruct rest as [|c1 [|c2 rest2]]; try done. by rewrite Hsep. }
           rewrite append_cons, unquote_high by done.
           rewrite (rune_width_copy _ _ _ _ Hc Hw).
           rewrite IH by lia. cbn [coerce_from]. by rewrite Hw.
  - replace (appendString (S k) (String c rest)) with (String c (appendString k rest))
      by done.
    rewrite append_cons. cbn [unquote]. rewrite IH by lia. done.
Qed.

Lemma coerce_valid s : ∀ k, valid_from k s = true → coerce_from k s = s.
Proof.
  induction s as [|c rest IH]; intros k Hv; [done|].
  destruct k as [|k]; cbn [valid_from coerce_from] in *.
  - destruct (rune_width (String c rest)); [done|]. by rewrite IH.
  - by rewrite IH.
Qed.

Lemma ToValidUTF8_valid s : ValidString s = true → ToValidUTF8 s = s.
Proof. apply coerce_valid. Qed.

Lemma quote_append s tail :
  quote s +:+ tail = String dquote (appendString 0 s +:+ String dquote tail).
Proof. unfold quote. rewrite append_cons, append_assoc. reflexivity. Qed.

Lemma quote_length s : 2 ≤ String.length (quote s).
Proof. unfold quote. simpl. rewrite append_length. simpl. lia. Qed.

Lemma parse_value_quote f d s tail :
  parse_value (S f) d (quote s +:+ tail) = Some (JString (ToValidUTF8 s), tail).
Proof.
  rewrite quote_append.
  change (parse_value (S f) d (String dquote ?x))
    with (match unquote 0 x with
          | Some (v, rest') => Some (JString v, rest')
          | None => None
          end).
  rewrite (unquote_appendString (String.length s)) by lia. reflexivity.
Qed.

Lemma parse_elems_step f d s :
  parse_elems (S f) d s
  = match parse_value f d s with
    | None => None
    | Some (v, rest) =>
      match skip_space rest with
      | String c rest' =>
        if Ascii.eqb c "," then
          match parse_elems f d rest' with
          | Some (l, rest'') => Some (v :: l, rest'')
          | None => None
          end
        else if Ascii.eqb c "]" then Some ([v], rest')
        else None
      | EmptyString => None
      end
    end.
Proof. reflexivity. Qed.

Lemma parse_elems_strings v : ∀ x f d tail,
  String.length (join "," (quote <$> x :: v)) < f →
  parse_elems f d (join "," (quote <$> x :: v) +:+ "]" +:+ tail)
  = Some (read_back (x :: v), tail).
Proof.
  induction v as [|y v IH]; intros x f d tail Hf.
  - simpl in Hf. pose proof (quote_length x).
    destruct f as [|[|f]]; [lia..|].
    rewrite parse_elems_step. simpl join. rewrite parse_value_quote. done.
  - change (join "," (quote <$> x :: y :: v))
      with (quote x +:+ "," +:+ join "," (quote <$> y :: v)) in *.
    rewrite !append_length in Hf. pose proof (quote_length x).
    destruct f as [|[|f]]; [lia..|].
    rewrite parse_elems_step, !append_assoc, parse_value_quote.
    change (skip_space ("," +:+ ?x)) with (String "," x).
    cbn [Ascii.eqb Bool.eqb]. rewrite IH; [done|].
    change (String.length ",") with 1 in Hf. lia.
Qed.

Lemma join_quote_head x v : ∃ t, join "," (quote <$> x :: v) = String dquote t.
Proof. destruct v; simpl; unfold quote; rewrite ?append_cons; eauto. Qed.

Lemma parse_value_array f d t :
  parse_value (S f) d (String "[" (String dquote t))
  = if (maxNestingDepth <=? d)%N then None
    else match parse_elems f (d + 1) (String dquote t) with
         | Some (l, rest'') => Some (JArray l, rest'')
         | None => None
         end.
Proof. reflexivity. Qed.

Lemma parse_value_slice f d v tail :
  (maxNestingDepth <=? d)%N = false →
  String.length (encode_slice v) < f →
  parse_value f d (encode_slice v +:+ tail) = Some (JArray (read_back v), tail).
Proof.
  unfold encode_slice. intros Hd Hf.
  destruct f as [|f]; [lia|].
  destruct v as [|x v].
  { change (parse_value (S f) d (("[" +:+ join "," (quote <$> []) +:+ "]") +:+ tail))
      with (if (maxNestingDepth <=? d)%N then None
            else Some (JArray (read_back []), tail)).
    by rewrite Hd. }
  rewrite !append_assoc.
  pose proof (parse_elems_strings v x f (d + 1) tail) as Hel.
  destruct (join_quote_head x v) as [t Ht]. rewrite Ht in *.
  change ("[" +:+ String dquote t +:+ ?r) with (String "[" (String dquote (t +:+ r))).
  rewrite parse_value_array, Hd.
  change (String dquote (t +:+ ?r)) with (String dquote t +:+ r).
  rewrite Hel; [done|]. rewrite !append_length in Hf.
  change (String.length "[") with 1 in Hf. lia.
Qed.

Lemma parse_members_step f d rest0 :
  parse_members (S f) d (String dquote rest0)
  = match unquote 0 rest0 with
    | None => None
    | Some (k, rest1) =>
      match skip_space rest1 with
      | String c rest2 =>
        if Ascii.eqb c ":" then
          match parse_value f d rest2 with
          | None => None
          | Some (v, rest3) => members_tail f d (k, v) rest3
          end
        else None
      | EmptyString => None
      end
    end.
Proof. reflexivity. Qed.

Lemma parse_members_entry f d kv rest :
  (maxNestingDepth <=? d)%N = false →
  String.length (encode_slice kv.2) < f →
  parse_members (S f) d (encode_entry kv +:+ rest)
  = members_tail f d (read_back_entry kv) rest.
Proof.
  intros Hd Hf. unfold encode_entry.
  rewrite append_assoc, quote_append, parse_members_step.
  rewrite (unquote_appendString (String.length kv.1)) by lia.
  rewrite append_assoc.
  change (skip_space (":" +:+ ?x)) with (String ":" x).
  cbn [Ascii.eqb Bool.eqb]. by rewrite parse_value_slice.
Qed.

Lemma encode_entry_length kv :
  String.length (encode_slice kv.2) + 3 ≤ String.length (encode_entry kv).
Proof.
  unfold encode_entry. rewrite !append_length. pose proof (quote_length kv.1).
  change (String.length ":") with 1. lia.
Qed.

Lemma parse_members_entries l : ∀ kv f d tail,
  (maxNestingDepth <=? d)%N = false →
  String.length (join "," (encode_entry <$> kv :: l)) < f →
  parse_members f d (join "," (encode_entry <$> kv :: l) +:+ "}" +:+ tail)
  = Some (read_back_entry <$> kv :: l, tail).
Proof.
  induction l as [|kv' l IH]; intros kv f d tail Hd Hf.
  - change (join "," (encode_entry <$> [kv])) with (encode_entry kv) in *.
    pose proof (encode_entry_length kv).
    destruct f as [|f]; [lia|].
    rewrite parse_members_entry by (done || lia). done.
  - change (join "," (encode_entry <$> kv :: kv' :: l))
      with (encode_entry kv +:+ "," +:+ join "," (encode_entry <$> kv' :: l)) in *.
    rewrite !append_length in Hf. pose proof (encode_entry_length kv).
    change (String.length ",") with 1 in Hf.
    destruct f as [|f]; [lia|].
    rewrite !append_assoc, parse_members_entry by (done || lia).
    unfold members_tail.
    change (skip_space ("," +:+ ?x)) with (String "," x).
    cbn [Ascii.eqb Bool.eqb]. rewrite IH; [done|done|]. lia.
Qed.

Lemma join_entry_head kv l : ∃ t, join "," (encode_entry <$> kv :: l) = String dquote t.
Proof.
  destruct l; simpl; unfold encode_entry, quote; rewrite ?append_cons; eauto.
Qed.

Lemma parse_value_members f d t :
  parse_value (S f) d (String "{" (String dquote t))
  = if (maxNestingDepth <=? d)%N then None
    else match parse_members f (d + 1) (String dquote t) with
         | Some (l, rest'') => Some (JObject l, rest'')
         | None => None
         end.
Proof. reflexivity. Qed.

(** Reading back what [Marshal] writes for the entries [l]. *)
Lemma parse_value_object f d (l : list (string * list string)) tail :
  (maxNestingDepth <=? d + 1)%N = false →
  String.length ("{" +:+ join "," (encode_entry <$> l) +:+ "}") < f →
  parse_value f d (("{" +:+ join "," (encode_entry <$> l) +:+ "}") +:+ tail)
  = Some (JObject (read_back_entry <$> l), tail).
Proof.
  intros Hd1 Hf. destruct f as [|f]; [lia|].
  assert ((maxNestingDepth <=? d)%N = false) as Hd.
  { apply N.leb_gt. apply N.leb_gt in Hd1. lia. }
  destruct l as [|kv l].
  { change (parse_value (S f) d (("{" +:+ join "," (encode_entry <$> []) +:+ "}") +:+ tail))
      with (if (maxNestingDepth <=? d)%N then None
            else Some (JObject (read_back_entry <$> []), tail)).
    by rewrite Hd. }
  rewrite !append_assoc.
  pose proof (parse_members_entries l kv f (d + 1) tail Hd1) as Hms.
  destruct (join_entry_head kv l) as [t Ht]. rewrite Ht in *.
  change ("{" +:+ String dquote t +:+ ?r) with (String "{" (String dquote (t +:+ r))).
  rewrite parse_value_members, Hd.
  change (String dquote (t +:+ ?r)) with (String dquote t +:+ r).
  rewrite Hms; [done|]. rewrite !append_length in Hf.
  change (String.length "{") with 1 in Hf. lia.
Qed.

(** *** Storing what was read *)

Lemma store_slice_read_back v :
  store_slice (JArray (read_back v)) = (ToValidUTF8 <$> v, true).
Proof.
  unfold store_slice, read_back. f_equal.
  - induction v as [|x v IH]; [done|]. simpl in *. by f_equal.
  - induction v as [|x v IH]; [done|]. simpl in *. done.
Qed.

Lemma store_members_read_back l : ∀ c,
  store_members (read_back_entry <$> l) c
  = (foldl store_entry c (coerce_entry <$> l), true).
Proof.
  induction l as [|[k v] l IH]; intros c; [done|].
  cbn [fmap list_fmap store_members read_back_entry fst snd].
  rewrite store_slice_read_back. cbn [fst snd]. by rewrite IH.
Qed.

Lemma foldl_store_entry l : ∀ c,
  NoDup l.*1 → foldl store_entry c l = list_to_map l ∪ c.
Proof.
  induction l as [|[k v] l IH]; intros c Hnd.
  - simpl. by rewrite (left_id_L ∅ (∪)).
  - rewrite fmap_cons in Hnd. apply NoDup_cons in Hnd as [Hk Hnd].
    cbn [foldl list_to_map]. rewrite IH by done.
    unfold store_entry; simpl. rewrite <- insert_union_l.
    symmetry. apply insert_union_r. by apply not_elem_of_list_to_map_1.
Qed.

Lemma coerce_entry_valid kv :
  ValidString kv.1 = true → Forall (λ s, ValidString s = true) kv.2 →
  coerce_entry kv = kv.
Proof.
  destruct kv as [k v]; simpl. intros Hk Hv. unfold coerce_entry; simpl.
  f_equal; [by apply ToValidUTF8_valid|].
  induction Hv as [|x v Hx Hv IH]; [done|].
  rewrite fmap_cons. f_equal; [by apply ToValidUTF8_valid|done].
Qed.

Lemma sorted_entries m :
  merge_sort key_le (map_to_list m) ≡ₚ map_to_list m.
Proof. apply merge_sort_Permutation. Qed.

Lemma Decode_object t c :
  Decode (String "{" t) c
  = match parse_value (2 * String.length (String "{" t) + 1) 0 (String "{" t) with
    | None => (c, Some (Failure "json: syntax error"))
    | Some (j, _) => unmarshal j c
    end.
Proof. reflexivity. Qed.

(** What [Decode] makes of what [Encode] wrote. *)
Lemma Decode_Encode m c :
  Decode (Encode m) c
  = (foldl store_entry c (coerce_entry <$> merge_sort key_le (map_to_list m)), None).
Proof.
  unfold Encode, Marshal.
  set (l := merge_sort key_le (map_to_list m)).
  change (("{" +:+ join "," (encode_entry <$> l) +:+ "}") +:+ newline)
    with (String "{" ((join "," (encode_entry <$> l) +:+ "}") +:+ newline)).
  rewrite Decode_object.
  change (String "{" ((join "," (encode_entry <$> l) +:+ "}") +:+ newline))
    with (("{" +:+ join "," (encode_entry <$> l) +:+ "}") +:+ newline).
  rewrite parse_value_object.
  - unfold unmarshal. by rewrite store_members_read_back.
  - done.
  - generalize ("{" +:+ join "," (encode_entry <$> l) +:+ "}"). intros text.
    rewrite append_length. lia.
Qed.

Lemma valid_cache_entry m kv :
  valid_cache m = true → kv ∈ map_to_list m →
  ValidString kv.1 = true ∧ Forall (λ s, ValidString s = true) kv.2.
Proof.
  unfold valid_cache. rewrite forallb_forall. intros Hm Hin%list_elem_of_In.
  apply Hm in Hin. apply andb_prop in Hin as [Hk Hv]. split; [done|].
  rewrite forallb_forall in Hv. apply Forall_forall. intros x Hx.
  apply Hv. by apply list_elem_of_In.
Qed.

Lemma Decode_Encode_valid m :
  valid_cache m = true → Decode (Encode m) ∅ = (m, None).
Proof.
  intros Hm. rewrite Decode_Encode. f_equal.
  pose proof (sorted_entries m) as Hperm.
  assert (coerce_entry <$> merge_sort key_le (map_to_list m)
          = merge_sort key_le (map_to_list m)) as ->.
  { apply list_eq_Forall2. apply Forall2_fmap_l, Forall_Forall2_diag.
    apply Forall_forall. intros kv Hin.
    rewrite Hperm in Hin.
    destruct (valid_cache_entry _ _ Hm Hin). by apply coerce_entry_valid. }
  rewrite foldl_store_entry.
  - rewrite (right_id_L ∅ (∪)).
    rewrite (list_to_map_proper _ (map_to_list m)); [apply list_to_map_to_list| |done].
    rewrite Hperm. apply NoDup_fst_map_to_list.
  - rewrite Hperm. apply NoDup_fst_map_to_list.
Qed.

(** *** The fuel of the parser

    [Decode] gives the parser fuel for twice the length of the text; the
    lemmas below show that no larger amount changes its answer. *)

Lemma skip_space_length s : String.length (skip_space s) ≤ String.length s.
Proof.
  induction s as [|c s IH]; simpl; [done|]. destruct (is_space c); simpl; lia.
Qed.

Lemma skip_space_cons s c rest :
  skip_space s = String c rest → String.length rest < String.length s.
Proof.
  intros H. pose proof (skip_space_length s) as Hl. rewrite H in Hl. simpl in Hl. lia.
Qed.

Lemma skip_digits_length s : String.length (skip_digits s) ≤ String.length s.
Proof.
  induction s as [|c s IH]; simpl; [done|]. destruct (is_digit c); simpl; lia.
Qed.

Lemma strip_prefix_length p : ∀ s r,
  strip_prefix p s = Some r → String.length r ≤ String.length s.
Proof.
  induction p as [|a p IH]; intros s r H; simpl in H.
  - by simplify_eq.
  - destruct s as [|b s]; [done|]. destruct (Ascii.eqb a b); [|done].
    apply IH in H. simpl. lia.
Qed.

Lemma scan_int_length s r :
  scan_int s = Some r → String.length r < String.length s.
Proof.
  unfold scan_int. destruct s as [|c s]; [done|].
  pose proof (skip_digits_length s).
  repeat case_match; intros; simplify_eq; simpl; lia.
Qed.

Lemma scan_frac_length s r :
  scan_frac s = Some r → String.length r ≤ String.length s.
Proof.
  unfold scan_frac. destruct s as [|c [|d s]]; repeat case_match; intros;
    simplify_eq; simpl; try lia.
  pose proof (skip_digits_length s). lia.
Qed.

Lemma scan_exp_length s r :
  scan_exp s = Some r → String.length r ≤ String.length s.
Proof.
  unfold scan_exp. destruct s as [|c s]; [by intros [= <-]|].
  destruct (Ascii.eqb c "e" || Ascii.eqb c "E"); [|by intros [= <-]].
  destruct s as [|g s]; [done|].
  destruct (Ascii.eqb g "+" || Ascii.eqb g "-").
  - destruct s as [|d s]; [done|]. destruct (is_digit d); [|done].
    intros [= <-]. pose proof (skip_digits_length s). simpl. lia.
  - destruct (is_digit g); [|done].
    intros [= <-]. pose proof (skip_digits_length s). simpl. lia.
Qed.

Lemma scan_number_length s r :
  scan_number s = Some r → String.length r < String.length s.
Proof.
  unfold scan_number. intros H.
  destruct (scan_int _) as [s2|] eqn:H2; [|done].
  destruct (scan_frac s2) as [s3|] eqn:H3; [|done].
  apply scan_int_length in H2. apply scan_frac_length in H3.
  apply scan_exp_length in H.
  destruct s as [|c s]; [simpl in *; lia|].
  destruct (Ascii.eqb c "-"); simpl in *; lia.
Qed.

Lemma push_Some c r v rest :
  push c r = Some (v, rest) → ∃ v', r = Some (v', rest).
Proof. destruct r as [[v' rest']|]; simpl; [|done]. intros [= <- <-]. eauto. Qed.

Lemma pushs_Some p r v rest :
  pushs p r = Some (v, rest) → ∃ v', r = Some (v', rest).
Proof. destruct r as [[v' rest']|]; simpl; [|done]. intros [= <- <-]. eauto. Qed.

(** A string literal takes at least its closing quote. *)
Lemma unquote_length n : ∀ s k v rest,
  String.length s ≤ n → unquote k s = Some (v, rest) →
  String.length rest < String.length s.
Proof.
  induction n as [|n IH]; intros s k v rest Hn H.
  { destruct s; [done|]. cbn [String.length] in Hn. lia. }
  destruct s as [|c s0]; [done|]. cbn [String.length] in *.
  assert (∀ t k' w, String.length t ≤ String.length s0 →
            unquote k' t = Some (w, rest) →
            String.length rest < S (String.length s0)) as Hrec.
  { intros t k' w Ht Hu. apply IH in Hu; lia. }
  assert (∀ t k' x, String.length t ≤ String.length s0 →
            push x (unquote k' t) = Some (v, rest) →
            String.length rest < S (String.length s0)) as Hpush.
  { intros t k' x Ht [w Hu]%push_Some. by eapply Hrec. }
  assert (∀ t k' x, String.length t ≤ String.length s0 →
            pushs x (unquote k' t) = Some (v, rest) →
            String.length rest < S (String.length s0)) as Hpushs.
  { intros t k' x Ht [w Hu]%pushs_Some. by eapply Hrec. }
  clear IH Hn.
  destruct k as [|k]; cbn [unquote] in H; [|by eapply Hpush].
  destruct (Ascii.eqb c dquote). { injection H as <- <-. lia. }
  destruct (Ascii.eqb c backslash).
  { destruct s0 as [|e rest1]; [done|].
    destruct (Ascii.eqb e "u").
    - destruct rest1 as [|h1 [|h2 [|h3 [|h4 rest2]]]]; try done.
      destruct (getu4 h1 h2 h3 h4) as [r|]; [|done].
      cbn [String.length] in *.
      destruct (is_surrogate r); [|eapply Hpushs; [|exact H]; lia].
      destruct rest2 as [|b [|u [|l1 [|l2 [|l3 [|l4 rest3]]]]]];
        try (eapply Hpushs; [|exact H]; cbn [String.length]; lia).
      destruct (if Ascii.eqb b backslash && Ascii.eqb u "u"
                then match getu4 l1 l2 l3 l4 with
                     | Some r2 => utf16_pair r r2
                     | None => None
                     end
                else None);
        (eapply Hpushs; [|exact H]; cbn [String.length]; lia).
    - destruct (simple_escape e); [|done].
      eapply Hpush; [|exact H]. cbn [String.length]. lia. }
  destruct (code c <? 32)%N; [done|].
  destruct (code c <? 128)%N; [by eapply Hpush|].
  destruct (rune_width (String c s0)); [by eapply Hpushs | by eapply Hpush].
Qed.

Lemma fmap_pair_Some {A} (x : A) (o : option string) j rest :
  (λ r, (x, r)) <$> o = Some (j, rest) → o = Some rest.
Proof. destruct o; simpl; [|done]. by intros [= <- <-]. Qed.

Lemma parse_value_step f d s :
  parse_value (S f) d s
  = match skip_space s with
    | EmptyString => None
    | String c rest =>
      if Ascii.eqb c dquote then
        match unquote 0 rest with
        | Some (v, rest') => Some (JString v, rest')
        | None => None
        end
      else if Ascii.eqb c "[" then
        if (maxNestingDepth <=? d)%N then None else
        match skip_space rest with
        | String c' rest' =>
          if Ascii.eqb c' "]" then Some (JArray [], rest')
          else
            match parse_elems f (d + 1) rest with
            | Some (l, rest'') => Some (JArray l, rest'')
            | None => None
            end
        | EmptyString => None
        end
      else if Ascii.eqb c "{" then
        if (maxNestingDepth <=? d)%N then None else
        match skip_space rest with
        | String c' rest' =>
          if Ascii.eqb c' "}" then Some (JObject [], rest')
          else
            match parse_members f (d + 1) rest with
            | Some (l, rest'') => Some (JObject l, rest'')
            | None => None
            end
        | EmptyString => None
        end
      else if Ascii.eqb c "t" then (λ r, (JTrue, r)) <$> strip_prefix "rue" rest
      else if Ascii.eqb c "f" then (λ r, (JFalse, r)) <$> strip_prefix "alse" rest
      else if Ascii.eqb c "n" then (λ r, (JNull, r)) <$> strip_prefix "ull" rest
      else (λ r, (JNumber, r)) <$> scan_number (String c rest)
    end.
Proof. reflexivity. Qed.

Lemma parse_members_unfold f d s :
  parse_members (S f) d s
  = match skip_space s with
    | String q rest0 =>
      if Ascii.eqb q dquote then
        match unquote 0 rest0 with
        | None => None
        | Some (k, rest1) =>
          match skip_space rest1 with
          | String c rest2 =>
            if Ascii.eqb c ":" then
              match parse_value f d rest2 with
              | None => None
              | Some (v, rest3) => members_tail f d (k, v) rest3
              end
            else None
          | EmptyString => None
          end
        end
      else None
    | EmptyString => None
    end.
Proof. reflexivity. Qed.

(** Every value takes at least one byte of the text. *)
Lemma parse_length f :
  (∀ d s j rest, parse_value f d s = Some (j, rest) →
     String.length rest < String.length s) ∧
  (∀ d s l rest, parse_elems f d s = Some (l, rest) →
     String.length rest < String.length s) ∧
  (∀ d s l rest, parse_members f d s = Some (l, rest) →
     String.length rest < String.length s).
Proof.
  induction f as [|g (IHv & IHe & IHm)]; [done|].
  split; [|split]; intros d s j rest H.
  - cbn [parse_value] in H.
    destruct (skip_space s) as [|c r0] eqn:Hs; [done|].
    apply skip_space_cons in Hs.
    destruct (Ascii.eqb c dquote).
    { destruct (unquote 0 r0) as [[v r']|] eqn:Hu; [|done].
      injection H as <- <-. apply (unquote_length _ _ _ _ _ (le_n _)) in Hu. lia. }
    destruct (Ascii.eqb c "[").
    { destruct (maxNestingDepth <=? d)%N; [done|].
      destruct (skip_space r0) as [|c' r'] eqn:Hs'; [done|].
      apply skip_space_cons in Hs'.
      destruct (Ascii.eqb c' "]"); [injection H as <- <-; lia|].
      destruct (parse_elems g (d + 1) r0) as [[l r'']|] eqn:He; [|done].
      injection H as <- <-. apply IHe in He. lia. }
    destruct (Ascii.eqb c "{").
    { destruct (maxNestingDepth <=? d)%N; [done|].
      destruct (skip_space r0) as [|c' r'] eqn:Hs'; [done|].
      apply skip_space_cons in Hs'.
      destruct (Ascii.eqb c' "}"); [injection H as <- <-; lia|].
      destruct (parse_members g (d + 1) r0) as [[l r'']|] eqn:He; [|done].
      injection H as <- <-. apply IHm in He. lia. }
    destruct (Ascii.eqb c "t").
    { apply fmap_pair_Some, strip_prefix_length in H. lia. }
    destruct (Ascii.eqb c "f").
    { apply fmap_pair_Some, strip_prefix_length in H. lia. }
    destruct (Ascii.eqb c "n").
    { apply fmap_pair_Some, strip_prefix_length in H. lia. }
    apply fmap_pair_Some, scan_number_length in H. cbn [String.length] in H. lia.
  - cbn [parse_elems] in H.
    destruct (parse_value g d s) as [[v r1]|] eqn:Hv; [|done]. apply IHv in Hv.
    destruct (skip_space r1) as [|c r2] eqn:Hs; [done|]. apply skip_space_cons in Hs.
    destruct (Ascii.eqb c ",").
    { destruct (parse_elems g d r2) as [[l r3]|] eqn:He; [|done].
      injection H as <- <-. apply IHe in He. lia. }
    destruct (Ascii.eqb c "]"); [|done]. injection H as <- <-. lia.
  - cbn [parse_members] in H.
    destruct (skip_space s) as [|q r0] eqn:Hs; [done|]. apply skip_space_cons in Hs.
    destruct (Ascii.eqb q dquote); [|done].
    destruct (unquote 0 r0) as [[k r1]|] eqn:Hu; [|done].
    apply (unquote_length _ _ _ _ _ (le_n _)) in Hu.
    destruct (skip_space r1) as [|c r2] eqn:Hs1; [done|]. apply skip_space_cons in Hs1.
    destruct (Ascii.eqb c ":"); [|done].
    destruct (parse_value g d r2) as [[v r3]|] eqn:Hv; [|done]. apply IHv in Hv.
    destruct (skip_space r3) as [|c' r4] eqn:Hs3; [done|]. apply skip_space_cons in Hs3.
    destruct (Ascii.eqb c' ",").
    { destruct (parse_members g d r4) as [[l r5]|] eqn:Hm; [|done].
      injection H as <- <-. apply IHm in Hm. lia. }
    destruct (Ascii.eqb c' "}"); [|done]. injection H as <- <-. lia.
Qed.

(** With fuel for twice the length of the text, more fuel changes
    nothing: the parser never stops for lack of it. *)
Lemma parse_fuel_step f :
  (∀ d s, 2 * String.length s + 1 ≤ f → parse_value (S f) d s = parse_value f d s) ∧
  (∀ d s, 2 * String.length s + 2 ≤ f → parse_elems (S f) d s = parse_elems f d s) ∧
  (∀ d s, 2 * String.length s + 2 ≤ f → parse_members (S f) d s = parse_members f d s).
Proof.
  induction f as [|g (IHv & IHe & IHm)].
  { split; [|split]; intros; lia. }
  destruct (parse_length g) as (Lv & Le & Lm).
  split; [|split]; intros d s Hf.
  - rewrite !parse_value_step.
    destruct (skip_space s) as [|c r0] eqn:Hs; [done|].
    apply skip_space_cons in Hs.
    by rewrite IHe, IHm by lia.
  - rewrite !parse_elems_step. rewrite IHv by lia.
    destruct (parse_value g d s) as [[v r1]|] eqn:Hv; [|done]. apply Lv in Hv.
    destruct (skip_space r1) as [|c r2] eqn:Hs; [done|]. apply skip_space_cons in Hs.
    by rewrite IHe by lia.
  - rewrite !parse_members_unfold.
    destruct (skip_space s) as [|q r0] eqn:Hs; [done|]. apply skip_space_cons in Hs.
    destruct (Ascii.eqb q dquote); [|done].
    destruct (unquote 0 r0) as [[k r1]|] eqn:Hu; [|done].
    apply (unquote_length _ _ _ _ _ (le_n _)) in Hu.
    destruct (skip_space r1) as [|c r2] eqn:Hs1; [done|]. apply skip_space_cons in Hs1.
    destruct (Ascii.eqb c ":"); [|done].
    rewrite IHv by lia.
    destruct (parse_value g d r2) as [[v r3]|] eqn:Hv; [|done]. apply Lv in Hv.
    unfold members_tail.
    destruct (skip_space r3) as [|c' r4] eqn:Hs3; [done|]. apply skip_space_cons in Hs3.
    by rewrite IHm by lia.
Qed.

Lemma parse_value_fuel d s f :
  2 * String.length s + 1 ≤ f →
  parse_value f d s = parse_value (2 * String.length s + 1) d s.
Proof.
  intros Hf. induction Hf as [|f Hf IH]; [done|].
  rewrite <- IH. by apply parse_fuel_step.
Qed.

(** *** openCache and saveCache *)

Lemma os_Open_created d path d1 :
  os_Create d path = Ok d1 →
  refused d1 = refused d ∧ room d1 = room d ∧
  files d1 = <[path := EmptyString]> (files d) ∧ refused d path = false.
Proof.
  unfold os_Create. destruct (refused d path) eqn:Hr; [done|].
  by intros [= <-].
Qed.

Lemma overwrite_empty b : overwrite b EmptyString = b.
Proof.
  unfold overwrite.
  assert (∀ n m, String.substring n m EmptyString = EmptyString) as ->
    by (by intros [] []).
  induction b as [|x b IH]; [done|]. rewrite append_cons. by f_equal.
Qed.

(** What [saveCache] leaves at [path] once the file could be created: what
    was written of the new text, and nothing of the old contents. *)
Lemma saveCache_created d path cache :
  refused d path = false →
  saveCache d path cache
  = match room d with
    | Some n =>
      if decide (n < String.length (Encode cache)) then
        (Disk (<[path := String.substring 0 n (Encode cache)]> (files d))
              (refused d) (Some 0),
         Some (Wrapped (Failure "write: no space left on device")
                       "could not encode cache"))
      else
        (Disk (<[path := Encode cache]> (files d)) (refused d)
              (Some (n - String.length (Encode cache))), None)
    | None => (Disk (<[path := Encode cache]> (files d)) (refused d) None, None)
    end.
Proof.
  intros Hr. unfold saveCache, os_Create. rewrite Hr.
  unfold Write. cbn [files refused room]. rewrite lookup_insert_eq.
  unfold default, from_option, id.
  destruct (room d) as [n|]; [case_decide|];
    by rewrite overwrite_empty, insert_insert_eq.
Qed.


(** C8, as the code has it.  When [saveCache] reports no error for a cache
    whose ids are all valid UTF-8, [openCache] on the same path gives back
    that cache, and no error. *)
Theorem saveCache_openCache d path m :
  valid_cache m = true → (saveCache d path m).2 = None →
  openCache (saveCache d path m).1 path = (m, None).
Proof.
  intros Hm Hsave.
  destruct (refused d path) eqn:Hr.
  { unfold saveCache, os_Create in Hsave. by rewrite Hr in Hsave. }
  rewrite (saveCache_created _ _ _ Hr) in *.
  assert (∀ r, openCache (Disk (<[path := Encode m]> (files d)) (refused d) r) path
               = (m, None)) as Hread.
  { intros r. unfold openCache, os_Open; simpl. rewrite Hr, lookup_insert_eq.
    by rewrite Decode_Encode_valid. }
  destruct (room d) as [n|]; [|apply Hread].
  case_decide; [done|apply Hread].
Qed.

(** C10. [saveCache] empties the file before it writes: when the write
    fails for lack of room, the file holds the part of the new text that
    was written, whatever it held before, and [saveCache] reports the
    error; nothing of the old contents is left or put back. *)
Theorem saveCache_not_atomic d path cache n :
  refused d path = false → room d = Some n →
  n < String.length (Encode cache) →
  is_Some (saveCache d path cache).2 ∧
  files (saveCache d path cache).1 !! path
  = Some (String.substring 0 n (Encode cache)).
Proof.
  intros Hr Hroom Hn. rewrite (saveCache_created _ _ _ Hr), Hroom.
  rewrite decide_True by done. simpl. split; [eauto|].
  by rewrite lookup_insert_eq.
Qed.

(** ** More on the cache file

    *** What is read is valid UTF-8 *)

Lemma code_chr n : (n < 256)%N → code (chr n) = n.
Proof. intros H. unfold code, chr. by apply N_ascii_embedding. Qed.

Lemma between_spec lo hi c :
  between lo hi c = true ↔ (lo ≤ code c ∧ code c ≤ hi)%N.
Proof. unfold between. rewrite andb_true_iff, !N.leb_le. done. Qed.

Lemma between_chr lo hi n :
  (n < 256)%N → between lo hi (chr n) = bool_decide (lo ≤ n ∧ n ≤ hi)%N.
Proof.
  intros Hn. case_bool_decide as H.
  - apply between_spec. by rewrite code_chr.
  - apply not_true_is_false. rewrite between_spec, code_chr by done. done.
Qed.

Lemma valid_replacement v : valid_from 0 (replacement +:+ v) = valid_from 0 v.
Proof. reflexivity. Qed.

Ltac nlia := zify; Z.to_euclidean_division_equations; lia.

Lemma valid_EncodeRune r v : valid_from 0 (EncodeRune r +:+ v) = valid_from 0 v.
Proof.
  unfold EncodeRune.
  destruct (N.ltb_spec r 128) as [H1|H1].
  { rewrite append_cons. cbn [valid_from rune_width]. rewrite code_chr by lia.
    destruct (N.ltb_spec r 128); [done|lia]. }
  destruct (N.ltb_spec r 2048) as [H2|H2].
  { rewrite !append_cons. cbn [valid_from rune_width].
    rewrite (code_chr (192 + r / 64)) by nlia.
    destruct (N.ltb_spec (192 + r / 64) 128); [nlia|].
    rewrite between_chr by nlia. rewrite bool_decide_true by nlia.
    unfold is_cont. rewrite between_chr by nlia. rewrite bool_decide_true by nlia.
    done. }
  destruct ((55296 <=? r) && (r <? 57344) || (1114111 <? r))%N eqn:Hbad; [done|].
  apply orb_false_elim in Hbad as [Hsur Hmax]. apply N.ltb_ge in Hmax.
  assert (r < 55296 ∨ 57344 ≤ r)%N as Hsur'.
  { apply andb_false_elim in Hsur as [H%N.leb_gt|H%N.ltb_ge]; lia. }
  destruct (N.ltb_spec r 65536) as [H3|H3].
  { rewrite !append_cons. cbn [valid_from rune_width].
    rewrite (code_chr (224 + r / 4096)) by nlia.
    destruct (N.ltb_spec (224 + r / 4096) 128); [nlia|].
    rewrite (between_chr 194 223) by nlia. rewrite bool_decide_false by nlia.
    rewrite (between_chr 224 239) by nlia. rewrite bool_decide_true by nlia.
    unfold is_cont. rewrite (between_chr 128 191 (128 + r mod 64)) by nlia.
    rewrite (bool_decide_true (128 ≤ 128 + r mod 64 ∧ _)%N) by nlia.
    rewrite andb_true_r.
    destruct (N.eqb_spec (224 + r / 4096) 224) as [E1|E1];
      destruct (N.eqb_spec (224 + r / 4096) 237) as [E2|E2]; try nlia;
      rewrite between_chr by nlia; rewrite bool_decide_true by nlia; done. }
  rewrite !append_cons. cbn [valid_from rune_width].
  rewrite (code_chr (240 + r / 262144)) by nlia.
  destruct (N.ltb_spec (240 + r / 262144) 128); [nlia|].
  rewrite (between_chr 194 223) by nlia. rewrite bool_decide_false by nlia.
  rewrite (between_chr 224 239) by nlia. rewrite bool_decide_false by nlia.
  rewrite (between_chr 240 244) by nlia. rewrite bool_decide_true by nlia.
  unfold is_cont. rewrite (between_chr 128 191 (128 + r mod 64)) by nlia.
  rewrite (bool_decide_true (128 ≤ 128 + r mod 64 ∧ _)%N) by nlia.
  rewrite (between_chr 128 191 (128 + (r / 64) mod 64)) by nlia.
  rewrite (bool_decide_true (128 ≤ 128 + (r / 64) mod 64 ∧ _)%N) by nlia.
  rewrite !andb_true_r.
  destruct (N.eqb_spec (240 + r / 262144) 240) as [E1|E1];
    destruct (N.eqb_spec (240 + r / 262144) 244) as [E2|E2]; try nlia;
    rewrite between_chr by nlia; rewrite bool_decide_true by nlia; done.
Qed.

Lemma simple_escape_ascii e x : simple_escape e = Some x → (code x <? 128)%N = true.
Proof.
  unfold simple_escape. intros H.
  repeat (case_match; simplify_eq); try done.
  repeat match goal with
         | H : _ || _ = true |- _ => apply orb_prop in H as [H|H]
         | H : Ascii.eqb _ _ = true |- _ => apply Ascii.eqb_eq in H; subst
         end; done.
Qed.

(** The width of an encoding is the same over the bytes that [unquote]
    copies. *)
Lemma rune_width_unquote c s k v rest :
  (code c <? 128)%N = false →
  rune_width (String c s) = S k → unquote k s = Some (v, rest) →
  rune_width (String c v) = S k.
Proof.
  unfold rune_width. intros Hc Hw Hu. rewrite Hc in *.
  destruct (between 194 223 c).
  { destruct s as [|c1 s]; [done|]. destruct (is_cont c1) eqn:H1; simplify_eq.
    cbn [unquote] in Hu. apply push_Some in Hu as Hv. destruct Hv as [v' Hv].
    rewrite Hv in Hu. simpl in Hu. simplify_eq. by rewrite H1. }
  destruct (between 224 239 c).
  { destruct s as [|c1 [|c2 s]]; try done.
    destruct (between _ _ c1 && is_cont c2) eqn:H1; simplify_eq.
    cbn [unquote] in Hu.
    destruct (unquote 0 s) as [[v' r']|]; simpl in Hu; simplify_eq. by rewrite H1. }
  destruct (between 240 244 c); [|done].
  destruct s as [|c1 [|c2 [|c3 s]]]; try done.
  destruct (between _ _ c1 && is_cont c2 && is_cont c3) eqn:H1; simplify_eq.
  cbn [unquote] in Hu.
  destruct (unquote 0 s) as [[v' r']|]; simpl in Hu; simplify_eq. by rewrite H1.
Qed.

(** The string of a literal is valid UTF-8. *)
Lemma unquote_valid n : ∀ s k v rest,
  String.length s ≤ n → unquote k s = Some (v, rest) → valid_from k v = true.
Proof.
  induction n as [|n IH]; intros s k v rest Hn H.
  { destruct s; [done|]. cbn [String.length] in Hn. lia. }
  destruct s as [|c s0]; [done|]. cbn [String.length] in *.
  assert (∀ t p, String.length t ≤ String.length s0 →
            (∀ w, valid_from 0 (p +:+ w) = valid_from 0 w) →
            pushs p (unquote 0 t) = Some (v, rest) → valid_from 0 v = true) as Hpushs.
  { intros t p Ht Hp Hu. destruct (unquote 0 t) as [[w r]|] eqn:Hw; [|done].
    simpl in Hu. simplify_eq. rewrite Hp. eapply IH; [|exact Hw]. lia. }
  assert (∀ t x, String.length t ≤ String.length s0 → (code x <? 128)%N = true →
            push x (unquote 0 t) = Some (v, rest) → valid_from 0 v = true) as Hpush.
  { intros t x Ht Hx Hu. destruct (unquote 0 t) as [[w r]|] eqn:Hw; [|done].
    simpl in Hu. simplify_eq. cbn [valid_from rune_width]. rewrite Hx.
    eapply IH; [|exact Hw]. lia. }
  destruct k as [|k]; cbn [unquote] in H.
  2:{ destruct (unquote k s0) as [[w r]|] eqn:Hw; [|done]. simpl in H. simplify_eq.
      cbn [valid_from]. eapply IH; [|exact Hw]. lia. }
  destruct (Ascii.eqb c dquote). { by injection H as <- <-. }
  destruct (Ascii.eqb c backslash).
  { destruct s0 as [|e rest1]; [done|].
    destruct (Ascii.eqb e "u").
    - destruct rest1 as [|h1 [|h2 [|h3 [|h4 rest2]]]]; try done.
      destruct (getu4 h1 h2 h3 h4) as [r|]; [|done].
      cbn [String.length] in *.
      destruct (is_surrogate r);
        [|eapply Hpushs; [|apply valid_EncodeRune|exact H]; lia].
      destruct rest2 as [|b [|u [|l1 [|l2 [|l3 [|l4 rest3]]]]]];
        try (eapply Hpushs; [|apply valid_replacement|exact H];
             cbn [String.length]; lia).
      destruct (if Ascii.eqb b backslash && Ascii.eqb u "u"
                then match getu4 l1 l2 l3 l4 with
                     | Some r2 => utf16_pair r r2
                     | None => None
                     end
                else None).
      + eapply Hpushs; [|apply valid_EncodeRune|exact H]; cbn [String.length]; lia.
      + eapply Hpushs; [|apply valid_replacement|exact H]; cbn [String.length]; lia.
    - destruct (simple_escape e) as [x|] eqn:He; [|done].
      eapply Hpush; [|by eapply simple_escape_ascii|exact H]. cbn [String.length]. lia. }
  destruct (code c <? 32)%N; [done|].
  destruct (code c <? 128)%N eqn:Hc; [by eapply Hpush|].
  destruct (rune_width (String c s0)) as [|m] eqn:Hw.
  { eapply Hpushs; [|apply valid_replacement|exact H]; lia. }
  destruct (unquote m s0) as [[w r]|] eqn:Hu; [|done]. simpl in H. simplify_eq.
  cbn [valid_from]. rewrite (rune_width_unquote _ _ _ _ _ Hc Hw Hu).
  eapply IH; [|exact Hu]. lia.
Qed.

(** Every string of a value that was read is valid UTF-8. *)
Lemma parse_valid f :
  (∀ d s j rest, parse_value f d s = Some (j, rest) → valid_json j = true) ∧
  (∀ d s l rest, parse_elems f d s = Some (l, rest) → forallb valid_json l = true) ∧
  (∀ d s l rest, parse_members f d s = Some (l, rest) →
     forallb (λ kv, ValidString kv.1 && valid_json kv.2) l = true).
Proof.
  induction f as [|g (IHv & IHe & IHm)]; [done|].
  split; [|split]; intros d s j rest H.
  - cbn [parse_value] in H.
    destruct (skip_space s) as [|c r0] eqn:Hs; [done|].
    destruct (Ascii.eqb c dquote).
    { destruct (unquote 0 r0) as [[v r']|] eqn:Hu; [|done].
      injection H as <- <-. simpl. by eapply unquote_valid. }
    destruct (Ascii.eqb c "[").
    { destruct (maxNestingDepth <=? d)%N; [done|].
      destruct (skip_space r0) as [|c' r'] eqn:Hs'; [done|].
      destruct (Ascii.eqb c' "]"); [by injection H as <- <-|].
      destruct (parse_elems g (d + 1) r0) as [[l r'']|] eqn:He; [|done].
      injection H as <- <-. apply IHe in He. done. }
    destruct (Ascii.eqb c "{").
    { destruct (maxNestingDepth <=? d)%N; [done|].
      destruct (skip_space r0) as [|c' r'] eqn:Hs'; [done|].
      destruct (Ascii.eqb c' "}"); [by injection H as <- <-|].
      destruct (parse_members g (d + 1) r0) as [[l r'']|] eqn:He; [|done].
      injection H as <- <-. apply IHm in He. done. }
    destruct (Ascii.eqb c "t").
    { destruct (strip_prefix "rue" r0); by simplify_eq/=. }
    destruct (Ascii.eqb c "f").
    { destruct (strip_prefix "alse" r0); by simplify_eq/=. }
    destruct (Ascii.eqb c "n").
    { destruct (strip_prefix "ull" r0); by simplify_eq/=. }
    destruct (scan_number (String c r0)); by simplify_eq/=.
  - cbn [parse_elems] in H.
    destruct (parse_value g d s) as [[v r1]|] eqn:Hv; [|done]. apply IHv in Hv.
    destruct (skip_space r1) as [|c r2] eqn:Hs; [done|].
    destruct (Ascii.eqb c ",").
    { destruct (parse_elems g d r2) as [[l r3]|] eqn:He; [|done].
      injection H as <- <-. apply IHe in He. cbn [forallb]. by rewrite Hv, He. }
    destruct (Ascii.eqb c "]"); [|done]. injection H as <- <-. cbn [forallb]. by rewrite Hv.
  - cbn [parse_members] in H.
    destruct (skip_space s) as [|q r0] eqn:Hs; [done|].
    destruct (Ascii.eqb q dquote); [|done].
    destruct (unquote 0 r0) as [[k r1]|] eqn:Hu; [|done].
    apply (unquote_valid _ _ _ _ _ (le_n _)) in Hu.
    destruct (skip_space r1) as [|c r2] eqn:Hs1; [done|].
    destruct (Ascii.eqb c ":"); [|done].
    destruct (parse_value g d r2) as [[v r3]|] eqn:Hv; [|done]. apply IHv in Hv.
    destruct (skip_space r3) as [|c' r4] eqn:Hs3; [done|].
    destruct (Ascii.eqb c' ",").
    { destruct (parse_members g d r4) as [[l r5]|] eqn:Hm; [|done].
      injection H as <- <-. apply IHm in Hm. cbn [forallb fst snd].
      rewrite Hm, Hv. unfold ValidString. by rewrite Hu. }
    destruct (Ascii.eqb c' "}"); [|done]. injection H as <- <-. cbn [forallb fst snd].
    rewrite Hv. unfold ValidString. by rewrite Hu.
Qed.

Lemma valid_cache_spec m :
  valid_cache m = true ↔
  ∀ k v, m !! k = Some v →
    ValidString k = true ∧ Forall (λ s, ValidString s = true) v.
Proof.
  unfold valid_cache. rewrite forallb_forall. split.
  - intros H k v Hk. apply elem_of_map_to_list, list_elem_of_In, H in Hk.
    apply andb_prop in Hk as [? Hv]. split; [done|].
    rewrite forallb_forall in Hv. apply Forall_forall. intros x Hx.
    apply Hv. by apply list_elem_of_In.
  - intros H [k v] Hk%list_elem_of_In%elem_of_map_to_list.
    destruct (H k v Hk) as [Hk' Hv]. simpl. rewrite Hk'. simpl.
    apply forallb_forall. intros x Hx%list_elem_of_In.
    rewrite Forall_forall in Hv. by apply Hv.
Qed.

Lemma store_slice_valid j :
  valid_json j = true → Forall (λ s, ValidString s = true) (store_slice j).1.
Proof.
  destruct j as [| | | |v|l|ms]; simpl; try done.
  intros Hl. apply Forall_fmap, Forall_forall. intros x Hx%list_elem_of_In.
  rewrite forallb_forall in Hl. specialize (Hl x Hx).
  by destruct x.
Qed.

Lemma store_members_valid ms : ∀ c,
  forallb (λ kv, ValidString kv.1 && valid_json kv.2) ms = true →
  valid_cache c = true → valid_cache (store_members ms c).1 = true.
Proof.
  induction ms as [|[k v] ms IH]; intros c Hms Hc; [done|].
  simpl in *. apply andb_prop in Hms as [[Hk Hv]%andb_prop Hms].
  specialize (IH (<[k := (store_slice v).1]> c) Hms).
  destruct (store_members ms (<[k := (store_slice v).1]> c)) as [c' ok]. simpl in *.
  apply IH. apply valid_cache_spec. intros k' v'.
  destruct (decide (k' = k)) as [->|Hne].
  - rewrite lookup_insert_eq. intros [= <-]. split; [done|]. by apply store_slice_valid.
  - rewrite lookup_insert_ne by done. by apply valid_cache_spec.
Qed.

Lemma Decode_valid data : valid_cache (Decode data ∅).1 = true.
Proof.
  unfold Decode. destruct (skip_space data); [done|].
  destruct (parse_value (2 * String.length data + 1) 0 data) as [[j rest]|] eqn:Hp; [|done].
  apply (parse_valid _) in Hp.
  destruct j as [| | | |v|l|ms]; try done.
  unfold unmarshal. pose proof (store_members_valid ms ∅ Hp eq_refl) as Hs.
  by destruct (store_members ms ∅).
Qed.

Lemma reopen d path m :
  valid_cache m = true → (saveCache d path m).2 = None →
  openCache (saveCache d path m).1 path = (m, None).
Proof.
  intros Hm Hsave.
  destruct (refused d path) eqn:Hr.
  { unfold saveCache, os_Create in Hsave. by rewrite Hr in Hsave. }
  rewrite (saveCache_created _ _ _ Hr) in *.
  assert (∀ r, openCache (Disk (<[path := Encode m]> (files d)) (refused d) r) path
               = (m, None)) as Hread.
  { intros r. unfold openCache, os_Open; simpl. rewrite Hr, lookup_insert_eq.
    by rewrite Decode_Encode_valid. }
  destruct (room d) as [n|]; [|apply Hread].
  case_decide; [done|apply Hread].
Qed.

(** X16. Whatever bytes the cache file holds, the ids that [openCache] returns
    are valid UTF-8; so a cache that was read from a file and is saved without
    an error is read back as it is. *)
Theorem loaded_cache_is_stable d path d' path' :
  valid_cache (openCache d path).1 = true ∧
  ((saveCache d' path' (openCache d path).1).2 = None →
   openCache (saveCache d' path' (openCache d path).1).1 path'
   = ((openCache d path).1, None)).
Proof.
  assert (valid_cache (openCache d path).1 = true) as Hvalid.
  { unfold openCache. destruct (os_Open d path) as [data|]; [|done].
    pose proof (Decode_valid data) as Hd. by destruct (Decode data ∅). }
  split; [done|]. by apply reopen.
Qed.

(** *** What saveCache changes *)

(** X17. [saveCache] changes no file but the one at [path]: when that file
    cannot be created nothing changes at all and the error says so; when
    [saveCache] returns no error the file holds the text of the cache and
    nothing of what it held before. *)
Theorem saveCache_changes_one_file d path cache :
  refused (saveCache d path cache).1 = refused d ∧
  (∀ q, q ≠ path → files (saveCache d path cache).1 !! q = files d !! q) ∧
  (refused d path = true →
   saveCache d path cache
   = (d, Some (Wrapped (Failure "open: permission denied")
                       "could not create cache file"))) ∧
  (refused d path = false →
   is_Some (files (saveCache d path cache).1 !! path) ∧
   ((saveCache d path cache).2 = None →
    files (saveCache d path cache).1 !! path = Some (Encode cache))).
Proof.
  destruct (refused d path) eqn:Hr.
  - unfold saveCache, os_Create. rewrite Hr. simpl. done.
  - rewrite (saveCache_created _ _ _ Hr).
    destruct (room d) as [n|]; [case_decide|]; simpl;
      (split; [done|]); (split; [by intros q Hq; rewrite lookup_insert_ne|]);
      (split; [done|]); intros _; rewrite lookup_insert_eq; (split; [eauto|done]).
Qed.

(** ** The path of the cache file *)

Lemma append_nil_r (s : string) : s +:+ EmptyString = s.
Proof. induction s as [|c s IH]; [done|]. rewrite append_cons. by f_equal. Qed.

Lemma element_plain e rest :
  no_slash e = true → at_end rest = true → element (e +:+ rest) = (e, rest).
Proof.
  intros He Hrest. induction e as [|c e IH].
  - change (EmptyString +:+ rest) with rest. destruct rest as [|c rest]; [done|].
    simpl in *. by rewrite Hrest.
  - rewrite append_cons. simpl in *. apply andb_prop in He as [Hc He].
    destruct (Ascii.eqb c "/"); [done|]. by rewrite IH.
Qed.

Lemma at_end_append e rest :
  no_slash e = true → at_end rest = true → at_end (e +:+ rest) = true → e = EmptyString.
Proof.
  intros He Hrest Hend. destruct e as [|c e]; [done|].
  rewrite append_cons in Hend. simpl in *. by rewrite Hend in He.
Qed.

(** One turn of the loop on a plain element. *)
Lemma clean_from_plain n rooted e rest out dotdot :
  plain e = true → at_end rest = true →
  clean_from (S n) rooted (e +:+ rest) out dotdot
  = clean_from n rooted rest
      ((if rooted && negb (String.length out =? 1)
           || negb rooted && negb (String.length out =? 0)
        then out +:+ "/" else out) +:+ e) dotdot.
Proof.
  unfold plain. intros He Hrest.
  apply andb_prop in He as [He Hdd]. apply andb_prop in He as [He Hd].
  apply andb_prop in He as [Hslash Hne].
  destruct e as [|c e]; [done|]. clear Hne.
  pose proof (element_plain (String c e) rest Hslash Hrest) as Hel.
  rewrite append_cons in *. cbn [clean_from]. rewrite Hel.
  simpl in Hslash. apply andb_prop in Hslash as [Hc Hslash].
  destruct (Ascii.eqb c "/") eqn:Hc'; [done|]. clear Hc.
  destruct (Ascii.eqb c ".") eqn:Hdot; [|done].
  apply Ascii.eqb_eq in Hdot as ->. simpl.
  destruct (at_end (e +:+ rest)) eqn:Hend.
  { rewrite (at_end_append e rest Hslash Hrest Hend) in Hd. done. }
  destruct e as [|c1 e]; [change (at_end rest = false) in Hend; congruence|].
  rewrite append_cons. simpl in Hslash. apply andb_prop in Hslash as [Hc1 Hslash].
  destruct (Ascii.eqb c1 ".") eqn:Hdot1; [|done].
  apply Ascii.eqb_eq in Hdot1 as ->. simpl.
  destruct (at_end (e +:+ rest)) eqn:Hend'; [|done].
  rewrite (at_end_append e rest Hslash Hrest Hend') in Hdd. done.
Qed.

Lemma join_cons sep x y l : join sep (x :: y :: l) = x +:+ sep +:+ join sep (y :: l).
Proof. reflexivity. Qed.

Lemma plain_length e : plain e = true → 1 ≤ String.length e.
Proof. destruct e; [done|simpl; lia]. Qed.

(** The loop on a rooted path of plain elements. *)
Lemma clean_from_plains comps : ∀ e n out,
  Forall (λ e, plain e = true) (e :: comps) →
  String.length (join "/" (e :: comps)) ≤ n →
  clean_from n true (join "/" (e :: comps)) out 1
  = (if String.length out =? 1 then out else out +:+ "/") +:+ join "/" (e :: comps).
Proof.
  induction comps as [|e' comps IH]; intros e n out Hall Hn.
  - apply Forall_cons in Hall as [He _]. simpl in *.
    pose proof (plain_length e He).
    destruct n as [|n]; [lia|].
    rewrite <- (append_nil_r e) at 1. rewrite clean_from_plain by done.
    destruct n; simpl; by destruct (String.length out =? 1).
  - apply Forall_cons in Hall as [He Hall]. rewrite join_cons in *.
    pose proof (plain_length e He).
    rewrite append_length in Hn. change (String.length "/") with 1 in Hn.
    change ("/" +:+ join "/" (e' :: comps)) with (String "/" (join "/" (e' :: comps))) in *.
    cbn [String.length] in Hn.
    destruct n as [|n]; [lia|].
    destruct n as [|n]; [lia|].
    rewrite clean_from_plain by done.
    change (clean_from (S n) true (String "/" ?r) ?o 1) with (clean_from n true r o 1).
    rewrite IH; [|done|lia].
    destruct (String.length out =? 1) eqn:Hout; cbn [andb orb negb].
    + rewrite append_length.
      destruct (String.length out + String.length e =? 1) eqn:Hl;
        [apply Nat.eqb_eq in Hl; apply Nat.eqb_eq in Hout; lia|].
      by rewrite !append_assoc.
    + rewrite !append_length. change (String.length "/") with 1.
      destruct (String.length out + 1 + String.length e =? 1) eqn:Hl;
        [apply Nat.eqb_eq in Hl; lia|].
      by rewrite !append_assoc.
Qed.

Lemma join_app_cons sep l : ∀ x y l',
  join sep ((x :: l) ++ y :: l') = join sep (x :: l) +:+ sep +:+ join sep (y :: l').
Proof.
  induction l as [|z l IH]; intros x y l'; [done|].
  change ((x :: z :: l) ++ y :: l') with (x :: ((z :: l) ++ y :: l')).
  change ((z :: l) ++ y :: l') with (z :: (l ++ y :: l')).
  rewrite join_cons. change (z :: l ++ y :: l') with ((z :: l) ++ y :: l').
  rewrite IH, join_cons. by rewrite !append_assoc.
Qed.

Lemma Clean_plains e comps :
  Forall (λ e, plain e = true) (e :: comps) →
  Clean ("/" +:+ join "/" (e :: comps)) = "/" +:+ join "/" (e :: comps).
Proof.
  intros Hall. change ("/" +:+ ?s) with (String "/" s). unfold Clean.
  change (Ascii.eqb "/" "/") with true. cbv iota.
  rewrite clean_from_plains; [|done|cbn [String.length]; lia].
  done.
Qed.

(** X19. The cache file is [.kube/cache/org-kubectl.json] under the directory
    that HOME names, when HOME is a rooted path of plain elements; with HOME
    empty or not set, it is that path relative to the directory the process
    runs in. *)
Theorem cachePath_under_HOME os :
  (HOME os = EmptyString → cachePath os = ".kube/cache/org-kubectl.json") ∧
  (∀ comps, Forall (λ e, plain e = true) comps →
     HOME os = "/" +:+ join "/" comps →
     cachePath os = "/" +:+ join "/" (comps ++ [".kube"; "cache"; "org-kubectl.json"])).
Proof.
  unfold cachePath. split.
  - intros ->. vm_compute. reflexivity.
  - intros comps Hall ->. unfold path_Join.
    change (String "/" ?s) with ("/" +:+ s).
    rewrite decide_False by done.
    assert (Forall (λ e, plain e = true) [".kube"; "cache"; "org-kubectl.json"]) as Htail
      by (repeat constructor).
    destruct comps as [|e comps].
    + vm_compute. reflexivity.
    + rewrite (join_cons "/" ("/" +:+ join "/" (e :: comps))), append_assoc.
      rewrite <- join_app_cons.
      destruct ((e :: comps) ++ [".kube"; "cache"; "org-kubectl.json"]) as [|x l] eqn:Hl;
        [done|].
      apply Clean_plains. rewrite <- Hl. by apply Forall_app.
Qed.

(** ** A cache file cut short

    *** Text after a value does not change how the value is read *)

Lemma skip_space_app s c r t :
  skip_space s = String c r → skip_space (s +:+ t) = String c (r +:+ t).
Proof.
  induction s as [|x s IH]; [done|]. rewrite append_cons. cbn [skip_space].
  destruct (is_space x); [done|]. by intros [= <- <-].
Qed.

Lemma strip_prefix_app p : ∀ s r t,
  strip_prefix p s = Some r → strip_prefix p (s +:+ t) = Some (r +:+ t).
Proof.
  induction p as [|a p IH]; intros s r t; simpl.
  { by intros [= <-]. }
  destruct s as [|b s]; [done|]. rewrite append_cons.
  destruct (Ascii.eqb a b); [apply IH|done].
Qed.

Lemma skip_digits_app s c r t :
  skip_digits s = String c r → skip_digits (s +:+ t) = String c (r +:+ t).
Proof.
  induction s as [|x s IH]; [done|]. rewrite append_cons. cbn [skip_digits].
  destruct (is_digit x); [done|]. by intros [= <- <-].
Qed.

Lemma scan_int_app s c r t :
  scan_int s = Some (String c r) → scan_int (s +:+ t) = Some (String c (r +:+ t)).
Proof.
  destruct s as [|x rest]; [done|]. rewrite append_cons. cbn [scan_int].
  destruct (Ascii.eqb x "0"); [by intros [= ->]|].
  destruct (between 49 57 x); [|done].
  intros [= H]. by rewrite (skip_digits_app _ _ _ t H).
Qed.

Lemma scan_frac_app s c r t :
  scan_frac s = Some (String c r) → scan_frac (s +:+ t) = Some (String c (r +:+ t)).
Proof.
  destruct s as [|x rest]; [done|]. rewrite append_cons. cbn [scan_frac].
  destruct (Ascii.eqb x "."); [|by intros [= <- <-]].
  destruct rest as [|d rest']; [done|]. rewrite append_cons.
  destruct (is_digit d); [|done].
  intros [= H]. by rewrite (skip_digits_app _ _ _ t H).
Qed.

Lemma scan_exp_app s c r t :
  scan_exp s = Some (String c r) → scan_exp (s +:+ t) = Some (String c (r +:+ t)).
Proof.
  destruct s as [|x rest]; [done|]. rewrite append_cons. cbn [scan_exp].
  destruct (Ascii.eqb x "e" || Ascii.eqb x "E"); [|by intros [= <- <-]].
  destruct rest as [|g r0]; [done|]. rewrite append_cons.
  destruct (Ascii.eqb g "+" || Ascii.eqb g "-").
  - destruct r0 as [|d rest']; [done|]. rewrite append_cons.
    destruct (is_digit d); [|done].
    intros [= H]. by rewrite (skip_digits_app _ _ _ t H).
  - destruct (is_digit g); [|done].
    intros [= H]. by rewrite (skip_digits_app _ _ _ t H).
Qed.

Lemma scan_number_app s c r t :
  scan_number s = Some (String c r) → scan_number (s +:+ t) = Some (String c (r +:+ t)).
Proof.
  unfold scan_number. intros H.
  assert (∀ s1, match scan_int s1 with
                | Some s2 => match scan_frac s2 with
                             | Some s3 => scan_exp s3
                             | None => None
                             end
                | None => None
                end = Some (String c r) →
                match scan_int (s1 +:+ t) with
                | Some s2 => match scan_frac s2 with
                             | Some s3 => scan_exp s3
                             | None => None
                             end
                | None => None
                end = Some (String c (r +:+ t))) as Hchain.
  { intros s1 H1.
    destruct (scan_int s1) as [[|c2 r2]|] eqn:Hi; [done| |done].
    rewrite (scan_int_app _ _ _ t Hi).
    change (String c2 (r2 +:+ t)) with (String c2 r2 +:+ t).
    destruct (scan_frac (String c2 r2)) as [[|c3 r3]|] eqn:Hf; [done| |done].
    rewrite (scan_frac_app _ _ _ t Hf).
    change (String c3 (r3 +:+ t)) with (String c3 r3 +:+ t). by apply scan_exp_app. }
  destruct s as [|x rest]; [done|]. rewrite append_cons.
  destruct (Ascii.eqb x "-"); [by apply Hchain|].
  rewrite <- append_cons. by apply Hchain.
Qed.

(** *** String literals *)

Lemma push_is_Some c r z : push c r = Some z → ∃ w, r = Some w.
Proof. destruct r; [eauto|done]. Qed.

Lemma pushs_is_Some p r z : pushs p r = Some z → ∃ w, r = Some w.
Proof. destruct r; [eauto|done]. Qed.

Lemma unquote_one k c x : unquote k (String c EmptyString) = Some x → Ascii.eqb c dquote = true.
Proof.
  destruct k as [|k]; cbn [unquote]; [|done].
  destruct (Ascii.eqb c dquote); [done|].
  destruct (Ascii.eqb c backslash); [done|].
  destruct (code c <? 32)%N; [done|].
  destruct (code c <? 128)%N; [done|].
  by destruct (rune_width (String c EmptyString)).
Qed.

Lemma unquote_two c1 c2 x :
  unquote 0 (String c1 (String c2 EmptyString)) = Some x →
  Ascii.eqb c1 dquote = true ∨ Ascii.eqb c2 dquote = true.
Proof.
  assert (∀ k y z, push y (unquote k (String c2 EmptyString)) = Some z →
            Ascii.eqb c2 dquote = true) as Hpush.
  { intros k y z [w Hw]%push_is_Some. by eapply unquote_one. }
  assert (∀ y z, pushs y (unquote 0 (String c2 EmptyString)) = Some z →
            Ascii.eqb c2 dquote = true) as Hpushs.
  { intros y z [w Hw]%pushs_is_Some. by eapply unquote_one. }
  remember (String c2 EmptyString) as s0 eqn:Hs0.
  cbn [unquote].
  destruct (Ascii.eqb c1 dquote); [by left|]. intros H. right. revert H.
  destruct (Ascii.eqb c1 backslash).
  { subst s0. destruct (Ascii.eqb c2 "u"); [done|]. by destruct (simple_escape c2). }
  destruct (code c1 <? 32)%N; [done|].
  destruct (code c1 <? 128)%N; [by eapply Hpush|].
  destruct (rune_width (String c1 s0)); [by eapply Hpushs|by eapply Hpush].
Qed.

Lemma eqb_dquote c : Ascii.eqb c dquote = true → c = dquote.
Proof. apply Ascii.eqb_eq. Qed.

(** The width of an encoding whose bytes are followed by a string literal's
    end does not depend on what comes after the literal. *)
Lemma rune_width_app c s0 t :
  rune_width (String c s0) ≠ 0 ∨ is_Some (unquote 0 s0) →
  rune_width (String c (s0 +:+ t)) = rune_width (String c s0).
Proof.
  intros H. unfold rune_width in *.
  destruct (code c <? 128)%N; [done|].
  destruct (between 194 223 c).
  { destruct s0 as [|c1 s0']; [|done]. destruct H as [H|[x H]]; done. }
  destruct (between 224 239 c).
  { destruct s0 as [|c1 [|c2 s0']]; [| |done].
    - destruct H as [H|[x H]]; done.
    - destruct H as [H|[x H]]; [done|]. apply unquote_one, eqb_dquote in H as ->.
      rewrite append_cons. destruct t as [|c2 t']; [done|].
      change (EmptyString +:+ String c2 t') with (String c2 t').
      by destruct (code c =? 224)%N, (code c =? 237)%N. }
  destruct (between 240 244 c); [|done].
  destruct s0 as [|c1 [|c2 [|c3 s0']]]; [| | |done].
  - destruct H as [H|[x H]]; done.
  - destruct H as [H|[x H]]; [done|]. apply unquote_one, eqb_dquote in H as ->.
    rewrite append_cons. destruct t as [|c2 [|c3 t']]; [done..|].
    change (EmptyString +:+ ?u) with u.
    by destruct (code c =? 240)%N, (code c =? 244)%N.
  - destruct H as [H|[x H]]; [done|].
    rewrite !append_cons. destruct t as [|c3 t']; [done|].
    change (EmptyString +:+ ?u) with u.
    apply unquote_two in H as [->%eqb_dquote| ->%eqb_dquote].
    + by destruct (code c =? 240)%N, (code c =? 244)%N.
    + rewrite (andb_comm (between _ _ _)). done.
Qed.

(** A literal that ends within five bytes does not start with [\u]. *)
Lemma short_literal_head x t :
  String.length x < 6 → is_Some (unquote 0 x) →
  match x +:+ t with
  | String b (String u _) => Ascii.eqb b backslash && Ascii.eqb u "u" = false
  | _ => True
  end.
Proof.
  intros Hlen [w H]. destruct x as [|b x]; [done|]. rewrite append_cons.
  destruct x as [|u x].
  { apply unquote_one, eqb_dquote in H as ->.
    change (EmptyString +:+ t) with t. by destruct t. }
  rewrite append_cons.
  destruct (Ascii.eqb b backslash) eqn:Hb; [|done].
  destruct (Ascii.eqb u "u") eqn:Hu; [|done]. exfalso.
  apply Ascii.eqb_eq in Hb as ->. apply Ascii.eqb_eq in Hu as ->.
  cbn [String.length] in Hlen.
  destruct x as [|h1 [|h2 [|h3 [|h4 x]]]]; try done.
  cbn [String.length] in Hlen. lia.
Qed.

Lemma surrogate_short r x (fb : option (string * string)) :
  String.length x < 6 →
  match x with
  | String b (String u (String l1 (String l2 (String l3 (String l4 rest3))))) =>
    match (if Ascii.eqb b backslash && Ascii.eqb u "u"
           then
             match getu4 l1 l2 l3 l4 with
             | Some r2 => utf16_pair r r2
             | None => None
             end
           else None) with
    | Some r' => pushs (EncodeRune r') (unquote 0 rest3)
    | None => fb
    end
  | _ => fb
  end = fb.
Proof.
  intros Hlen.
  destruct x as [|b [|u [|l1 [|l2 [|l3 [|l4 rest3]]]]]]; try done.
  cbn [String.length] in Hlen. lia.
Qed.

Lemma surrogate_fallback r x t (fb : option (string * string)) :
  String.length x < 6 → is_Some (unquote 0 x) →
  match x +:+ t with
  | String b (String u (String l1 (String l2 (String l3 (String l4 rest3))))) =>
    match (if Ascii.eqb b backslash && Ascii.eqb u "u"
           then
             match getu4 l1 l2 l3 l4 with
             | Some r2 => utf16_pair r r2
             | None => None
             end
           else None) with
    | Some r' => pushs (EncodeRune r') (unquote 0 rest3)
    | None => fb
    end
  | _ => fb
  end = fb.
Proof.
  intros Hlen Hsome. pose proof (short_literal_head x t Hlen Hsome) as Hhead.
  destruct (x +:+ t) as [|b [|u [|l1 [|l2 [|l3 [|l4 rest3]]]]]]; try done.
  by rewrite Hhead.
Qed.

(** What follows a string literal does not change how it is read. *)
Lemma unquote_app t n : ∀ s k v rest,
  String.length s ≤ n → unquote k s = Some (v, rest) →
  unquote k (s +:+ t) = Some (v, rest +:+ t).
Proof.
  induction n as [|n IH]; intros s k v rest Hn H.
  { destruct s; [done|]. cbn [String.length] in Hn. lia. }
  destruct s as [|c s0]; [done|]. cbn [String.length] in *.
  assert (∀ u k' x, String.length u ≤ String.length s0 →
            push x (unquote k' u) = Some (v, rest) →
            push x (unquote k' (u +:+ t)) = Some (v, rest +:+ t)) as Hpush.
  { intros u k' x Hu Hp. destruct (unquote k' u) as [[w r]|] eqn:Hw; [|done].
    injection Hp as <- <-. erewrite IH; [done| |done]. lia. }
  assert (∀ u x, String.length u ≤ String.length s0 →
            pushs x (unquote 0 u) = Some (v, rest) →
            pushs x (unquote 0 (u +:+ t)) = Some (v, rest +:+ t)) as Hpushs.
  { intros u x Hu Hp. destruct (unquote 0 u) as [[w r]|] eqn:Hw; [|done].
    injection Hp as <- <-. erewrite IH; [done| |done]. lia. }
  clear IH Hn. rewrite append_cons.
  destruct k as [|k]; cbn [unquote] in H |- *; [|by eapply Hpush].
  destruct (Ascii.eqb c dquote). { by injection H as <- <-. }
  destruct (Ascii.eqb c backslash).
  { destruct s0 as [|e rest1]; [done|]. rewrite append_cons.
    destruct (Ascii.eqb e "u").
    - destruct rest1 as [|h1 [|h2 [|h3 [|h4 rest2]]]]; try done.
      rewrite !append_cons.
      destruct (getu4 h1 h2 h3 h4) as [r|]; [|done].
      cbn [String.length] in *.
      destruct (is_surrogate r); [|eapply Hpushs; [|exact H]; lia].
      destruct (decide (String.length rest2 < 6)) as [Hshort|Hlong].
      + rewrite surrogate_short in H by done.
        rewrite surrogate_fallback; [eapply Hpushs; [|exact H]; lia|done|].
        apply pushs_is_Some in H as [w ->]. eauto.
      + destruct rest2 as [|b [|u [|l1 [|l2 [|l3 [|l4 rest3]]]]]];
          try (cbn [String.length] in Hlong; lia).
        rewrite !append_cons.
        destruct (if Ascii.eqb b backslash && Ascii.eqb u "u"
                  then match getu4 l1 l2 l3 l4 with
                       | Some r2 => utf16_pair r r2
                       | None => None
                       end
                  else None).
        * eapply Hpushs; [|exact H]; cbn [String.length]; lia.
        * rewrite <- !append_cons.
          eapply Hpushs; [|exact H]; cbn [String.length]; lia.
    - destruct (simple_escape e); [|done].
      eapply Hpush; [|exact H]. cbn [String.length]. lia. }
  destruct (code c <? 32)%N; [done|].
  destruct (code c <? 128)%N; [by eapply Hpush|].
  rewrite rune_width_app.
  - destruct (rune_width (String c s0)); [by eapply Hpushs | by eapply Hpush].
  - destruct (rune_width (String c s0)); [right|by left].
    apply pushs_is_Some in H as [w ->]. eauto.
Qed.

Lemma fmap_pair_app {A} (x : A) (o o' : option string) j rest t :
  (λ r, (x, r)) <$> o = Some (j, rest) →
  (∀ r, o = Some r → o' = Some (r +:+ t)) →
  (λ r, (x, r)) <$> o' = Some (j, rest +:+ t).
Proof.
  destruct o as [r|]; simpl; [|done]. intros [= <- <-] Ho. by rewrite (Ho r).
Qed.

(** A value that is followed by more text is read in the same way when
    text is added at the end; a number has to be followed by something, for
    it to be known to end. *)
Lemma parse_app t f :
  (∀ d s j rest g, f ≤ g → parse_value f d s = Some (j, rest) →
     j ≠ JNumber ∨ rest ≠ EmptyString →
     parse_value g d (s +:+ t) = Some (j, rest +:+ t)) ∧
  (∀ d s l rest g, f ≤ g → parse_elems f d s = Some (l, rest) →
     parse_elems g d (s +:+ t) = Some (l, rest +:+ t)) ∧
  (∀ d s l rest g, f ≤ g → parse_members f d s = Some (l, rest) →
     parse_members g d (s +:+ t) = Some (l, rest +:+ t)).
Proof.
  induction f as [|f (IHv & IHe & IHm)]; [done|].
  split; [|split]; intros d s j rest [|g] Hg H; try lia;
    assert (f ≤ g) as Hfg by lia.
  - intros Hj. rewrite parse_value_step in *.
    destruct (skip_space s) as [|c r0] eqn:Hs; [done|].
    rewrite (skip_space_app _ _ _ t Hs).
    destruct (Ascii.eqb c dquote).
    { destruct (unquote 0 r0) as [[v r']|] eqn:Hu; [|done].
      injection H as <- <-. by rewrite (unquote_app t _ _ _ _ _ (le_n _) Hu). }
    destruct (Ascii.eqb c "[").
    { destruct (maxNestingDepth <=? d)%N; [done|].
      destruct (skip_space r0) as [|c' r'] eqn:Hs'; [done|].
      rewrite (skip_space_app _ _ _ t Hs').
      destruct (Ascii.eqb c' "]"); [by injection H as <- <-|].
      destruct (parse_elems f (d + 1) r0) as [[l r'']|] eqn:He; [|done].
      injection H as <- <-. rewrite (IHe _ _ _ _ g Hfg He). done. }
    destruct (Ascii.eqb c "{").
    { destruct (maxNestingDepth <=? d)%N; [done|].
      destruct (skip_space r0) as [|c' r'] eqn:Hs'; [done|].
      rewrite (skip_space_app _ _ _ t Hs').
      destruct (Ascii.eqb c' "}"); [by injection H as <- <-|].
      destruct (parse_members f (d + 1) r0) as [[l r'']|] eqn:He; [|done].
      injection H as <- <-. rewrite (IHm _ _ _ _ g Hfg He). done. }
    destruct (Ascii.eqb c "t").
    { eapply fmap_pair_app; [done|]. intros r. apply strip_prefix_app. }
    destruct (Ascii.eqb c "f").
    { eapply fmap_pair_app; [done|]. intros r. apply strip_prefix_app. }
    destruct (Ascii.eqb c "n").
    { eapply fmap_pair_app; [done|]. intros r. apply strip_prefix_app. }
    destruct (scan_number (String c r0)) as [r|] eqn:Hn; [|done].
    injection H as <- <-. destruct Hj as [Hj|Hj]; [done|].
    destruct r as [|x r]; [done|].
    change (String c (r0 +:+ t)) with (String c r0 +:+ t).
    by rewrite (scan_number_app _ _ _ t Hn).
  - rewrite parse_elems_step in *.
    destruct (parse_value f d s) as [[v r1]|] eqn:Hv; [|done].
    destruct (skip_space r1) as [|c r2] eqn:Hs; [done|].
    rewrite (IHv _ _ _ _ g Hfg Hv); [|right; by destruct r1].
    rewrite (skip_space_app _ _ _ t Hs).
    destruct (Ascii.eqb c ",").
    { destruct (parse_elems f d r2) as [[l r3]|] eqn:He; [|done].
      injection H as <- <-. by rewrite (IHe _ _ _ _ g Hfg He). }
    destruct (Ascii.eqb c "]"); [|done]. by injection H as <- <-.
  - rewrite parse_members_unfold in *.
    destruct (skip_space s) as [|q r0] eqn:Hs; [done|].
    rewrite (skip_space_app _ _ _ t Hs).
    destruct (Ascii.eqb q dquote); [|done].
    destruct (unquote 0 r0) as [[k r1]|] eqn:Hu; [|done].
    rewrite (unquote_app t _ _ _ _ _ (le_n _) Hu).
    destruct (skip_space r1) as [|c r2] eqn:Hs1; [done|].
    rewrite (skip_space_app _ _ _ t Hs1).
    destruct (Ascii.eqb c ":"); [|done].
    destruct (parse_value f d r2) as [[v r3]|] eqn:Hv; [|done].
    unfold members_tail in *.
    destruct (skip_space r3) as [|c' r4] eqn:Hs3; [done|].
    rewrite (IHv _ _ _ _ g Hfg Hv); [|right; by destruct r3].
    rewrite (skip_space_app _ _ _ t Hs3).
    destruct (Ascii.eqb c' ",").
    { destruct (parse_members f d r4) as [[l' r5]|] eqn:Hm; [|done].
      injection H as <- <-. by rewrite (IHm _ _ _ _ g Hfg Hm). }
    destruct (Ascii.eqb c' "}"); [|done]. by injection H as <- <-.
Qed.

(** *** What is read from a file that was not written to its end *)

Lemma substring_prefix n : ∀ s,
  n ≤ String.length s →
  ∃ t, s = String.substring 0 n s +:+ t ∧ String.length t = String.length s - n.
Proof.
  induction n as [|n IH]; intros s Hn.
  { exists s. destruct s; simpl; split; (done || lia). }
  destruct s as [|x s]; cbn [String.length] in *; [lia|].
  destruct (IH s) as (t & Hs & Ht); [lia|].
  exists t. cbn [String.substring]. rewrite append_cons, <- Hs. split; [done|lia].
Qed.

(** A value that starts with a brace is no number. *)
Lemma parse_value_brace f d x j rest :
  parse_value f d (String "{" x) = Some (j, rest) → j ≠ JNumber.
Proof.
  destruct f as [|f]; [done|]. rewrite parse_value_step.
  change (skip_space (String "{" x)) with (String "{" x).
  cbn [Ascii.eqb Bool.eqb dquote]. cbv iota.
  destruct (maxNestingDepth <=? d)%N; [done|].
  destruct (skip_space x) as [|c' r']; [done|].
  destruct (Ascii.eqb c' "}"); [by intros [= <- <-]|].
  destruct (parse_members f (d + 1) x) as [[l r'']|]; [|done].
  by intros [= <- <-].
Qed.

(** No proper prefix of what [Marshal] writes is a JSON value. *)
Lemma Decode_cut m n c :
  n < String.length (Marshal m) →
  ∃ err, Decode (String.substring 0 n (Encode m)) c = (c, Some err).
Proof.
  intros Hn. unfold Encode.
  destruct (substring_prefix n (Marshal m)) as (t & Hm & Ht); [lia|].
  assert (String.substring 0 n (Marshal m +:+ newline) = String.substring 0 n (Marshal m))
    as ->.
  { clear -Hn. revert n Hn. generalize (Marshal m). intros s.
    induction s as [|x s IH]; intros n Hn; cbn [String.length] in Hn; [lia|].
    destruct n as [|n]; [done|]. rewrite append_cons. cbn [String.substring].
    f_equal. apply IH. lia. }
  set (p := String.substring 0 n (Marshal m)) in *.
  destruct p as [|b p'] eqn:Hp; [by eexists|].
  assert (b = "{"%char) as ->.
  { unfold Marshal in Hm. rewrite append_cons in Hm. by injection Hm as ->. }
  rewrite Decode_object.
  destruct (parse_value _ 0 (String "{" p')) as [[j rest]|] eqn:Hv; [exfalso|by eexists].
  pose proof (parse_value_brace _ _ _ _ _ Hv) as Hj.
  destruct (parse_app t (2 * String.length (String "{" p') + 1)) as (Happ & _ & _).
  pose proof (Happ _ _ _ _ (2 * String.length (String "{" p') + 1 + String.length (Marshal m))
                ltac:(lia) Hv (or_introl Hj)) as Hall.
  rewrite <- Hm in Hall.
  pose proof (parse_value_object
                (2 * String.length (String "{" p') + 1 + String.length (Marshal m)) 0
                (merge_sort key_le (map_to_list m)) EmptyString eq_refl) as Hobj.
  rewrite append_nil_r in Hobj. fold (Marshal m) in Hobj.
  rewrite Hobj in Hall by lia.
  injection Hall as _ Hrest. apply (f_equal String.length) in Hrest.
  rewrite append_length in Hrest. cbn [String.length] in Hrest. lia.
Qed.

Lemma substring_whole s t : String.substring 0 (String.length s) (s +:+ t) = s.
Proof.
  induction s as [|x s IH]; [by destruct t|].
  rewrite append_cons. cbn [String.length String.substring]. by f_equal.
Qed.

(** [Decode] reads one value: what follows the object in the file makes no
    difference. *)
Lemma Decode_Marshal m tail c :
  Decode (Marshal m +:+ tail) c = Decode (Encode m) c.
Proof.
  rewrite Decode_Encode. unfold Marshal.
  set (l := merge_sort key_le (map_to_list m)).
  change (("{" +:+ join "," (encode_entry <$> l) +:+ "}") +:+ tail)
    with (String "{" ((join "," (encode_entry <$> l) +:+ "}") +:+ tail)).
  rewrite Decode_object.
  change (String "{" ((join "," (encode_entry <$> l) +:+ "}") +:+ tail))
    with (("{" +:+ join "," (encode_entry <$> l) +:+ "}") +:+ tail).
  rewrite parse_value_object.
  - unfold unmarshal. by rewrite store_members_read_back.
  - done.
  - generalize ("{" +:+ join "," (encode_entry <$> l) +:+ "}"). intros text.
    rewrite append_length. lia.
Qed.

(** X21. When the write of [saveCache] stops for lack of room before the
    closing brace of the object, [saveCache] reports the error, and
    [openCache] on the file it left reports an error too and returns the
    empty mapping: nothing of a cache file that was cut short is used. *)
Theorem cut_cache_reads_empty d path cache n :
  refused d path = false → room d = Some n →
  n < String.length (Marshal cache) →
  is_Some (saveCache d path cache).2 ∧
  ∃ err, openCache (saveCache d path cache).1 path = (∅, Some err).
Proof.
  intros Hr Hroom Hn. rewrite (saveCache_created _ _ _ Hr), Hroom.
  assert (n < String.length (Encode cache)) as Hlt.
  { unfold Encode. rewrite append_length. lia. }
  rewrite decide_True by done. split; [by eexists|].
  unfold openCache, os_Open. cbn [fst files refused]. rewrite Hr, lookup_insert_eq.
  destruct (Decode_cut cache n ∅ Hn) as [err ->]. by eexists.
Qed.

(** X22. When there is room for the whole object and not for the newline
    after it, [saveCache] reports an error, yet the file holds all of a
    cache whose ids are valid UTF-8: [openCache] reads that cache from it,
    without an error. *)
Theorem cache_short_of_newline_reads_whole d path cache :
  refused d path = false → room d = Some (String.length (Marshal cache)) →
  valid_cache cache = true →
  is_Some (saveCache d path cache).2 ∧
  openCache (saveCache d path cache).1 path = (cache, None).
Proof.
  intros Hr Hroom Hvalid. rewrite (saveCache_created _ _ _ Hr), Hroom.
  assert (String.length (Marshal cache) < String.length (Encode cache)) as Hlt.
  { unfold Encode. rewrite append_length. cbn. lia. }
  rewrite decide_True by done. split; [by eexists|].
  unfold openCache, os_Open. cbn [fst files refused]. rewrite Hr, lookup_insert_eq.
  unfold Encode at 1. rewrite substring_whole.
  rewrite <- (append_nil_r (Marshal cache)), Decode_Marshal.
  by rewrite Decode_Encode_valid.
Qed.

(** ** main *)

(** The body of the loop over the clusters, case by case. *)
Lemma dispatch_cluster_events os args p c tr :
  let gcloud := ["gcloud"; "--project"; p; "container"; "clusters";
                 "get-credentials"; Name c; "--zone"; Zone c] in
  let kubectl := "kubectl" :: "--context"
                 :: ("gke_" +:+ p +:+ "_" +:+ Zone c +:+ "_" +:+ Name c) :: args in
  dispatch_cluster os args p c tr
  = match Cmd_Run os tr gcloud with
    | Some err =>
      (tr ++ [Start gcloud;
              Errorf ("could not get cluster credentials for " +:+ Name c +:+ " in "
                      +:+ p +:+ ": "
                      +:+ Error (Wrapped err "could not get cluster credentials"))],
       None)
    | None =>
      match Cmd_Run os (tr ++ [Start gcloud]) kubectl with
      | Some err =>
        (tr ++ [Start gcloud; Start kubectl;
                Errorf ("could not run kubectl for " +:+ Name c +:+ " in "
                        +:+ p +:+ ": " +:+ Error (Wrapped err "could not run kubectl"))],
         None)
      | None => (tr ++ [Start gcloud; Start kubectl], Some ())
      end
    end.
Proof.
  intros gcloud kubectl.
  unfold dispatch_cluster, getClusterCredentials, runKubectlCmd, Run, emit, os_Exit.
  unfold mbind, Proc_bind, mret, Proc_ret. fold gcloud. simpl. fold kubectl.
  destruct (Cmd_Run os tr gcloud) as [err|]; simpl.
  - by rewrite <- app_assoc.
  - destruct (Cmd_Run os (tr ++ [Start gcloud]) kubectl) as [err|]; simpl.
    + by rewrite <- !app_assoc.
    + by rewrite <- !app_assoc.
Qed.

Lemma range_cons {A} (x : A) l body tr :
  range (x :: l) body tr
  = match body x tr with
    | (tr', Some _) => range l body tr'
    | (tr', None) => (tr', None)
    end.
Proof. reflexivity. Qed.

Lemma dispatch_project_events os gke args p tr :
  dispatch_project os gke args p tr
  = match Clusters_List gke tr p with
    | Err err =>
      (tr ++ [ListClusters p;
              Errorf ("could not list gke clusters in " +:+ p +:+ ": " +:+ Error err)],
       None)
    | Ok clusters => range clusters (dispatch_cluster os args p) (tr ++ [ListClusters p])
    end.
Proof.
  unfold dispatch_project, Do_List, emit, os_Exit.
  unfold mbind, Proc_bind, mret, Proc_ret. simpl.
  destruct (Clusters_List gke tr p) as [clusters|err]; simpl; [done|].
  by rewrite <- app_assoc.
Qed.

Lemma all_well_nil os gke : all_well os gke [].
Proof. by intros i e Hi. Qed.

Lemma all_well_snoc os gke tr e :
  all_well os gke tr → succeeded os gke tr e = true → all_well os gke (tr ++ [e]).
Proof.
  intros Htr He i e' Hi.
  destruct (decide (i < length tr)) as [Hlt|Hge].
  - rewrite lookup_app_l in Hi by done. rewrite take_app_le by lia. by apply Htr.
  - rewrite lookup_app_r in Hi by lia.
    destruct (i - length tr) as [|n] eqn:Hn; simpl in Hi; [|by destruct n].
    simplify_eq. assert (i = length tr) as -> by lia.
    by rewrite take_app_length.
Qed.

Lemma all_well_prefix os gke tr ext :
  all_well os gke (tr ++ ext) → all_well os gke tr.
Proof.
  intros H i e Hi. pose proof (lookup_lt_Some _ _ _ Hi) as Hlt.
  specialize (H i e). rewrite lookup_app_l, take_app_le in H by lia. by apply H.
Qed.

Lemma omap_listed_snoc tr e :
  omap listed (tr ++ [e]) = omap listed tr ++ from_option (λ p, [p]) [] (listed e).
Proof. rewrite omap_app. simpl. by destruct (listed e). Qed.

(** The loop over the clusters of a project: it goes through with every
    call a success, or ends the process after the first call that fails. *)
Lemma range_clusters os gke args p cs : ∀ tr,
  all_well os gke tr →
  match range cs (dispatch_cluster os args p) tr with
  | (tr', Some _) => all_well os gke tr' ∧ omap listed tr' = omap listed tr
  | (tr', None) =>
    ∃ tr1 e msg, tr' = tr1 ++ [e; Errorf msg] ∧ all_well os gke tr1 ∧
                 failed os gke tr1 e = true ∧ omap listed (tr1 ++ [e]) = omap listed tr
  end.
Proof.
  induction cs as [|c cs IH]; intros tr Htr; [done|].
  rewrite range_cons, dispatch_cluster_events.
  set (gcloud := ["gcloud"; "--project"; p; "container"; "clusters";
                  "get-credentials"; Name c; "--zone"; Zone c]).
  set (kubectl := "kubectl" :: "--context"
                  :: ("gke_" +:+ p +:+ "_" +:+ Zone c +:+ "_" +:+ Name c) :: args).
  destruct (Cmd_Run os tr gcloud) as [err|] eqn:Hg.
  { eexists tr, (Start gcloud), _. split; [done|]. split; [done|].
    split; [by simpl; rewrite Hg|]. by rewrite omap_listed_snoc, app_nil_r. }
  assert (all_well os gke (tr ++ [Start gcloud])) as Htr1.
  { apply all_well_snoc; [done|]. by simpl; rewrite Hg. }
  destruct (Cmd_Run os (tr ++ [Start gcloud]) kubectl) as [err|] eqn:Hk.
  { eexists (tr ++ [Start gcloud]), (Start kubectl), _.
    split; [by rewrite <- app_assoc|]. split; [done|].
    split; [by simpl; rewrite Hk|]. by rewrite !omap_listed_snoc, !app_nil_r. }
  assert (all_well os gke (tr ++ [Start gcloud; Start kubectl])) as Htr2.
  { replace (tr ++ [Start gcloud; Start kubectl])
      with ((tr ++ [Start gcloud]) ++ [Start kubectl]) by (by rewrite <- app_assoc).
    apply all_well_snoc; [done|]. by simpl; rewrite Hk. }
  specialize (IH _ Htr2).
  destruct (range cs (dispatch_cluster os args p) (tr ++ [Start gcloud; Start kubectl]))
    as [tr' [[]|]].
  - destruct IH as [? ->]. split; [done|]. rewrite omap_app. simpl. by rewrite app_nil_r.
  - destruct IH as (tr1 & e & msg & -> & ? & ? & Hlisted).
    eexists tr1, e, msg. repeat split; try done.
    rewrite Hlisted, omap_app. simpl. by rewrite app_nil_r.
Qed.

(** The loop over the projects. *)
Lemma range_projects os gke args l : ∀ tr,
  all_well os gke tr →
  match range l (dispatch_project os gke args) tr with
  | (tr', Some _) => all_well os gke tr' ∧ omap listed tr' = omap listed tr ++ l
  | (tr', None) =>
    ∃ tr1 e msg, tr' = tr1 ++ [e; Errorf msg] ∧ all_well os gke tr1 ∧
                 failed os gke tr1 e = true ∧
                 omap listed (tr1 ++ [e]) `prefix_of` omap listed tr ++ l
  end.
Proof.
  induction l as [|p l IH]; intros tr Htr.
  { simpl. split; [done|]. by rewrite app_nil_r. }
  rewrite range_cons, dispatch_project_events.
  destruct (Clusters_List gke tr p) as [clusters|err] eqn:Hl.
  - assert (all_well os gke (tr ++ [ListClusters p])) as Htr1.
    { apply all_well_snoc; [done|]. by simpl; rewrite Hl. }
    pose proof (range_clusters os gke args p clusters _ Htr1) as Hcs.
    destruct (range clusters (dispatch_cluster os args p) (tr ++ [ListClusters p]))
      as [tr' [[]|]].
    + destruct Hcs as [Htr' Hlisted]. specialize (IH _ Htr').
      rewrite omap_listed_snoc in Hlisted. simpl in Hlisted.
      destruct (range l (dispatch_project os gke args) tr') as [tr'' [[]|]].
      * destruct IH as [? ->]. split; [done|]. by rewrite Hlisted, <- app_assoc.
      * destruct IH as (tr1 & e & msg & -> & ? & ? & Hpre).
        eexists tr1, e, msg. repeat split; try done.
        by rewrite Hlisted, <- app_assoc in Hpre.
    + destruct Hcs as (tr1 & e & msg & -> & ? & ? & Hlisted).
      eexists tr1, e, msg. repeat split; try done.
      rewrite Hlisted, omap_listed_snoc. simpl.
      apply prefix_app, prefix_cons, prefix_nil.
  - eexists tr, (ListClusters p), _. split; [done|]. split; [done|].
    split; [by simpl; rewrite Hl|]. rewrite omap_listed_snoc. simpl.
    apply prefix_app, prefix_cons, prefix_nil.
Qed.

Lemma after_credentials_app os args tr ext :
  after_credentials os args tr →
  (∀ k argv, ext !! k = Some (Start ("kubectl" :: argv)) →
     ∃ p c j,
       length tr + k = S j ∧
       argv = "--context" :: ("gke_" +:+ p +:+ "_" +:+ Zone c +:+ "_" +:+ Name c) :: args ∧
       (tr ++ ext) !! j = Some (Start ["gcloud"; "--project"; p; "container"; "clusters";
                                       "get-credentials"; Name c; "--zone"; Zone c]) ∧
       Cmd_Run os (take j (tr ++ ext))
         ["gcloud"; "--project"; p; "container"; "clusters";
          "get-credentials"; Name c; "--zone"; Zone c] = None) →
  after_credentials os args (tr ++ ext).
Proof.
  intros Htr Hext i argv Hi.
  destruct (decide (i < length tr)) as [Hlt|Hge].
  - rewrite lookup_app_l in Hi by done.
    destruct (Htr i argv Hi) as (p & c & j & -> & ? & Hj & Hrun).
    exists p, c, j. rewrite lookup_app_l, take_app_le by lia. done.
  - rewrite lookup_app_r in Hi by lia.
    destruct (Hext _ _ Hi) as (p & c & j & Hij & ? & ? & ?).
    exists p, c, j. split; [lia|done].
Qed.

Lemma after_credentials_cluster os args p c tr :
  after_credentials os args tr →
  after_credentials os args (dispatch_cluster os args p c tr).1.
Proof.
  intros Htr. rewrite dispatch_cluster_events.
  set (gcloud := ["gcloud"; "--project"; p; "container"; "clusters";
                  "get-credentials"; Name c; "--zone"; Zone c]).
  set (kubectl := "kubectl" :: "--context"
                  :: ("gke_" +:+ p +:+ "_" +:+ Zone c +:+ "_" +:+ Name c) :: args).
  assert (∀ tail, Cmd_Run os tr gcloud = None →
            (∀ k argv, tail !! k = Some (Start ("kubectl" :: argv)) → False) →
            after_credentials os args (tr ++ Start gcloud :: Start kubectl :: tail)) as Hboth.
  { intros tail Hg Htail. apply after_credentials_app; [done|].
    intros [|[|k]] argv Hk; simpl in Hk.
    - by simplify_eq.
    - injection Hk as <-. exists p, c, (length tr).
      split; [lia|]. split; [done|].
      rewrite take_app_length. split; [|done].
      by rewrite lookup_app_r, Nat.sub_diag by lia.
    - by destruct (Htail _ _ Hk). }
  destruct (Cmd_Run os tr gcloud) as [err|] eqn:Hg; simpl.
  - apply after_credentials_app; [done|]. by intros [|[|k]] argv Hk; simplify_eq/=.
  - destruct (Cmd_Run os (tr ++ [Start gcloud]) kubectl); simpl.
    + apply Hboth; [done|]. by intros [|k] argv Hk; simplify_eq/=.
    + apply Hboth; [done|]. by intros k argv Hk.
Qed.

Lemma after_credentials_clusters os args p cs : ∀ tr,
  after_credentials os args tr →
  after_credentials os args (range cs (dispatch_cluster os args p) tr).1.
Proof.
  induction cs as [|c cs IH]; intros tr Htr; [done|].
  rewrite range_cons.
  pose proof (after_credentials_cluster os args p c tr Htr) as Hc.
  destruct (dispatch_cluster os args p c tr) as [tr' [[]|]]; simpl in *; [by apply IH|done].
Qed.

Lemma after_credentials_projects os gke args l : ∀ tr,
  after_credentials os args tr →
  after_credentials os args (range l (dispatch_project os gke args) tr).1.
Proof.
  induction l as [|p l IH]; intros tr Htr; [done|].
  rewrite range_cons, dispatch_project_events.
  destruct (Clusters_List gke tr p) as [clusters|err]; simpl.
  - assert (after_credentials os args (tr ++ [ListClusters p])) as Htr1.
    { apply after_credentials_app; [done|]. by intros [|k] argv Hk; simplify_eq/=. }
    pose proof (after_credentials_clusters os args p clusters _ Htr1) as Hcs.
    destruct (range clusters (dispatch_cluster os args p) (tr ++ [ListClusters p]))
      as [tr' [[]|]]; simpl in *; [by apply IH|done].
  - apply after_credentials_app; [done|]. by intros [|[|k]] argv Hk; simplify_eq/=.
Qed.

(** What [main] comes to, case by case. *)
Lemma main_cases os fuel sched o :
  main os fuel sched = Some o →
  (length (Args os) ≤ 1 ∧
   o = Outcome 1 [Stderr "org-kubectl FOLDER [kubectl args]"] (fs os)) ∨
  (∃ err, clients os = Err err ∧
     o = Outcome 1 [Errorf ("could not authenticate to google: " +:+ Error err)] (fs os)) ∨
  (∃ prog target args crm gke l err c,
     Args os = prog :: target :: args ∧ clients os = Ok (crm, gke) ∧
     findChildProjects crm target fuel (main_cache (fs os) (cachePath os)) sched
     = Some ((l, err), c) ∧
     ((nil_cache (fs os) (cachePath os) = true ∧ c ≠ ∅ ∧ o = Outcome 2 [] (fs os)) ∨
      ((nil_cache (fs os) (cachePath os) = false ∨ c = ∅) ∧
       match err with
       | Some e => o = Outcome 1 [Errorf ("could not find projects: " +:+ Error e)] (fs os)
       | None =>
         ∃ tr r, range l (dispatch_project os gke args) [] = (tr, r) ∧
           o = Outcome (match r with Some _ => 0 | None => 1 end) tr
                 (if nil_cache (fs os) (cachePath os)
                  then saveCache_nil (fs os) (cachePath os)
                  else saveCache (fs os) (cachePath os) c).1
       end))).
Proof.
  unfold main. intros Hmain.
  destruct (Args os) as [|prog [|target args]] eqn:Hargs.
  { left. simplify_eq. split; [simpl; lia|done]. }
  { left. simplify_eq. split; [simpl; lia|done]. }
  destruct (clients os) as [[crm gke]|err] eqn:Hcl.
  2: { right. left. simplify_eq. eauto. }
  right. right.
  destruct (findChildProjects crm target fuel (main_cache (fs os) (cachePath os)) sched)
    as [[[l err] c]|] eqn:Hf; [|done].
  exists prog, target, args, crm, gke, l, err, c. split; [done|]. split; [done|].
  split; [done|].
  destruct (nil_cache (fs os) (cachePath os)) eqn:Hnil; simpl in Hmain.
  - case_bool_decide as Hc; simpl in Hmain.
    + right. split; [by right|]. destruct err as [e|]; [by simplify_eq|].
      destruct (range l (dispatch_project os gke args) []) as [tr [[]|]] eqn:Hr;
        simplify_eq; by eexists _, _.
    + left. by simplify_eq.
  - right. split; [by left|]. destruct err as [e|]; [by simplify_eq|].
    destruct (range l (dispatch_project os gke args) []) as [tr [[]|]] eqn:Hr;
      simplify_eq; by eexists _, _.
Qed.

Lemma succeeded_not_failed os gke tr e :
  succeeded os gke tr e = true → failed os gke tr e = true → False.
Proof.
  destruct e as [| |p|argv]; simpl; try done.
  - by destruct (Clusters_List gke tr p).
  - by destruct (Cmd_Run os tr argv).
Qed.

(** X8. [main] lists the clusters of a project, starts a command, changes a
    file or ends with status 0 only when it was given a target, the clients
    could be made and [findChildProjects] returned a list and no error; and
    what [main] then leaves of the files is what [saveCache] made of the
    cache that [findChildProjects] left. *)
Theorem main_acts_on_a_resolved_list_only os fuel sched o :
  main os fuel sched = Some o →
  status o = 0 ∨ saved o ≠ fs os ∨
  (∃ e, e ∈ events o ∧ ((∃ p, e = ListClusters p) ∨ (∃ argv, e = Start argv))) →
  ∃ prog target args crm gke l c,
    Args os = prog :: target :: args ∧ clients os = Ok (crm, gke) ∧
    findChildProjects crm target fuel (main_cache (fs os) (cachePath os)) sched
    = Some ((l, None), c) ∧
    saved o = (if nil_cache (fs os) (cachePath os)
               then saveCache_nil (fs os) (cachePath os)
               else saveCache (fs os) (cachePath os) c).1.
Proof.
  intros Hmain Hacts.
  assert (∀ ev, ¬ (status (Outcome 1 [ev] (fs os)) = 0 ∨
                   saved (Outcome 1 [ev] (fs os)) ≠ fs os ∨
                   (∃ e, e ∈ events (Outcome 1 [ev] (fs os)) ∧
                      ((∃ p, e = ListClusters p) ∨ (∃ argv, e = Start argv)))) ∨
                (∃ p, ev = ListClusters p) ∨ (∃ argv, ev = Start argv)) as Hone.
  { intros ev. destruct ev; eauto; left; simpl.
    - intros [?|[?|(e & [->|[]%elem_of_nil]%elem_of_cons & [[? ?]|[? ?]])]]; done.
    - intros [?|[?|(e & [->|[]%elem_of_nil]%elem_of_cons & [[? ?]|[? ?]])]]; done. }
  destruct (main_cases _ _ _ _ Hmain)
    as [[_ ->]|[(err & _ & ->)|(prog & target & args & crm & gke & l & err & c &
                                 Hargs & Hcl & Hf & Hrest)]].
  - destruct (Hone (Stderr "org-kubectl FOLDER [kubectl args]")) as [H|[[? ?]|[? ?]]]; done.
  - destruct (Hone (Errorf ("could not authenticate to google: " +:+ Error err)))
      as [H|[[? ?]|[? ?]]]; done.
  - destruct Hrest as [(_ & _ & ->)|[_ Hrest]].
    { simpl in Hacts. destruct Hacts as [?|[?|(e & []%elem_of_nil & _)]]; done. }
    destruct err as [e|].
    { subst o. destruct (Hone (Errorf ("could not find projects: " +:+ Error e)))
        as [H|[[? ?]|[? ?]]]; done. }
    destruct Hrest as (tr & r & _ & ->). by exists prog, target, args, crm, gke, l, c.
Qed.

(** X9. Every kubectl that [main] starts comes right after a gcloud that
    succeeded in getting the credentials of a cluster; its context is the one
    of that cluster and project, and the arguments after the context are the
    arguments of the process from the third on, as they are. *)
Theorem kubectl_follows_credentials os fuel sched o i argv :
  main os fuel sched = Some o →
  events o !! i = Some (Start ("kubectl" :: argv)) →
  ∃ p c j,
    i = S j ∧
    argv = "--context" :: ("gke_" +:+ p +:+ "_" +:+ Zone c +:+ "_" +:+ Name c)
           :: drop 2 (Args os) ∧
    events o !! j = Some (Start ["gcloud"; "--project"; p; "container"; "clusters";
                                 "get-credentials"; Name c; "--zone"; Zone c]) ∧
    Cmd_Run os (take j (events o))
      ["gcloud"; "--project"; p; "container"; "clusters";
       "get-credentials"; Name c; "--zone"; Zone c] = None.
Proof.
  intros Hmain Hi.
  destruct (main_cases _ _ _ _ Hmain)
    as [[_ ->]|[(err & _ & ->)|(prog & target & args & crm & gke & l & err & c &
                                 Hargs & Hcl & Hf & Hrest)]].
  - by destruct i as [|[]].
  - by destruct i as [|[]].
  - destruct Hrest as [(_ & _ & ->)|[_ Hrest]]; [done|].
    destruct err as [e|]; [subst o; by destruct i as [|[]]|].
    destruct Hrest as (tr & r & Hr & ->). simpl in *.
    pose proof (after_credentials_projects os gke args l [] ltac:(by intros ? ? ?)) as Hk.
    rewrite Hr in Hk. rewrite Hargs. by apply Hk.
Qed.

(** X11. When [main] ends with status 0, every call it made went well, and the
    projects whose clusters it listed are those of the list that
    [findChildProjects] returned, in that order. *)
Theorem main_success_dispatches_the_list os fuel sched o crm gke :
  clients os = Ok (crm, gke) → main os fuel sched = Some o → status o = 0 →
  (∀ i e, events o !! i = Some e → succeeded os gke (take i (events o)) e = true) ∧
  ∃ c, findChildProjects crm (default EmptyString (Args os !! 1)) fuel
         (main_cache (fs os) (cachePath os)) sched
       = Some ((omap listed (events o), None), c).
Proof.
  intros Hclients Hmain Hstatus.
  destruct (main_cases _ _ _ _ Hmain)
    as [[_ ->]|[(err & _ & ->)|(prog & target & args & crm' & gke' & l & err & c &
                                 Hargs & Hcl & Hf & Hrest)]]; [done|done|].
  rewrite Hclients in Hcl. injection Hcl as <- <-.
  destruct Hrest as [(_ & _ & ->)|[_ Hrest]]; [done|].
  destruct err as [e|]; [by subst o|].
  destruct Hrest as (tr & r & Hr & ->). simpl in *.
  pose proof (range_projects os gke args l [] (all_well_nil os gke)) as Hl.
  rewrite Hr in Hl. destruct r as [[]|]; [|done].
  destruct Hl as [Hwell Hlisted]. split; [done|].
  exists c. rewrite Hargs. simpl. by rewrite Hlisted.
Qed.

(** *** Every cluster gets its commands *)

Lemma commands_length args p cs : length (commands args p cs) = 2 * length cs.
Proof. induction cs as [|c cs IH]; simpl in *; lia. Qed.

(** The loop over the clusters, when it goes through. *)
Lemma range_clusters_through os args p cs : ∀ tr tr',
  range cs (dispatch_cluster os args p) tr = (tr', Some ()) →
  tr' = tr ++ commands args p cs.
Proof.
  induction cs as [|c cs IH]; intros tr tr' Hr.
  { injection Hr as <-. by rewrite app_nil_r. }
  rewrite range_cons, dispatch_cluster_events in Hr.
  destruct (Cmd_Run os tr _); [done|].
  destruct (Cmd_Run os (tr ++ _) _); [done|].
  apply IH in Hr. rewrite Hr, <- app_assoc. done.
Qed.

Lemma served_block gke args tr p cs :
  served gke args tr → Clusters_List gke tr p = Ok cs →
  served gke args (tr ++ ListClusters p :: commands args p cs).
Proof.
  intros Htr Hcs i q cs' Hi Hq.
  destruct (decide (i < length tr)) as [Hlt|Hge].
  - rewrite lookup_app_l in Hi by done. rewrite take_app_le in Hq by lia.
    pose proof (Htr i q cs' Hi Hq) as Hseg.
    assert (2 * length cs' ≤ length (drop (S i) tr)) as Hlen.
    { rewrite <- (commands_length args q cs'), <- Hseg, length_take. lia. }
    rewrite drop_app_le by lia. by rewrite take_app_le.
  - rewrite lookup_app_r in Hi by lia.
    destruct (i - length tr) as [|n] eqn:Hn; simpl in Hi.
    + injection Hi as <-. assert (i = length tr) as -> by lia.
      rewrite take_app_length in Hq. rewrite Hcs in Hq. injection Hq as <-.
      rewrite drop_app_ge by lia.
      replace (S (length tr) - length tr) with 1 by lia.
      change (drop 1 (ListClusters p :: commands args p cs)) with (commands args p cs).
      rewrite <- (commands_length args p cs). by rewrite firstn_all.
    + exfalso. apply list_elem_of_lookup_2 in Hi. unfold commands in Hi.
      apply list_elem_of_In, in_flat_map in Hi as (c & _ & Hin).
      simpl in Hin. by destruct Hin as [?|[?|[]]].
Qed.

Lemma served_projects os gke args l : ∀ tr tr',
  served gke args tr →
  range l (dispatch_project os gke args) tr = (tr', Some ()) →
  served gke args tr'.
Proof.
  induction l as [|p l IH]; intros tr tr' Htr Hr.
  { by injection Hr as <-. }
  rewrite range_cons, dispatch_project_events in Hr.
  destruct (Clusters_List gke tr p) as [cs|err] eqn:Hcs; [|done].
  destruct (range cs (dispatch_cluster os args p) (tr ++ [ListClusters p]))
    as [tr1 [[]|]] eqn:Hr1; [|done].
  apply range_clusters_through in Hr1. subst tr1. rewrite <- app_assoc in Hr.
  eapply IH; [|exact Hr]. by apply served_block.
Qed.

(** X20. When [main] ends with status 0, right after each listing of the
    clusters of a project come the commands for every cluster of the answer,
    in the order of the answer: gcloud for its credentials, then kubectl with
    its context and the arguments of the process. *)
Theorem main_serves_every_cluster os fuel sched o crm gke i p cs :
  clients os = Ok (crm, gke) → main os fuel sched = Some o → status o = 0 →
  events o !! i = Some (ListClusters p) →
  Clusters_List gke (take i (events o)) p = Ok cs →
  take (2 * length cs) (drop (S i) (events o)) = commands (drop 2 (Args os)) p cs.
Proof.
  intros Hclients Hmain Hstatus Hi Hcs.
  destruct (main_cases _ _ _ _ Hmain)
    as [[_ ->]|[(err & _ & ->)|(prog & target & args & crm' & gke' & l & err & c &
                                 Hargs & Hcl & Hf & Hrest)]]; [done|done|].
  rewrite Hclients in Hcl. injection Hcl as <- <-.
  destruct Hrest as [(_ & _ & ->)|[_ Hrest]]; [done|].
  destruct err as [e|]; [by subst o|].
  destruct Hrest as (tr & r & Hr & ->). simpl in *.
  destruct r as [[]|]; [|done]. rewrite Hargs. simpl.
  eapply (served_projects os gke args l [] tr); [|exact Hr|exact Hi|exact Hcs].
  by intros ? ? ? ?.
Qed.

(** X10. [main] stops at the first call that fails: it ends with status 1, and
    after the call there is the message about it and nothing else. *)
Theorem main_stops_at_first_failure os fuel sched o crm gke i e :
  clients os = Ok (crm, gke) → main os fuel sched = Some o →
  events o !! i = Some e → failed os gke (take i (events o)) e = true →
  status o = 1 ∧ ∃ msg, drop (S i) (events o) = [Errorf msg].
Proof.
  intros Hclients Hmain Hi Hfail.
  destruct (main_cases _ _ _ _ Hmain)
    as [[_ ->]|[(err & _ & ->)|(prog & target & args & crm' & gke' & l & err & c &
                                 Hargs & Hcl & Hf & Hrest)]].
  - destruct i as [|[]]; simplify_eq/=.
  - destruct i as [|[]]; simplify_eq/=.
  - rewrite Hclients in Hcl. injection Hcl as <- <-.
    destruct Hrest as [(_ & _ & ->)|[_ Hrest]]; [done|].
    destruct err as [e'|]; [subst o; destruct i as [|[]]; simplify_eq/=|].
    destruct Hrest as (tr & r & Hr & ->). simpl in *.
    pose proof (range_projects os gke args l [] (all_well_nil os gke)) as Hl.
    rewrite Hr in Hl. destruct r as [[]|].
    + destruct Hl as [Hwell _]. by destruct (succeeded_not_failed _ _ _ _ (Hwell _ _ Hi) Hfail).
    + destruct Hl as (tr1 & e1 & msg & -> & Hwell & Hfailed & _). split; [done|].
      destruct (decide (i < length tr1)) as [Hlt|Hge].
      { rewrite lookup_app_l in Hi by done. rewrite take_app_le in Hfail by lia.
        by destruct (succeeded_not_failed _ _ _ _ (Hwell _ _ Hi) Hfail). }
      rewrite lookup_app_r in Hi by lia.
      destruct (i - length tr1) as [|[|n]] eqn:Hn; simpl in Hi; simplify_eq.
      * assert (i = length tr1) as -> by lia. exists msg.
        rewrite drop_app_ge by (simpl; lia).
        by replace (S (length tr1) - length tr1) with 1 by lia.
Qed.

(** X12. When [main] ends with status 0 it has listed the clusters of a
    project once for each occurrence of the target in the chain of the
    project, for each time the project is listed by the resource manager: a
    project whose chain names the target twice has every command run twice on
    each of its clusters. *)
Theorem main_dispatches_per_occurrence os fuel sched o crm gke p :
  clients os = Ok (crm, gke) → main os fuel sched = Some o → status o = 0 →
  count p (omap listed (events o))
  = count p (projects0 crm fuel)
    * hits crm (default EmptyString (Args os !! 1)) (main_cache (fs os) (cachePath os)) p.
Proof.
  intros Hclients Hmain Hstatus.
  destruct (main_cases _ _ _ _ Hmain)
    as [[_ ->]|[(err & _ & ->)|(prog & target & args & crm' & gke' & l & err & c &
                                 Hargs & Hcl & Hf & Hrest)]]; [done|done|].
  rewrite Hclients in Hcl. injection Hcl as <- <-.
  destruct Hrest as [(_ & _ & ->)|[_ Hrest]]; [done|].
  destruct err as [e|]; [by subst o|].
  destruct Hrest as (tr & r & Hr & ->). simpl in *.
  pose proof (range_projects os gke args l [] (all_well_nil os gke)) as Hl.
  rewrite Hr in Hl. destruct r as [[]|]; [|done].
  destruct Hl as [_ Hlisted]. simpl in Hlisted. rewrite Hlisted, Hargs. simpl.
  apply findChildProjects_run in Hf as (s & Hrun & Hret & _).
  by destruct (returned_count _ _ _ _ _ _ p (inv_run _ _ _ _ _ _ Hrun) Hret) as (_ & _ & ?).
Qed.

Lemma nil_cache_empty d path : nil_cache d path = true → main_cache d path = ∅.
Proof.
  unfold nil_cache, main_cache, openCache.
  destruct (os_Open d path) as [data|]; [|done].
  destruct (parse_value (2 * String.length data + 1) 0 data) as [[j rest]|] eqn:Hp; [|done].
  destruct j; try done. intros _. unfold Decode. rewrite Hp.
  by destruct (skip_space data).
Qed.

(** X18. A cache file that holds the JSON value null leaves [main] with a nil
    map: when some project is listed and the ancestry service answers for
    every listed project, a goroutine stores a chain into that map, and the
    process ends in a panic, with status 2, before any cluster is listed and
    with the cache file as it was. *)
Theorem null_cache_file_ends_in_panic os fuel sched o prog target args crm gke p :
  Args os = prog :: target :: args → clients os = Ok (crm, gke) →
  nil_cache (fs os) (cachePath os) = true →
  p ∈ projects0 crm fuel →
  (∀ q, q ∈ projects0 crm fuel → is_Err (GetAncestry crm q) = false) →
  main os fuel sched = Some o →
  o = Outcome 2 [] (fs os).
Proof.
  intros Hargs Hclients Hnil Hp Hok Hmain.
  destruct (main_cases _ _ _ _ Hmain)
    as [[Hlen _]|[(err & Hcl & _)|(prog' & target' & args' & crm' & gke' & l & err & c &
                                   Hargs' & Hcl & Hf & Hrest)]].
  { rewrite Hargs in Hlen. simpl in Hlen. lia. }
  { by rewrite Hclients in Hcl. }
  rewrite Hclients in Hcl. injection Hcl as <- <-.
  rewrite Hargs in Hargs'. injection Hargs' as <- <- <-.
  destruct Hrest as [(_ & _ & ->)|[[Hnil' | ->] _]]; [done|congruence|].
  exfalso.
  rewrite (nil_cache_empty _ _ Hnil) in Hf.
  apply findChildProjects_run in Hf as (s & Hrun & Hret & Hc).
  pose proof (inv_run _ _ _ _ _ _ Hrun) as Hinv.
  assert (err = None) as ->.
  { destruct err as [e|]; [exfalso|done].
    destruct (reported_run _ _ _ _ _ _ Hrun) as (Herr & Hfirst & Hpc).
    unfold returned in Hret. destruct (pc s) as [| | | |r] eqn:Hr; simplify_eq.
    destruct (Hpc l e eq_refl) as [[ps Hl]|(g & Hg & _)].
    - unfold projects0 in Hp. rewrite Hl in Hp. by apply elem_of_nil in Hp.
    - rewrite Herr in Hg. destruct (Hfirst g Hg) as (q & e' & _ & Hanc & Hin).
      pose proof (inv_queries _ _ _ _ _ Hinv) as Hq. rewrite Forall_forall in Hq.
      destruct (Hq _ Hin) as [[_ Hq0] _]. simpl in Hq0.
      specialize (Hok q Hq0). by rewrite Hanc in Hok. }
  destruct (returned_count _ _ _ _ _ _ p Hinv Hret) as (_ & He & _).
  destruct (returned_fetched _ _ _ _ _ _ p Hinv Hret Hp (lookup_empty p))
    as [(e & _ & [e' He'])|(a & _ & _ & Hs)]; [congruence|].
  by rewrite Hc, lookup_empty in Hs.
Qed.

(** X15. After a run in which [findChildProjects] returned a list, with the
    cache it left saved without an error and all ids valid UTF-8: a run that
    starts from the saved file, for whatever target, with the same listing,
    starts no goroutine and makes no ancestry call, and its cache is the saved
    one. *)
Theorem saved_cache_spares_the_calls crm target fuel c0 sched l c1 d path target' sched' s :
  findChildProjects crm target fuel c0 sched = Some ((l, None), c1) →
  valid_cache c1 = true → (saveCache d path c1).2 = None →
  run crm target' fuel sched' (init (main_cache (saveCache d path c1).1 path)) = Some s →
  goroutines s = [] ∧ queries s = [] ∧ ancestorCache s = c1.
Proof.
  intros Hf Hvalid Hsave Hrun. unfold main_cache in Hrun.
  rewrite (reopen _ _ _ Hvalid Hsave) in Hrun. simpl in Hrun.
  apply findChildProjects_run in Hf as (s1 & Hrun1 & Hret1 & Hc1).
  pose proof (inv_run _ _ _ _ _ _ Hrun1) as Hinv.
  destruct (returned_count _ _ _ _ _ _ EmptyString Hinv Hret1) as (_ & He & _).
  assert (listProjects crm fuel = Some (projects0 crm fuel, None)) as Hl.
  { pose proof (inv_pc _ _ _ _ _ Hinv) as Hpc. unfold pc_ok, returned in *.
    destruct (pc s1); simplify_eq. simpl in Hpc. by destruct Hpc as (_ & _ & _ & ?). }
  assert (∀ p, p ∈ projects0 crm fuel → is_Some (c1 !! p)) as Hall.
  { intros p Hp. destruct (c0 !! p) as [a|] eqn:H0.
    - rewrite <- Hc1, (inv_old _ _ _ _ _ Hinv p a H0). eauto.
    - destruct (returned_fetched _ _ _ _ _ _ p Hinv Hret1 Hp H0)
        as [(e & _ & [e' He'])|(a & _ & _ & Hs)]; [congruence|].
      rewrite <- Hc1, Hs. eauto. }
  destruct (alone_run _ _ _ _ _ Hl Hall _ _ Hrun) as (? & ? & ? & _). done.
Qed.

(** ** What main says when it gives up *)

(** X14. When a client cannot be made, [main] ends with status 1 under every
    schedule, without reading the cache file or listing a project; its message
    names the step that failed after the words of [main] itself, which for a
    failure of the default client are the same words again. *)
Theorem main_reports_client_failure os fuel sched err :
  1 < length (Args os) → clients os = Err err →
  main os fuel sched
  = Some (Outcome 1 [Errorf ("could not authenticate to google: " +:+ Error err)] (fs os)) ∧
  ∃ cause step,
    Error err = step +:+ ": " +:+ Error cause ∧
    (DefaultClient os = Some cause ∧ step = "could not authenticate to google" ∨
     DefaultClient os = None ∧ cloudresourcemanager_New os = Err cause ∧
       step = "could not create cloudresourcemanger client" ∨
     DefaultClient os = None ∧ is_Err (cloudresourcemanager_New os) = false ∧
       container_New os = Err cause ∧ step = "could not create gke client").
Proof.
  intros Hlen Hcl. split.
  - unfold main. destruct (Args os) as [|prog [|target args]]; simpl in Hlen; try lia.
    by rewrite Hcl.
  - unfold clients in Hcl.
    destruct (DefaultClient os) as [e|]; [simplify_eq; eauto 10|].
    destruct (cloudresourcemanager_New os) as [crm|e]; [|simplify_eq; eauto 10].
    destruct (container_New os) as [gke|e]; [done|simplify_eq; eauto 10].
Qed.

(** X13. When [findChildProjects] returns an error, [main] ends with status 1
    and one message, lists no cluster and leaves the cache file as it was, so
    that the chains that were fetched in that run are lost. The message gives
    the cause as the services gave it: that of the listing, or that of the
    first ancestry call that failed, with the project it was for. *)
Theorem main_reports_resolution_failure os fuel sched o prog target args crm gke l err c :
  Args os = prog :: target :: args → clients os = Ok (crm, gke) →
  findChildProjects crm target fuel (main_cache (fs os) (cachePath os)) sched
  = Some ((l, Some err), c) →
  nil_cache (fs os) (cachePath os) = false →
  main os fuel sched = Some o →
  saved o = fs os ∧ status o = 1 ∧
  ((∃ ps cause,
      listProjects crm fuel = Some (ps, Some (Wrapped cause "could not list projects")) ∧
      events o = [Errorf ("could not find projects: could not list projects: "
                          +:+ Error cause)]) ∨
   (∃ p cause,
      GetAncestry crm p = Err cause ∧ p ∈ projects0 crm fuel ∧
      events o = [Errorf ("could not find projects: could not get project ancestors: "
                          +:+ "could not get ancestry for " +:+ p +:+ ": "
                          +:+ Error cause)])).
Proof.
  intros Hargs Hclients Hf Hnil Hmain.
  unfold main in Hmain. rewrite Hargs, Hclients, Hf, Hnil in Hmain. simpl in Hmain.
  injection Hmain as <-. simpl. split; [done|]. split; [done|].
  apply findChildProjects_run in Hf as (s & Hrun & Hret & _).
  pose proof (inv_run _ _ _ _ _ _ Hrun) as Hinv.
  destruct (reported_run _ _ _ _ _ _ Hrun) as (Herr & Hfirst & Hpc).
  unfold returned in Hret. destruct (pc s) as [| | | |r] eqn:Hr; simplify_eq.
  destruct (Hpc l err eq_refl) as [[ps Hl]|(g & Hg & ->)].
  - left. unfold listProjects in Hl.
    destruct (Pages crm fuel EmptyString []) as [[ps' [e'|]]|] eqn:HP; simplify_eq/=.
    exists [], e'. split; [|done]. unfold listProjects. by rewrite HP.
  - right. rewrite Herr in Hg. destruct (Hfirst g Hg) as (p & e & -> & Hanc & Hin).
    exists p, e. split; [done|]. split; [|done].
    pose proof (inv_queries _ _ _ _ _ Hinv) as Hq. rewrite Forall_forall in Hq.
    by destruct (Hq _ Hin) as [[_ ?] _].
Qed.

(** ** The statements at concrete inputs *)

(** C7 on the sample inventory: the answer of [listProjects] is the
    listing of both pages. *)
Lemma listProjects_all_or_nothing_witness :
  listing demo_crm EmptyString ["a"; "b"; "c"].
Proof.
  apply (proj1 (listProjects_all_or_nothing demo_crm) ["a"; "b"; "c"]).
  exists 5. vm_compute. reflexivity.
Defined.

(** When the second page fails, the ids of the first page, which [Pages]
    had handed over, are not returned. *)
Example listProjects_discards_first_page :
  Pages short_crm 5 EmptyString [] = Some (["a"; "b"], Some (Failure "backend error")) ∧
  listProjects short_crm 5
  = Some ([], Some (Wrapped (Failure "backend error") "could not list projects")).
Proof. split; vm_compute; reflexivity. Qed.


(** C2 for project [a] of the same run. *)
Lemma fetched_chain_is_cached_witness :
  (∀ a, ("a", Ok a) ∈ queries (final demo_crm "org1" 5 demo_cache) →
     ancestorCache (final demo_crm "org1" 5 demo_cache) !! "a" = Some a ∧
     (∀ l, returned (final demo_crm "org1" 5 demo_cache) = Some (l, None) →
        "a" ∈ l ↔ "org1" ∈ a)) ∧
  (∀ l, returned (final demo_crm "org1" 5 demo_cache) = Some (l, None) →
     "a" ∈ projects0 demo_crm 5 →
     ∃ a, GetAncestry demo_crm "a" = Ok a ∧
          ("a", Ok a) ∈ queries (final demo_crm "org1" 5 demo_cache)).
Proof.
  apply (fetched_chain_is_cached demo_crm "org1" 5 demo_cache
           (to_the_end demo_crm "org1" 5 demo_cache)).
  - vm_compute. reflexivity.
  - eexists. vm_compute. reflexivity.
  - vm_compute. reflexivity.
Defined.



(** C6 for the cached chain of [b]. *)
Lemma cached_chain_is_immutable_witness :
  ancestorCache (final demo_crm "org1" 5 demo_cache) !! "b" = Some ["org1"] ∧
  (∀ r, ("b", r) ∉ queries (final demo_crm "org1" 5 demo_cache)) ∧
  (∀ q a sched' s',
     ancestorCache (final demo_crm "org1" 5 demo_cache) !! q = Some a →
     run demo_crm "org1" 5 sched' (final demo_crm "org1" 5 demo_cache) = Some s' →
     ancestorCache s' !! q = Some a).
Proof.
  apply (cached_chain_is_immutable demo_crm "org1" 5 demo_cache
           (to_the_end demo_crm "org1" 5 demo_cache)).
  - vm_compute. reflexivity.
  - vm_compute. reflexivity.
Defined.

(** C9 with [b ↦ [org1; org1]] cached: [b] is returned twice. *)
Lemma project_appended_per_occurrence_witness :
  count "b" ["b"; "b"; "a"; "c"]
  = count "b" (projects0 demo_crm 5) * count "org1" ["org1"; "org1"] ∧
  ("b" ∈ projects0 demo_crm 5 → 1 < count "org1" ["org1"; "org1"] →
   ¬ NoDup ["b"; "b"; "a"; "c"]).
Proof.
  apply (project_appended_per_occurrence demo_crm "org1" 5 twice_cache
           (to_the_end demo_crm "org1" 5 twice_cache)
           (final demo_crm "org1" 5 twice_cache)).
  - vm_compute. reflexivity.
  - vm_compute. reflexivity.
  - vm_compute. reflexivity.
Defined.



(** C8 as claimed fails for a cache with an id that is not UTF-8: saving
    succeeds, and loading gives U+FFFD in place of the byte. *)
Lemma saveCache_openCache_not_identity :
  (saveCache blank_disk "cache.json" latin1_cache).2 = None ∧
  (openCache (saveCache blank_disk "cache.json" latin1_cache).1 "cache.json").1
  ≠ latin1_cache.
Proof.
  split; [vm_compute; reflexivity|].
  intros H. apply (f_equal (λ m : gmap string (list string), m !! "p")) in H.
  vm_compute in H. discriminate H.
Qed.

(** C8, as the code has it, for the sample cache. *)
Lemma saveCache_openCache_witness :
  openCache (saveCache blank_disk "cache.json" demo_cache).1 "cache.json"
  = (demo_cache, None).
Proof.
  apply (saveCache_openCache blank_disk "cache.json" demo_cache).
  - vm_compute. reflexivity.
  - vm_compute. reflexivity.
Defined.

(** C10 on a disk with room for four bytes: the old cache file is gone,
    the first four bytes of the new one are there. *)
Lemma saveCache_not_atomic_witness :
  is_Some (saveCache full_disk "cache.json" latin1_cache).2 ∧
  files (saveCache full_disk "cache.json" latin1_cache).1 !! "cache.json"
  = Some (String.substring 0 4 (Encode latin1_cache)).
Proof.
  apply (saveCache_not_atomic full_disk "cache.json" latin1_cache 4).
  - reflexivity.
  - reflexivity.
  - vm_compute. lia.
Defined.

(** ** The scenarios of the design document *)

(** Empty cache, target [org1]: [a] and [c] are returned and all three
    chains are cached. *)
Example scenario_empty_cache :
  findChildProjects demo_crm "org1" 5 ∅ (to_the_end demo_crm "org1" 5 ∅)
  = Some ((["a"; "c"], None),
          <["a" := ["org1"; "folder2"]]>
            (<["b" := ["org2"]]> (<["c" := ["folder2"; "org1"]]> ∅))).
Proof. vm_compute. reflexivity. Qed.

(** With [b ↦ [org1]] in the cache, only [a] and [c] are asked for, and all
    three projects are returned. *)
Example scenario_cached_project :
  findChildProjects demo_crm "org1" 5 demo_cache
    (to_the_end demo_crm "org1" 5 demo_cache)
  = Some ((["b"; "a"; "c"], None),
          <["a" := ["org1"; "folder2"]]>
            (<["b" := ["org1"]]> (<["c" := ["folder2"; "org1"]]> ∅))) ∧
  queries (final demo_crm "org1" 5 demo_cache)
  = [("a", Ok ["org1"; "folder2"]); ("c", Ok ["folder2"; "org1"])].
Proof. split; vm_compute; reflexivity. Qed.

(** Another interleaving of the same run: the goroutine of [c] overtakes
    the one of [a], and the list comes in another order. *)
Example scenario_other_schedule :
  findChildProjects demo_crm "org1" 5 demo_cache
    [RunMain; RunMain; RunTask 0 false; RunMain; RunMain; RunMain; RunMain;
     RunTask 1 false; RunTask 1 false; RunTask 1 false; RunTask 1 false;
     RunTask 0 false; RunTask 0 false; RunTask 0 false; RunMain; RunMain]
  = Some ((["b"; "c"; "a"], None),
          <["a" := ["org1"; "folder2"]]>
            (<["b" := ["org1"]]> (<["c" := ["folder2"; "org1"]]> ∅))).
Proof. vm_compute. reflexivity. Qed.

(** *** The further properties at concrete inputs *)

(** The listing that fails on its second page. *)
Lemma listing_failure_ends_resolution_witness :
  goroutines (final short_crm "org1" 5 demo_cache) = [] ∧
  queries (final short_crm "org1" 5 demo_cache) = [] ∧
  ancestorCache (final short_crm "org1" 5 demo_cache) = demo_cache ∧
  (∃ cause, Wrapped (Failure "backend error") "could not list projects"
            = Wrapped cause "could not list projects") ∧
  (to_the_end short_crm "org1" 5 demo_cache = [] ∨
   to_the_end short_crm "org1" 5 demo_cache = [RunMain] ∧
   returned (final short_crm "org1" 5 demo_cache)
   = Some ([], Some (Wrapped (Failure "backend error") "could not list projects"))).
Proof.
  apply (listing_failure_ends_resolution short_crm "org1" 5 demo_cache
           (to_the_end short_crm "org1" 5 demo_cache) _ []).
  - vm_compute. reflexivity.
  - vm_compute. reflexivity.
Defined.


(** The run in which the ancestry of [c] fails, after [a] and [b] were
    fetched. *)
Lemma cache_holds_only_answers_witness :
  (∀ p a, ancestorCache (final flaky_crm "org1" 5 ∅) !! p = Some a →
     (∅ : gmap string (list string)) !! p = Some a ∨
     (∅ : gmap string (list string)) !! p = None ∧ p ∈ projects0 flaky_crm 5 ∧
     GetAncestry flaky_crm p = Ok a ∧
     (p, Ok a) ∈ queries (final flaky_crm "org1" 5 ∅)) ∧
  (∀ l, returned (final flaky_crm "org1" 5 ∅) = Some (l, None) →
     ∀ p, ancestorCache (final flaky_crm "org1" 5 ∅) !! p
          = if decide (p ∈ projects0 flaky_crm 5) then chain flaky_crm ∅ p
            else (∅ : gmap string (list string)) !! p).
Proof.
  apply (cache_holds_only_answers flaky_crm "org1" 5 ∅ (to_the_end flaky_crm "org1" 5 ∅)).
  vm_compute. reflexivity.
Defined.



Lemma one_call_per_listing_witness :
  calls "a" (queries (final demo_crm "org1" 5 ∅)) ≤ count "a" (projects0 demo_crm 5).
Proof.
  apply (one_call_per_listing demo_crm "org1" 5 ∅ (to_the_end demo_crm "org1" 5 ∅)).
  vm_compute. reflexivity.
Defined.

(** The sample process: three projects, of which [a] and [c] are under
    [org1], with two clusters and one. *)
Lemma main_acts_on_a_resolved_list_only_witness :
  ∃ prog target args crm gke l c,
    Args demo_os = prog :: target :: args ∧ clients demo_os = Ok (crm, gke) ∧
    findChildProjects crm target 5 (main_cache (fs demo_os) (cachePath demo_os)) demo_sched
    = Some ((l, None), c) ∧
    saved (ended demo_os 5 demo_sched)
    = (if nil_cache (fs demo_os) (cachePath demo_os)
       then saveCache_nil (fs demo_os) (cachePath demo_os)
       else saveCache (fs demo_os) (cachePath demo_os) c).1.
Proof.
  apply (main_acts_on_a_resolved_list_only demo_os 5 demo_sched).
  - vm_compute. reflexivity.
  - left. vm_compute. reflexivity.
Defined.

Lemma kubectl_follows_credentials_witness :
  ∃ p c j,
    2 = S j ∧
    ["--context"; "gke_a_europe-west1-b_prod"; "get"; "pods"]
    = "--context" :: ("gke_" +:+ p +:+ "_" +:+ Zone c +:+ "_" +:+ Name c)
      :: drop 2 (Args demo_os) ∧
    events (ended demo_os 5 demo_sched) !! j
    = Some (Start ["gcloud"; "--project"; p; "container"; "clusters";
                   "get-credentials"; Name c; "--zone"; Zone c]) ∧
    Cmd_Run demo_os (take j (events (ended demo_os 5 demo_sched)))
      ["gcloud"; "--project"; p; "container"; "clusters";
       "get-credentials"; Name c; "--zone"; Zone c] = None.
Proof.
  apply (kubectl_follows_credentials demo_os 5 demo_sched (ended demo_os 5 demo_sched)).
  - vm_compute. reflexivity.
  - vm_compute. reflexivity.
Defined.

Lemma main_success_dispatches_the_list_witness :
  (∀ i e, events (ended demo_os 5 demo_sched) !! i = Some e →
     succeeded demo_os demo_gke (take i (events (ended demo_os 5 demo_sched))) e = true) ∧
  ∃ c, findChildProjects demo_crm (default EmptyString (Args demo_os !! 1)) 5
         (main_cache (fs demo_os) (cachePath demo_os)) demo_sched
       = Some ((omap listed (events (ended demo_os 5 demo_sched)), None), c).
Proof.
  apply (main_success_dispatches_the_list demo_os 5 demo_sched _ demo_crm demo_gke).
  - reflexivity.
  - vm_compute. reflexivity.
  - vm_compute. reflexivity.
Defined.

(** kubectl fails on the second cluster of [a]: the cluster of [c] is not
    reached. *)
Lemma main_stops_at_first_failure_witness :
  status (ended failing_os 5 demo_sched) = 1 ∧
  ∃ msg, drop 5 (events (ended failing_os 5 demo_sched)) = [Errorf msg].
Proof.
  apply (main_stops_at_first_failure failing_os 5 demo_sched _ demo_crm demo_gke 4
           (Start ["kubectl"; "--context"; "gke_a_us-east1-c_dev"; "get"; "pods"])).
  - reflexivity.
  - vm_compute. reflexivity.
  - vm_compute. reflexivity.
  - vm_compute. reflexivity.
Defined.

Lemma main_dispatches_per_occurrence_witness :
  count "a" (omap listed (events (ended demo_os 5 demo_sched)))
  = count "a" (projects0 demo_crm 5)
    * hits demo_crm (default EmptyString (Args demo_os !! 1))
        (main_cache (fs demo_os) (cachePath demo_os)) "a".
Proof.
  apply (main_dispatches_per_occurrence demo_os 5 demo_sched _ demo_crm demo_gke "a").
  - reflexivity.
  - vm_compute. reflexivity.
  - vm_compute. reflexivity.
Defined.

Lemma null_cache_file_ends_in_panic_witness :
  ended null_os 5 demo_sched = Outcome 2 [] (fs null_os).
Proof.
  apply (null_cache_file_ends_in_panic null_os 5 demo_sched _
           "org-kubectl" "org1" ["get"; "pods"] demo_crm demo_gke "a").
  - reflexivity.
  - reflexivity.
  - vm_compute. reflexivity.
  - vm_compute. repeat constructor.
  - intros q Hq. vm_compute in Hq.
    repeat (apply elem_of_cons in Hq as [->|Hq]; [vm_compute; reflexivity|]).
    by apply elem_of_nil in Hq.
  - vm_compute. reflexivity.
Defined.

(** The cache of the first run, saved on an empty disk and read again for
    the target [org2]. *)
Lemma saved_cache_spares_the_calls_witness :
  goroutines (final demo_crm "org2" 5 full_cache) = [] ∧
  queries (final demo_crm "org2" 5 full_cache) = [] ∧
  ancestorCache (final demo_crm "org2" 5 full_cache) = full_cache.
Proof.
  apply (saved_cache_spares_the_calls demo_crm "org1" 5 ∅ demo_sched ["a"; "c"] full_cache
           blank_disk "cache.json" "org2" (to_the_end demo_crm "org2" 5 full_cache)).
  - vm_compute. reflexivity.
  - vm_compute. reflexivity.
  - vm_compute. reflexivity.
  - vm_compute. reflexivity.
Defined.

Lemma main_reports_client_failure_witness :
  main anonymous_os 5 []
  = Some (Outcome 1 [Errorf ("could not authenticate to google: "
                             +:+ Error (Wrapped (Failure "could not find default credentials")
                                                "could not authenticate to google"))]
                  (fs anonymous_os)) ∧
  ∃ cause step,
    Error (Wrapped (Failure "could not find default credentials")
                   "could not authenticate to google")
    = step +:+ ": " +:+ Error cause ∧
    (DefaultClient anonymous_os = Some cause ∧ step = "could not authenticate to google" ∨
     DefaultClient anonymous_os = None ∧ cloudresourcemanager_New anonymous_os = Err cause ∧
       step = "could not create cloudresourcemanger client" ∨
     DefaultClient anonymous_os = None ∧
       is_Err (cloudresourcemanager_New anonymous_os) = false ∧
       container_New anonymous_os = Err cause ∧ step = "could not create gke client").
Proof.
  apply (main_reports_client_failure anonymous_os 5 []).
  - vm_compute. lia.
  - reflexivity.
Defined.

Lemma main_reports_resolution_failure_witness :
  saved (ended flaky_os 5 (to_the_end flaky_crm "org1" 5 ∅)) = fs flaky_os ∧
  status (ended flaky_os 5 (to_the_end flaky_crm "org1" 5 ∅)) = 1 ∧
  ((∃ ps cause,
      listProjects flaky_crm 5 = Some (ps, Some (Wrapped cause "could not list projects")) ∧
      events (ended flaky_os 5 (to_the_end flaky_crm "org1" 5 ∅))
      = [Errorf ("could not find projects: could not list projects: " +:+ Error cause)]) ∨
   (∃ p cause,
      GetAncestry flaky_crm p = Err cause ∧ p ∈ projects0 flaky_crm 5 ∧
      events (ended flaky_os 5 (to_the_end flaky_crm "org1" 5 ∅))
      = [Errorf ("could not find projects: could not get project ancestors: "
                 +:+ "could not get ancestry for " +:+ p +:+ ": " +:+ Error cause)])).
Proof.
  apply (main_reports_resolution_failure flaky_os 5 (to_the_end flaky_crm "org1" 5 ∅) _
           "org-kubectl" "org1" ["get"; "pods"] flaky_crm demo_gke []
           (Wrapped (Wrapped (Failure "service unavailable") "could not get ancestry for c")
                    "could not get project ancestors")
           (<["a" := ["org1"; "folder2"]]> (<["b" := ["org2"]]> ∅))).
  - reflexivity.
  - reflexivity.
  - vm_compute. reflexivity.
  - vm_compute. reflexivity.
  - vm_compute. reflexivity.
Defined.

(** The cache file of a user whose home is [/home/u]. *)
Lemma cachePath_under_HOME_witness :
  cachePath demo_os = "/" +:+ join "/" (["home"; "u"] ++ [".kube"; "cache"; "org-kubectl.json"]).
Proof.
  apply (proj2 (cachePath_under_HOME demo_os) ["home"; "u"]).
  - repeat constructor.
  - reflexivity.
Defined.

(** A cache file with an id that is not UTF-8, and with one that is. *)
Lemma loaded_cache_is_stable_witness :
  openCache (saveCache blank_disk "cache.json" (openCache corrupt_disk "cache.json").1).1
    "cache.json"
  = ((openCache corrupt_disk "cache.json").1, None).
Proof.
  apply (proj2 (loaded_cache_is_stable corrupt_disk "cache.json" blank_disk "cache.json")).
  vm_compute. reflexivity.
Defined.

Lemma saveCache_changes_one_file_witness :
  files (saveCache full_disk "cache.json" demo_cache).1 !! "other.json"
  = files full_disk !! "other.json".
Proof.
  apply (proj1 (proj2 (saveCache_changes_one_file full_disk "cache.json" demo_cache))).
  done.
Defined.

(** Two schedules of the run with [b] cached: the lists are [b; a; c] and
    [b; c; a]. *)
Lemma schedules_agree_witness :
  ∃ l2, (["b"; "c"; "a"], None) = (l2, @None error) ∧ ["b"; "a"; "c"] ≡ₚ l2 ∧
        ancestorCache (final demo_crm "org1" 5 demo_cache)
        = ancestorCache (default (init demo_cache)
                           (run demo_crm "org1" 5 other_sched (init demo_cache))).
Proof.
  apply (schedules_agree demo_crm "org1" 5 demo_cache
           (to_the_end demo_crm "org1" 5 demo_cache) _ _ other_sched).
  - vm_compute. reflexivity.
  - vm_compute. reflexivity.
  - vm_compute. reflexivity.
  - vm_compute. reflexivity.
Defined.

Lemma main_serves_every_cluster_witness :
  take (2 * length [{| Name := "prod"; Zone := "europe-west1-b" |};
                    {| Name := "dev"; Zone := "us-east1-c" |}])
       (drop 1 (events (ended demo_os 5 demo_sched)))
  = commands (drop 2 (Args demo_os)) "a"
      [{| Name := "prod"; Zone := "europe-west1-b" |};
       {| Name := "dev"; Zone := "us-east1-c" |}].
Proof.
  apply (main_serves_every_cluster demo_os 5 demo_sched _ demo_crm demo_gke 0 "a").
  - reflexivity.
  - vm_compute. reflexivity.
  - vm_compute. reflexivity.
  - vm_compute. reflexivity.
  - vm_compute. reflexivity.
Defined.

(** X21 on the disk with room for four bytes. *)
Lemma cut_cache_reads_empty_witness :
  is_Some (saveCache full_disk "cache.json" demo_cache).2 ∧
  ∃ err, openCache (saveCache full_disk "cache.json" demo_cache).1 "cache.json"
         = (∅, Some err).
Proof.
  apply (cut_cache_reads_empty full_disk "cache.json" demo_cache 4).
  - reflexivity.
  - reflexivity.
  - vm_compute. lia.
Defined.

(** X22 on the disk with room for the object only. *)
Lemma cache_short_of_newline_reads_whole_witness :
  is_Some (saveCache tight_disk "cache.json" demo_cache).2 ∧
  openCache (saveCache tight_disk "cache.json" demo_cache).1 "cache.json"
  = (demo_cache, None).
Proof.
  apply (cache_short_of_newline_reads_whole tight_disk "cache.json" demo_cache).
  - reflexivity.
  - reflexivity.
  - vm_compute. reflexivity.
Defined.
